(** * Lazy row streaming over the [user_data] table

    A shallow embedding of the generator functions of
    [python-generators-0x00] ([0-stream_users.py], [1-batch_processing.py],
    [2-lazy_paginate.py], [4-stream_ages.py] and the two helpers of [seed.py]
    they rely on), together with the properties established about them.

    Layout:
    - [Py]: the Python values that can sit in the [age] column and the
      builtins [int], [float], [isinstance(_, int)], [/] and the [.2f]
      format, as CPython defines them on those values;
    - [Store]: the external MySQL store, as a description of how one
      session behaves (contents of the table, and the point where it fails);
    - [Gen]: procedures, generators, [next], [close] and [for] loops;
    - the functions of the repository, under their own names;
    - the properties. *)

From Stdlib Require Import String Ascii ZArith Bool Lia List.
From Stdlib Require Import Floats.SpecFloat.
From Stdlib Require Import DecimalString.
From Equations Require Import Equations.
Import ListNotations.

Local Open Scope Z_scope.
Local Open Scope list_scope.

(* ===================================================================== *)
(** * Python values and builtins *)
(* ===================================================================== *)

Module Py.

(** Exceptions.  All of them derive from [Exception]; [StoreError] stands
    for [mysql.connector.Error] (with its error number).  [GeneratorExit],
    which is not an [Exception], is not a value of this type: it only
    arises from [close], see [Gen.close]. *)
Inductive exn : Type :=
| ValueError
| TypeError
| OverflowError
| ZeroDivisionError
| AttributeError
| StoreError (errno : Z).

Inductive result (A : Type) : Type :=
| Ok (a : A)
| Err (e : exn).
Arguments Ok {A} a.
Arguments Err {A} e.

(** Values found in a column of a fetched row: [None], [bool], [int],
    [float] (IEEE binary64, as [spec_float]), a finite [decimal.Decimal]
    [coef * 10^exp] (what the connector returns for a [DECIMAL] column,
    such as [age DECIMAL(5,0)] in [seed.create_table]) and [str] (ASCII
    text). *)
Inductive pyval : Type :=
| VNone
| VBool (b : bool)
| VInt (z : Z)
| VFloat (f : spec_float)
| VDecimal (coef : Z) (exp : Z)
| VStr (s : string).

(** ** binary64 *)

Definition prec : Z := 53.
Definition emax : Z := 1024.

(** The binary64 number nearest to [(-1)^neg * p / q] (ties to even). *)
Definition round_ratio (neg : bool) (p q : positive) : spec_float :=
  let '(mz, ez, lz) := SFdiv_core_binary prec emax (Zpos p) 0 (Zpos q) 0 in
  binary_round_aux prec emax neg mz ez lz.

(** The binary64 number nearest to the integer [z]. *)
Definition float_of_Z (z : Z) : spec_float :=
  binary_normalize prec emax z 0 false.

(** The binary64 number nearest to [(-1)^neg * c * 10^e], [c >= 0]. *)
Definition float_of_decimal (neg : bool) (c : Z) (e : Z) : spec_float :=
  match c with
  | Zpos p =>
      match e with
      | Zneg k => round_ratio neg p (Pos.pow 10 k)
      | _ => binary_round prec emax neg (p * Z.to_pos (10 ^ e)) 0
      end
  | _ => S754_zero neg
  end.

(** Truncation towards zero of a finite binary64 number. *)
Definition trunc_float (neg : bool) (m : positive) (e : Z) : Z :=
  let mag := match e with
             | Zneg k => Zpos m / 2 ^ Zpos k
             | _ => Zpos m * 2 ^ e
             end in
  if neg then - mag else mag.

(** ** Reading numbers from text *)

Definition is_digit (c : ascii) : bool :=
  let n := nat_of_ascii c in (48 <=? n)%nat && (n <=? 57)%nat.

Definition digit_val (c : ascii) : Z := Z.of_nat (nat_of_ascii c) - 48.

(** The ASCII white space [int] and [float] strip from a string. *)
Definition is_space (c : ascii) : bool :=
  let n := nat_of_ascii c in
  ((9 <=? n)%nat && (n <=? 13)%nat) || (n =? 32)%nat.

Definition lower (c : ascii) : ascii :=
  let n := nat_of_ascii c in
  if (65 <=? n)%nat && (n <=? 90)%nat then ascii_of_nat (n + 32) else c.

Fixpoint lstrip (l : list ascii) : list ascii :=
  match l with
  | c :: l' => if is_space c then lstrip l' else l
  | [] => []
  end.

Definition strip (l : list ascii) : list ascii :=
  rev (lstrip (rev (lstrip l))).

(** [digit (["_"] digit)*]: reads the longest such prefix of [l].  [acc] is
    the value and [n] the number of digits read so far. *)
Fixpoint scan_digits (acc : Z) (n : nat) (l : list ascii)
  : Z * nat * list ascii :=
  match l with
  | c :: l' =>
      if is_digit c then scan_digits (10 * acc + digit_val c) (S n) l'
      else if Ascii.eqb c "_" then
        match n, l' with
        | S _, d :: l'' =>
            if is_digit d
            then scan_digits (10 * acc + digit_val d) (S n) l''
            else (acc, n, l)
        | _, _ => (acc, n, l)
        end
      else (acc, n, l)
  | [] => (acc, n, l)
  end.

(** An optional sign. *)
Definition scan_sign (l : list ascii) : bool * list ascii :=
  match l with
  | c :: l' =>
      if Ascii.eqb c "-" then (true, l')
      else if Ascii.eqb c "+" then (false, l')
      else (false, l)
  | [] => (false, l)
  end.

(** [int(s)] for a string, base 10: white space around, a sign, digits
    with single underscores between them.  (The interpreter's limit on the
    number of digits, 4300 by default, is left out.) *)
Definition int_of_string (s : string) : result Z :=
  let '(neg, l) := scan_sign (strip (list_ascii_of_string s)) in
  match scan_digits 0 0 l with
  | (v, S _, []) => Ok (if neg then - v else v)
  | _ => Err ValueError
  end.

(** The exponent part of a float literal: nothing, or [e], a sign and
    digits. *)
Definition scan_exponent (l : list ascii) : option Z :=
  match l with
  | [] => Some 0
  | c :: l' =>
      if Ascii.eqb (lower c) "e" then
        let '(neg, l'') := scan_sign l' in
        match scan_digits 0 0 l'' with
        | (v, S _, []) => Some (if neg then - v else v)
        | _ => None
        end
      else None
  end.

(** [float(s)] for a string: [inf], [infinity], [nan], or a decimal
    literal with optional fraction and exponent, correctly rounded. *)
Definition float_of_string (s : string) : result spec_float :=
  let '(neg, l) := scan_sign (strip (list_ascii_of_string s)) in
  let word := string_of_list_ascii (map lower l) in
  if String.eqb word "inf" || String.eqb word "infinity"
  then Ok (S754_infinity neg)
  else if String.eqb word "nan" then Ok S754_nan
  else
    let '(ip, ni, l1) := scan_digits 0 0 l in
    let '(fp, nf, l2) :=
      match l1 with
      | c :: l1' => if Ascii.eqb c "." then scan_digits 0 0 l1' else (0, 0%nat, l1)
      | [] => (0, 0%nat, l1)
      end in
    match (ni + nf)%nat, scan_exponent l2 with
    | S _, Some e =>
        Ok (float_of_decimal neg (ip * 10 ^ Z.of_nat nf + fp) (e - Z.of_nat nf))
    | _, _ => Err ValueError
    end.

(** ** The builtins *)

(** [isinstance(v, int)]; [bool] is a subclass of [int]. *)
Definition isinstance_int (v : pyval) : bool :=
  match v with
  | VBool _ | VInt _ => true
  | _ => false
  end.

(** The integer an [int] instance stands for in a comparison. *)
Definition int_value (v : pyval) : Z :=
  match v with
  | VInt z => z
  | VBool true => 1
  | _ => 0
  end.

(** [int(v)]. *)
Definition int (v : pyval) : result Z :=
  match v with
  | VNone => Err TypeError
  | VBool b => Ok (if b then 1 else 0)
  | VInt z => Ok z
  | VFloat (S754_zero _) => Ok 0
  | VFloat (S754_finite s m e) => Ok (trunc_float s m e)
  | VFloat (S754_infinity _) => Err OverflowError
  | VFloat S754_nan => Err ValueError
  | VDecimal c e =>
      Ok (match e with
          | Zneg k => Z.quot c (10 ^ Zpos k)
          | _ => c * 10 ^ e
          end)
  | VStr s => int_of_string s
  end.

(** [float(v)]. *)
Definition float (v : pyval) : result spec_float :=
  match v with
  | VNone => Err TypeError
  | VBool b => Ok (float_of_Z (if b then 1 else 0))
  | VInt z =>
      match float_of_Z z with
      | S754_infinity _ => Err OverflowError
      | f => Ok f
      end
  | VFloat f => Ok f
  | VDecimal c e => Ok (float_of_decimal (c <? 0) (Z.abs c) e)
  | VStr s => float_of_string s
  end.

(** [a / b] on two [int]s: the correctly rounded quotient. *)
Definition truediv (a b : Z) : result spec_float :=
  match b with
  | Z0 => Err ZeroDivisionError
  | _ =>
      match a with
      | Z0 => Ok (S754_zero false)
      | _ =>
          match round_ratio (xorb (a <? 0) (b <? 0))
                            (Z.to_pos (Z.abs a)) (Z.to_pos (Z.abs b)) with
          | S754_infinity _ => Err OverflowError
          | f => Ok f
          end
      end
  end.

(** ** Formatting *)

Definition string_of_nonneg (z : Z) : string :=
  NilZero.string_of_uint (N.to_uint (Z.to_N z)).

(** [h] hundredths, written with two decimals. *)
Definition hundredths (neg : bool) (h : Z) : string :=
  ((if neg then "-" else "") ++ string_of_nonneg (h / 100) ++ "."
   ++ string_of_nonneg (h mod 100 / 10) ++ string_of_nonneg (h mod 10))%string.

(** [n / d] rounded to the nearest integer, ties to even ([0 < d]). *)
Definition round_half_even (n d : Z) : Z :=
  let q := n / d in
  let r := n mod d in
  match 2 * r ?= d with
  | Lt => q
  | Gt => q + 1
  | Eq => if Z.even q then q else q + 1
  end.

(** [format(f, ".2f")]. *)
Definition format_2f (f : spec_float) : string :=
  match f with
  | S754_zero s => hundredths s 0
  | S754_infinity s => if s then "-inf" else "inf"
  | S754_nan => "nan"
  | S754_finite s m e =>
      hundredths s
        (match e with
         | Zneg k => round_half_even (100 * Zpos m) (2 ^ Zpos k)
         | _ => 100 * Zpos m * 2 ^ e
         end)
  end.

End Py.

Import Py.

(* ===================================================================== *)
(** * The store *)
(* ===================================================================== *)

Module Store.

(** A row of [user_data]: the dictionary a [dictionary=True] cursor hands
    out for [SELECT user_id, name, email, age] (or [SELECT *]). *)
Record record : Type := {
  user_id : pyval;
  name : pyval;
  email : pyval;
  age : pyval
}.

(** [row["age"] = v]. *)
Definition set_age (row : record) (v : pyval) : record :=
  {| user_id := user_id row; name := name row; email := email row; age := v |}.

(** One session with the server: the contents of the table and, when the
    session goes wrong, the call that raises [mysql.connector.Error].
    [fetch_error = Some (n, errno)] makes the fetch that follows the [n]
    first rows of a result set raise. *)
Record store : Type := {
  connect_error : option Z;
  cursor_error : option Z;
  execute_error : option Z;
  fetch_error : option (nat * Z);
  table : list record
}.

(** A store that answers every call. *)
Definition healthy (rows : list record) : store :=
  {| connect_error := None; cursor_error := None; execute_error := None;
     fetch_error := None; table := rows |}.

(** The statements the repository sends. *)
Inductive query : Type :=
| SelectUsers                       (* SELECT user_id, name, email, age FROM user_data *)
| SelectAges                        (* SELECT age FROM user_data *)
| SelectPage (limit offset : Z).    (* SELECT * FROM user_data LIMIT l OFFSET o *)

(** [LIMIT] and [OFFSET] take non-negative integers only; the server
    refuses anything else with a syntax error. *)
Definition syntax_error : Z := 1064.

Definition result_set (db : store) (q : query) : result (list record) :=
  match q with
  | SelectUsers | SelectAges => Ok (table db)
  | SelectPage limit offset =>
      if (limit <? 0) || (offset <? 0) then Err (StoreError syntax_error)
      else Ok (firstn (Z.to_nat limit) (skipn (Z.to_nat offset) (table db)))
  end.

(** What a cursor delivers of a result set: the rows, then exhaustion or
    the error. *)
Definition delivered (db : store) (rows : list record)
  : list record * option Z :=
  match fetch_error db with
  | Some (n, errno) =>
      if (n <=? length rows)%nat then (firstn n rows, Some errno)
      else (rows, None)
  | None => (rows, None)
  end.

End Store.

Import Store.

(* ===================================================================== *)
(** * Procedures and generators *)
(* ===================================================================== *)

Module Gen.

Inductive resource : Type := Connection | Cursor.

(** What is written to standard output, one [print] at a time. *)
Inductive line : Type :=
| Text (s : string)
| ConnectFailure (errno : Z)        (* [connect_to_prodev] Error connecting ... *)
| StreamFailure (errno : Z)         (* [stream_user_data] Error streaming ... *)
| Row (u : record)
| Blank.

(** What a run does to the outside world. *)
Inductive event : Type :=
| Acquire (r : resource)
| Release (r : resource)
| Execute (q : query)
| Stdout (l : line).

(** An ordinary call: the events it performs, then its value or the
    exception it raises. *)
Definition proc (A : Type) : Type := list event * result A.

Definition ret {A} (a : A) : proc A := ([], Ok a).
Definition raise {A} (e : exn) : proc A := ([], Err e).
Definition emit (e : event) : proc unit := ([e], Ok tt).

Definition bind {A B} (c : proc A) (f : A -> proc B) : proc B :=
  match c with
  | (evs, Ok a) => let '(evs', r) := f a in (evs ++ evs', r)
  | (evs, Err e) => (evs, Err e)
  end.

Notation "x <- c ;; k" := (bind c (fun x => k))
  (at level 61, c at next level, right associativity).
Notation "' p <- c ;; k" := (bind c (fun x => let 'p := x in k))
  (at level 61, p pattern, c at next level, right associativity).
Notation "c ;;; k" := (bind c (fun _ => k))
  (at level 61, right associativity).

(** The body of a generator run against a given store: the events it
    performs and the values it yields, up to its return or the exception
    it raises.  A [Yield] records the [finally] blocks that enclose it:
    they are what runs when the generator is closed while suspended
    there. *)
Inductive gen (Y : Type) : Type :=
| Emit (e : event) (k : gen Y)
| Yield (y : Y) (cleanup : list event) (k : gen Y)
| Return
| Raise (e : exn).
Arguments Emit {Y} e k.
Arguments Yield {Y} y cleanup k.
Arguments Return {Y}.
Arguments Raise {Y} e.

Fixpoint emits {Y} (evs : list event) (k : gen Y) : gen Y :=
  match evs with
  | e :: evs' => Emit e (emits evs' k)
  | [] => k
  end.

(** A call inside a generator body. *)
Definition call {A Y} (c : proc A) (k : A -> gen Y) : gen Y :=
  match c with
  | (evs, Ok a) => emits evs (k a)
  | (evs, Err e) => emits evs (Raise e)
  end.

(** A generator object. *)
Inductive genobj (Y : Type) : Type :=
| Created (body : gen Y)
| Suspended (cleanup : list event) (k : gen Y)
| Finished.
Arguments Created {Y} body.
Arguments Suspended {Y} cleanup k.
Arguments Finished {Y}.

(** Calling a generator function runs none of its body. *)
Definition generator {Y} (body : gen Y) : proc (genobj Y) := ret (Created body).

Inductive outcome (Y : Type) : Type :=
| Yielded (y : Y)
| StopIteration
| Raised (e : exn).
Arguments Yielded {Y} y.
Arguments StopIteration {Y}.
Arguments Raised {Y} e.

(** Runs a body to its next suspension point; [tr] is the trace so far. *)
Fixpoint resume {Y} (g : gen Y) (tr : list event)
  : outcome Y * genobj Y * list event :=
  match g with
  | Emit e k => resume k (tr ++ [e])
  | Yield y c k => (Yielded y, Suspended c k, tr)
  | Return => (StopIteration, Finished, tr)
  | Raise e => (Raised e, Finished, tr)
  end.

(** [next(o)]. *)
Definition next {Y} (o : genobj Y) (tr : list event)
  : outcome Y * genobj Y * list event :=
  match o with
  | Created body => resume body tr
  | Suspended _ k => resume k tr
  | Finished => (StopIteration, Finished, tr)
  end.

(** [o.close()]: nothing runs in a generator that has not started;
    [GeneratorExit] is raised at the [yield] of a suspended one, where only
    the enclosing [finally] blocks run. *)
Definition close {Y} (o : genobj Y) (tr : list event)
  : genobj Y * list event :=
  match o with
  | Created _ => (Finished, tr)
  | Suspended c _ => (Finished, tr ++ c)
  | Finished => (Finished, tr)
  end.

(** The behaviour of iterating over the value of a call, as in
    [for x in f(): ...]. *)
Definition iterate {Y} (c : proc (genobj Y)) : gen Y :=
  call c (fun o =>
    match o with
    | Created body => body
    | Suspended _ k => k
    | Finished => Return
    end).

(** [for y in g: acc = body(acc, y)]: an exception of the generator or of
    the body leaves the loop.  The loop does not close a generator it
    leaves that way; what the garbage collector does with it later is not
    part of a run. *)
Fixpoint for_each {Y A} (g : gen Y) (body : A -> Y -> proc A) (acc : A)
  : proc A :=
  match g with
  | Emit e k => emit e ;;; for_each k body acc
  | Yield y _ k => acc' <- body acc y ;; for_each k body acc'
  | Return => ret acc
  | Raise e => raise e
  end.

(** [list(g)]. *)
Definition to_list {Y} (g : gen Y) : proc (list Y) :=
  for_each g (fun acc y => ret (acc ++ [y])) [].

(** A consumer that asks for at most [n] values and then closes the
    generator: the values it got, how the iteration ended if it ended
    before, and the trace. *)
Fixpoint take {Y} (n : nat) (o : genobj Y) (tr : list event)
  : list Y * option (outcome Y) * list event :=
  match n with
  | O => let '(_, tr') := close o tr in ([], None, tr')
  | S n' =>
      match next o tr with
      | (Yielded y, o', tr') =>
          let '(ys, r, tr'') := take n' o' tr' in (y :: ys, r, tr'')
      | (r, _, tr') => ([], Some r, tr')
      end
  end.

(** The three projections of a complete run. *)
Fixpoint yields {Y} (g : gen Y) : list Y :=
  match g with
  | Emit _ k => yields k
  | Yield y _ k => y :: yields k
  | Return | Raise _ => []
  end.

Fixpoint effects {Y} (g : gen Y) : list event :=
  match g with
  | Emit e k => e :: effects k
  | Yield _ _ k => effects k
  | Return | Raise _ => []
  end.

Fixpoint final {Y} (g : gen Y) : result unit :=
  match g with
  | Emit _ k | Yield _ _ k => final k
  | Return => Ok tt
  | Raise e => Err e
  end.

(** Counting acquisitions and releases in a trace. *)
Definition is_acquire (e : event) : bool :=
  match e with Acquire _ => true | _ => false end.
Definition is_release (e : event) : bool :=
  match e with Release _ => true | _ => false end.

Definition acquisitions (tr : list event) : nat := length (filter is_acquire tr).
Definition releases (tr : list event) : nat := length (filter is_release tr).

Definition stdout (tr : list event) : list line :=
  flat_map (fun e => match e with Stdout l => [l] | _ => [] end) tr.

Definition executed (tr : list event) : list query :=
  flat_map (fun e => match e with Execute q => [q] | _ => [] end) tr.

End Gen.

Import Gen.

(* ===================================================================== *)
(** * The connector, as the repository calls it *)
(* ===================================================================== *)

(** [mysql.connector.connect(...)]. *)
Definition connect (db : store) : proc resource :=
  match connect_error db with
  | Some errno => raise (StoreError errno)
  | None => emit (Acquire Connection) ;;; ret Connection
  end.

(** [connection.cursor(...)]. *)
Definition cursor (db : store) (connection : resource) : proc resource :=
  match cursor_error db with
  | Some errno => raise (StoreError errno)
  | None => emit (Acquire Cursor) ;;; ret Cursor
  end.

(** [cursor.execute(q)]: the value is what the cursor will deliver. *)
Definition execute (db : store) (q : query) : proc (list record * option Z) :=
  match execute_error db with
  | Some errno => raise (StoreError errno)
  | None =>
      emit (Execute q) ;;;
      match result_set db q with
      | Ok rows => ret (delivered db rows)
      | Err e => raise e
      end
  end.

(** [cursor.fetchall()]. *)
Definition fetchall (pending : list record * option Z) : proc (list record) :=
  match pending with
  | (rows, None) => ret rows
  | (_, Some errno) => raise (StoreError errno)
  end.

(** [r.close()]. *)
Definition close_resource (r : resource) : proc unit := emit (Release r).

(** [x.cursor()] and [x.close()] where [x] may be [None]. *)
Definition cursor_of (db : store) (x : option resource) : proc resource :=
  match x with
  | Some connection => cursor db connection
  | None => raise AttributeError
  end.

Definition close_of (x : option resource) : proc unit :=
  match x with
  | Some connection => close_resource connection
  | None => raise AttributeError
  end.

(** A call made inside [try: ... finally: fin]: if it raises, [fin] runs
    before the exception leaves. *)
Definition try_call {A Y} (c : proc A) (fin : list event) (k : A -> gen Y)
  : gen Y :=
  match c with
  | (evs, Ok a) => emits evs (k a)
  | (evs, Err e) => emits evs (emits fin (Raise e))
  end.

(* ===================================================================== *)
(** * seed.py *)
(* ===================================================================== *)

(** [connect_to_prodev()]: the connection, or [None] after printing the
    error. *)
Definition connect_to_prodev (db : store) : proc (option resource) :=
  match connect db with
  | (evs, Ok conn) => (evs, Ok (Some conn))
  | (evs, Err (StoreError errno)) =>
      (evs ++ [Stdout (ConnectFailure errno)], Ok None)
  | (evs, Err e) => (evs, Err e)
  end.

(** The loop of [stream_user_data], inside its [try]: rows are yielded as
    they come; an [Error] is printed; [finally] closes the cursor. *)
Fixpoint stream_user_data_rows (rows : list record) (err : option Z)
  : gen record :=
  match rows with
  | row :: rest => Yield row [Release Cursor] (stream_user_data_rows rest err)
  | [] =>
      match err with
      | Some errno => Emit (Stdout (StreamFailure errno)) (Emit (Release Cursor) Return)
      | None => Emit (Release Cursor) Return
      end
  end.

Definition stream_user_data_body (db : store) (connection : resource)
  : gen record :=
  call (cursor db connection) (fun _ =>
    match execute db SelectUsers with
    | (evs, Ok (rows, err)) => emits evs (stream_user_data_rows rows err)
    | (evs, Err (StoreError errno)) =>
        emits evs (Emit (Stdout (StreamFailure errno)) (Emit (Release Cursor) Return))
    | (evs, Err e) => emits evs (Emit (Release Cursor) (Raise e))
    end).

Definition stream_user_data (db : store) (connection : resource)
  : proc (genobj record) :=
  generator (stream_user_data_body db connection).

(* ===================================================================== *)
(** * 0-stream_users.py *)
(* ===================================================================== *)

(** [_connect_to_prodev()]: the connection, or the error. *)
Definition _connect_to_prodev (db : store) : proc resource := connect db.

(** [try: row["age"] = int(row["age"]) except Exception: pass]. *)
Definition normalize_age (row : record) : record :=
  match int (age row) with
  | Ok z => set_age row (VInt z)
  | Err _ => row
  end.

(** The [finally] block, for the values [conn] and [cursor] have when it
    runs. *)
Definition stream_users_finally (conn cursor : option resource) : list event :=
  match cursor with Some c => [Release c] | None => [] end
  ++ match conn with Some c => [Release c] | None => [] end.

(** [for row in cursor: ...; yield row], and what follows the loop. *)
Fixpoint stream_users_rows (conn cursor : resource)
    (rows : list record) (err : option Z) : gen record :=
  let fin := stream_users_finally (Some conn) (Some cursor) in
  match rows with
  | row :: rest =>
      Yield (normalize_age row) fin (stream_users_rows conn cursor rest err)
  | [] =>
      match err with
      | Some errno => emits fin (Raise (StoreError errno))
      | None => emits fin Return
      end
  end.

Definition stream_users_body (db : store) : gen record :=
  try_call (_connect_to_prodev db) (stream_users_finally None None)
    (fun conn =>
  try_call (cursor db conn) (stream_users_finally (Some conn) None)
    (fun cursor =>
  try_call (execute db SelectUsers)
    (stream_users_finally (Some conn) (Some cursor))
    (fun '(rows, err) => stream_users_rows conn cursor rows err))).

Definition stream_users (db : store) : proc (genobj record) :=
  generator (stream_users_body db).

(* ===================================================================== *)
(** * 1-batch_processing.py *)
(* ===================================================================== *)

(** [for user in ...: batch.append(user); if len(batch) >= batch_size:
    yield batch; batch = []], then [if batch: yield batch].  The function
    has no [finally] of its own: closing it while it is suspended runs
    nothing of it, and leaves the generator it iterates over to the
    garbage collector. *)
Fixpoint batches (batch_size : Z) (batch : list record) (users : gen record)
  : gen (list record) :=
  match users with
  | Emit e k => Emit e (batches batch_size batch k)
  | Yield user _ k =>
      let batch := batch ++ [user] in
      if Z.of_nat (length batch) >=? batch_size
      then Yield batch [] (batches batch_size [] k)
      else batches batch_size batch k
  | Return =>
      match batch with
      | [] => Return
      | _ :: _ => Yield batch [] Return
      end
  | Raise e => Raise e
  end.

Definition stream_users_in_batches_body (db : store) (batch_size : Z)
  : gen (list record) :=
  if batch_size <=? 0 then Raise ValueError
  else batches batch_size [] (iterate (stream_users db)).

Definition stream_users_in_batches (db : store) (batch_size : Z)
  : proc (genobj (list record)) :=
  generator (stream_users_in_batches_body db batch_size).

(** [(isinstance(a, int) and a > 25) or
     (not isinstance(a, int) and int(float(a)) > 25)] with
    [a = u.get("age")]. *)
Definition over_25 (u : record) : result bool :=
  let a := age u in
  if isinstance_int a && (int_value a >? 25) then Ok true
  else if negb (isinstance_int a) then
    match float a with
    | Ok f =>
        match int (VFloat f) with
        | Ok z => Ok (z >? 25)
        | Err e => Err e
        end
    | Err e => Err e
    end
  else Ok false.

(** [[u for u in batch if ...]]. *)
Fixpoint filtered (batch : list record) : result (list record) :=
  match batch with
  | [] => Ok []
  | u :: rest =>
      match over_25 u with
      | Ok keep =>
          match filtered rest with
          | Ok l => Ok (if keep then u :: l else l)
          | Err e => Err e
          end
      | Err e => Err e
      end
  end.

(** [for user in filtered: print(user); print()]. *)
Fixpoint print_users (users : list record) : proc unit :=
  match users with
  | [] => ret tt
  | user :: rest =>
      emit (Stdout (Row user)) ;;; emit (Stdout Blank) ;;; print_users rest
  end.

(** The body of the loop over the batches. *)
Definition process_batch (batch : list record) : proc unit :=
  users <- ([], filtered batch) ;; print_users users.

Definition batch_processing (db : store) (batch_size : Z) : proc unit :=
  for_each (iterate (stream_users_in_batches db batch_size))
           (fun _ batch => process_batch batch) tt.

(* ===================================================================== *)
(** * 2-lazy_paginate.py *)
(* ===================================================================== *)

Definition paginate_users (db : store) (page_size offset : Z)
  : proc (list record) :=
  connection <- connect_to_prodev db ;;
  cursor <- cursor_of db connection ;;
  pending <- execute db (SelectPage page_size offset) ;;
  rows <- fetchall pending ;;
  close_resource cursor ;;;
  close_of connection ;;;
  ret rows.

Definition inspect {A} (a : A) : {b : A | a = b} := exist _ a eq_refl.

#[local] Unset Equations With Funext.

(** [while True: page = paginate_users(page_size, offset); if not page:
    break; yield page; offset += page_size].  The loop goes round again
    only after a page that is not empty, which starts inside the table:
    the rows from [offset] on get fewer each time. *)
Equations? lazy_pagination_loop (db : store) (page_size offset : Z)
  : gen (list record)
  by wf (Z.to_nat (Z.of_nat (length (table db)) - offset)) lt :=
  lazy_pagination_loop db page_size offset
    with inspect (paginate_users db page_size offset) := {
    | exist _ (evs, Err e) _ => emits evs (Raise e)
    | exist _ (evs, Ok []) _ => emits evs Return
    | exist _ (evs, Ok (r :: page)) _ =>
        emits evs
          (Yield (r :: page) []
             (lazy_pagination_loop db page_size (offset + page_size))) }.
Proof.
  clear lazy_pagination_loop.
  assert (Hpage : exists rows,
             result_set db (SelectPage page_size offset) = Ok rows
             /\ rows <> []).
  { unfold paginate_users, connect_to_prodev, connect, cursor_of, cursor,
      execute, delivered, fetchall in e.
    destruct (connect_error db); [discriminate e |].
    destruct (cursor_error db); [discriminate e |].
    destruct (execute_error db); [discriminate e |].
    destruct (result_set db (SelectPage page_size offset)) as [rows | x];
      [| discriminate e].
    exists rows; split; [reflexivity |].
    destruct (fetch_error db) as [[n errno] |];
      [destruct (n <=? length rows)%nat; [discriminate e |] |];
      cbn in e; intros ->; discriminate e. }
  destruct Hpage as (rows & Hrows & Hne).
  unfold result_set in Hrows.
  destruct (page_size <? 0) eqn:Hp; [discriminate Hrows |].
  destruct (offset <? 0) eqn:Ho; [discriminate Hrows |].
  cbn in Hrows. injection Hrows as <-.
  apply Z.ltb_ge in Hp, Ho.
  assert (Hps : page_size <> 0).
  { intros ->. apply Hne. reflexivity. }
  assert (Hoff : (Z.to_nat offset < length (table db))%nat).
  { destruct (Nat.lt_ge_cases (Z.to_nat offset) (length (table db)))
      as [Hlt | Hge]; [exact Hlt |].
    exfalso. apply Hne. rewrite skipn_all2 by exact Hge.
    apply firstn_nil. }
  lia.
Qed.

Definition lazy_pagination_body (db : store) (page_size : Z)
  : gen (list record) :=
  lazy_pagination_loop db page_size 0.

Definition lazy_pagination (db : store) (page_size : Z)
  : proc (genobj (list record)) :=
  generator (lazy_pagination_body db page_size).

(* ===================================================================== *)
(** * 4-stream_ages.py *)
(* ===================================================================== *)

(** [for (age,) in cursor: yield int(age)], then the two [close()] calls.
    No [try] encloses the [yield]. *)
Fixpoint stream_user_ages_rows (connection : option resource)
    (cursor : resource) (rows : list record) (err : option Z) : gen Z :=
  match rows with
  | row :: rest =>
      match int (age row) with
      | Ok z => Yield z [] (stream_user_ages_rows connection cursor rest err)
      | Err e => Raise e
      end
  | [] =>
      match err with
      | Some errno => Raise (StoreError errno)
      | None =>
          call (close_resource cursor) (fun _ =>
          call (close_of connection) (fun _ => Return))
      end
  end.

Definition stream_user_ages_body (db : store) : gen Z :=
  call (connect_to_prodev db) (fun connection =>
  call (cursor_of db connection) (fun cursor =>
  call (execute db SelectAges) (fun '(rows, err) =>
  stream_user_ages_rows connection cursor rows err))).

Definition stream_user_ages (db : store) : proc (genobj Z) :=
  generator (stream_user_ages_body db).

Definition compute_average_age (db : store) : proc unit :=
  '(total_age, count) <-
    for_each (iterate (stream_user_ages db))
             (fun '(total_age, count) age => ret (total_age + age, count + 1))
             (0, 0) ;;
  if count =? 0 then emit (Stdout (Text "No user data found."))
  else
    avg_age <- ([], truediv total_age count) ;;
    emit (Stdout (Text ("Average age of users: " ++ format_2f avg_age))).

(* ===================================================================== *)
(** * seed.py: [insert_data] *)
(* ===================================================================== *)

Module Seeding.

(** [str.isspace] on ASCII, the characters [str.strip()] removes. *)
Definition isspace (c : ascii) : bool :=
  let n := nat_of_ascii c in
  ((9 <=? n)%nat && (n <=? 13)%nat) || ((28 <=? n)%nat && (n <=? 32)%nat).

Fixpoint lstrip_spaces (l : list ascii) : list ascii :=
  match l with
  | c :: l' => if isspace c then lstrip_spaces l' else l
  | [] => []
  end.

(** [s.strip()]. *)
Definition str_strip (s : string) : string :=
  string_of_list_ascii
    (rev (lstrip_spaces (rev (lstrip_spaces (list_ascii_of_string s))))).

(** A row as [csv.DictReader] hands it out, for a header that has the
    three columns: what [row.get("name")], [row.get("email")] and
    [row.get("age")] return ([None] for a row that is too short). *)
Record csv_row : Type := {
  row_name : option string;
  row_email : option string;
  row_age : option string
}.

(** The file once opened: the header ([None] for an empty file), the rows
    read before the end, and whether reading stops with an exception
    (an encoding or CSV error) instead of the end of the file. *)
Record csv_file : Type := {
  fieldnames : option (list string);
  csv_rows : list csv_row;
  csv_broken : bool
}.

(** The parameters of one [INSERT]: [(user_id, name, email, age_val)]. *)
Record insertion : Type := {
  new_id : string;
  new_name : string;
  new_email : string;
  new_age : Z
}.

(** How the server answers an [INSERT]: it takes the row, it raises
    [IntegrityError], or it raises another [mysql.connector.Error]. *)
Inductive answer : Type :=
| Accepted
| IntegrityError
| OtherError (errno : Z).

(** What surrounds one call of [insert_data]: whether the path exists,
    the file behind it ([None] when opening it or reading its header
    raises), whether [connection.cursor()] and [connection.commit()] raise,
    how the server answers an [INSERT] given the rows it has taken so far
    in this transaction, and the values [uuid.uuid4()] returns, in order. *)
Record setting : Type := {
  path_exists : bool;
  contents : option csv_file;
  cursor_failure : option Z;
  server : list insertion -> insertion -> answer;
  commit_failure : option Z;
  uuid4 : nat -> string
}.

Inductive message : Type :=
| InsertedRows (n : nat)      (* Inserted n new rows from ... *)
| MySQLError (errno : Z)      (* [insert_data] MySQL error: ... *)
| OtherFailure.               (* [insert_data] Error: ... *)

Inductive action : Type :=
| OpenCursor
| Insert (u : insertion) (a : answer)
| Commit
| CloseCursor
| Say (m : message).

(** How the loop over the rows ends. *)
Inductive loop_end : Type :=
| AllRead (inserted : nat)
| ServerStopped (errno : Z)
| ReaderStopped.

Inductive outcome : Type :=
| Returns
| RaisesFileNotFoundError.

(** [(row.get(key) or "").strip()]. *)
Definition field (v : option string) : string :=
  str_strip (match v with Some s => s | None => EmptyString end).

(** [try: age_val = int(float(age_raw)) except Exception: age_val = 0]. *)
Definition age_val (age_raw : string) : Z :=
  match float (VStr age_raw) with
  | Ok f => match int (VFloat f) with Ok z => z | Err _ => 0 end
  | Err _ => 0
  end.

(** [for row in reader: ...]: [taken] are the rows the server has taken so
    far, [drawn] the number of identifiers drawn, [inserted] the counter of
    the function. *)
Fixpoint insert_rows (env : setting) (broken : bool) (rows : list csv_row)
    (taken : list insertion) (drawn inserted : nat)
  : list action * loop_end :=
  match rows with
  | [] => ([], if broken then ReaderStopped else AllRead inserted)
  | row :: rest =>
      let name := field (row_name row) in
      let email := field (row_email row) in
      let age_raw := field (row_age row) in
      if String.eqb email EmptyString
      then insert_rows env broken rest taken drawn inserted
      else
        let u := {| new_id := uuid4 env drawn; new_name := name;
                    new_email := email; new_age := age_val age_raw |} in
        match server env taken u with
        | Accepted =>
            let '(acts, e) :=
              insert_rows env broken rest (taken ++ [u]) (S drawn) (S inserted)
            in (Insert u Accepted :: acts, e)
        | IntegrityError =>
            let '(acts, e) :=
              insert_rows env broken rest taken (S drawn) inserted
            in (Insert u IntegrityError :: acts, e)
        | OtherError errno =>
            ([Insert u (OtherError errno)], ServerStopped errno)
        end
  end.

(** [required_fields.issubset(set(reader.fieldnames or []))]. *)
Definition has_required (names : option (list string)) : bool :=
  let l := match names with Some l => l | None => [] end in
  forallb (fun k => existsb (String.eqb k) l)
          ["name"%string; "email"%string; "age"%string].

Definition insert_data (env : setting) : list action * outcome :=
  if negb (path_exists env) then ([], RaisesFileNotFoundError)
  else
    match contents env with
    | None => ([Say OtherFailure], Returns)
    | Some f =>
        if negb (has_required (fieldnames f)) then ([Say OtherFailure], Returns)
        else
          match cursor_failure env with
          | Some errno => ([Say (MySQLError errno)], Returns)
          | None =>
              let '(acts, e) :=
                insert_rows env (csv_broken f) (csv_rows f) [] 0 0 in
              (OpenCursor :: acts
               ++ match e with
                  | AllRead inserted =>
                      match commit_failure env with
                      | Some errno => [Say (MySQLError errno)]
                      | None => [Commit; Say (InsertedRows inserted)]
                      end
                  | ServerStopped errno => [Say (MySQLError errno)]
                  | ReaderStopped => [Say OtherFailure]
                  end
               ++ [CloseCursor], Returns)
          end
    end.

(** The rows of the file that have an email, cleaned, in order. *)
Definition candidates (rows : list csv_row) : list (string * string * Z) :=
  flat_map (fun row =>
              if String.eqb (field (row_email row)) EmptyString then []
              else [(field (row_name row), field (row_email row),
                     age_val (field (row_age row)))])
           rows.

(** The [INSERT] for the [i]-th candidate and the identifiers that follow
    [drawn]. *)
Fixpoint numbered (env : setting) (drawn : nat)
    (l : list (string * string * Z)) : list insertion :=
  match l with
  | [] => []
  | (name, email, a) :: l' =>
      {| new_id := uuid4 env drawn; new_name := name; new_email := email;
         new_age := a |} :: numbered env (S drawn) l'
  end.

(** The rows [insert_data] reads. *)
Definition file_rows (env : setting) : list csv_row :=
  match contents env with
  | Some f => csv_rows f
  | None => []
  end.

(** The statements of a run, and those the server took. *)
Definition sent (acts : list action) : list insertion :=
  flat_map (fun a => match a with Insert u _ => [u] | _ => [] end) acts.

Definition taken_rows (acts : list action) : list insertion :=
  flat_map (fun a => match a with Insert u Accepted => [u] | _ => [] end) acts.

(** The lines a run has printed. *)
Definition said (acts : list action) : list message :=
  flat_map (fun a => match a with Say m => [m] | _ => [] end) acts.

Definition count (a : action -> bool) (acts : list action) : nat :=
  length (filter a acts).

Definition is_insert (a : action) : bool :=
  match a with Insert _ _ => true | _ => false end.
Definition is_refusal (a : action) : bool :=
  match a with Insert _ (OtherError _) => true | _ => false end.
Definition is_open (a : action) : bool :=
  match a with OpenCursor => true | _ => false end.
Definition is_close (a : action) : bool :=
  match a with CloseCursor => true | _ => false end.
Definition is_commit (a : action) : bool :=
  match a with Commit => true | _ => false end.

(** A server that takes every row. *)
Definition welcoming (ids : nat -> string) (f : csv_file) : setting :=
  {| path_exists := true; contents := Some f; cursor_failure := None;
     server := fun _ _ => Accepted; commit_failure := None; uuid4 := ids |}.

(** A server whose only constraint is the unique key on the email: the
    table holds the emails [before], and [same] is the comparison of the
    column's collation. *)
Definition unique_emails (same : string -> string -> bool)
    (before : list string) (ids : nat -> string) (f : csv_file) : setting :=
  {| path_exists := true; contents := Some f; cursor_failure := None;
     server := fun taken u =>
       if existsb (same (new_email u)) (before ++ map new_email taken)
       then IntegrityError else Accepted;
     commit_failure := None; uuid4 := ids |}.

End Seeding.

(* ===================================================================== *)
(** * Vocabulary of the properties *)
(* ===================================================================== *)

(** The error a session that reads the whole table runs into, if any. *)
Definition store_failure (db : store) : option Z :=
  match connect_error db, cursor_error db, execute_error db with
  | Some errno, _, _ => Some errno
  | None, Some errno, _ => Some errno
  | None, None, Some errno => Some errno
  | None, None, None => snd (delivered db (table db))
  end.

(** The rows [LIMIT page_size OFFSET i * page_size] selects. *)
Definition page_at (rows : list record) (page_size : Z) (i : nat)
  : list record :=
  firstn (Z.to_nat page_size) (skipn (Z.to_nat (Z.of_nat i * page_size)) rows).

(** What the [i]-th call of [paginate_users] does to a store that does not
    fail. *)
Definition fetch_events (page_size : Z) (i : nat) : list event :=
  [Acquire Connection; Acquire Cursor;
   Execute (SelectPage page_size (Z.of_nat i * page_size));
   Release Cursor; Release Connection].

(** The age a record is compared by: the [int] itself, or the [int] of
    the [float] of anything else; none when that conversion fails. *)
Definition compared_age (u : record) : option Z :=
  if isinstance_int (age u) then Some (int_value (age u))
  else
    match float (age u) with
    | Ok f => match int (VFloat f) with Ok z => Some z | Err _ => None end
    | Err _ => None
    end.

Definition exceeds_25 (u : record) : bool :=
  match compared_age u with
  | Some z => 25 <? z
  | None => false
  end.

(** The exception the comparison of a record's age raises: none for an
    [int], else the one [float(age)] raises or, when [float] succeeds, the
    one [int] raises on that float. *)
Definition conversion_error (u : record) : option exn :=
  if isinstance_int (age u) then None
  else
    match float (age u) with
    | Ok f => match int (VFloat f) with Ok _ => None | Err e => Some e end
    | Err e => Some e
    end.

(** The sum of a list of ages. *)
Definition total (ages : list Z) : Z := fold_right Z.add 0 ages.

(** A decimal digit as a character. *)
Definition digit_char (d : Z) : ascii := ascii_of_nat (48 + Z.to_nat d).

(** [h] hundredths in decimal notation with two decimals, after a minus
    sign for a negative number: the integer part, a point, the tenths and
    the hundredths. *)
Definition two_decimals (negative : bool) (h : Z) : string :=
  ((if negative then "-" else "")
   ++ NilZero.string_of_uint (N.to_uint (Z.to_N (h / 100)))
   ++ String "." (String (digit_char (h / 10 mod 10))
                         (String (digit_char (h mod 10)) EmptyString)))%string.

(** [h] hundredths is a multiple of 0.01 nearest to [sum / count]: it is
    at most 0.005 away from it. *)
Definition nearest_hundredths (sum count h : Z) : Prop :=
  2 * Z.abs (100 * sum - h * count) <= count.

(** Where a number lies between two consecutive integers, as the shifts
    of a mantissa record it: [r] stands for a number [N / (2 D)] whose
    integer part is [shr_m r]; [shr_r r] tells whether the number has
    reached the middle of the interval, [shr_s r] whether it lies
    strictly inside one of its halves. *)
Definition locates (N D : Z) (r : shr_record) : Prop :=
  match shr_r r, shr_s r with
  | false, false => N = 2 * D * shr_m r
  | false, true => 2 * D * shr_m r < N < 2 * D * shr_m r + D
  | true, false => N = 2 * D * shr_m r + D
  | true, true => 2 * D * shr_m r + D < N < 2 * D * shr_m r + 2 * D
  end.

(** 30.0, that is [30 * 2^48 * 2^-48]. *)
Definition thirty : spec_float := S754_finite false 8444249301319680 (-48).

(** How an iteration that was asked for [k] values out of [n] has ended:
    not at all when [k <= n], else by the end of the source. *)
Definition ended {Y} (k n : nat) (err : option Z) : option (outcome Y) :=
  if (k <=? n)%nat then None
  else Some match err with
            | Some errno => Raised (StoreError errno)
            | None => StopIteration
            end.

(** The lines [batch_processing] prints for the records [users]. *)
Definition printed (users : list record) : list line :=
  flat_map (fun u => [Row u; Blank]) users.

(** What [stream_user_data] prints when its cursor stops with [err]. *)
Definition reported (err : option Z) : list event :=
  match err with
  | Some errno => [Stdout (StreamFailure errno)]
  | None => []
  end.

(** White space on ASCII text, as [str.strip()] understands it: the
    characters from the tab to the carriage return, the four separators
    and the space. *)
Definition ascii_space (c : ascii) : Prop :=
  In (nat_of_ascii c) [9; 10; 11; 12; 13; 28; 29; 30; 31; 32]%nat.

(** [clean] is [raw] without the white space at its two ends. *)
Definition stripped (raw clean : string) : Prop :=
  exists pre post,
    list_ascii_of_string raw = pre ++ list_ascii_of_string clean ++ post
    /\ Forall ascii_space pre /\ Forall ascii_space post
    /\ (forall c rest,
          list_ascii_of_string clean = c :: rest -> ~ ascii_space c)
    /\ (forall c rest,
          list_ascii_of_string clean = rest ++ [c] -> ~ ascii_space c).

(** A decimal digit, and the number a sequence of digits denotes. *)
Definition decimal_digit (c : ascii) : Prop :=
  (48 <= nat_of_ascii c <= 57)%nat.

Definition decimal_value (ds : list ascii) : Z :=
  fold_left (fun acc c => 10 * acc + (Z.of_nat (nat_of_ascii c) - 48)) ds 0.

(** The text of a cell: [row.get(key) or ""]. *)
Definition cell (v : option string) : string :=
  match v with Some s => s | None => EmptyString end.

(** ** Sample stores *)

Definition user_aged (a : pyval) : record :=
  {| user_id := VStr "3f1c"; name := VStr "Ada"; email := VStr "ada@example.org";
     age := a |}.

(** The server refuses the connection (2003). *)
Definition refusing (rows : list record) : store :=
  {| connect_error := Some 2003; cursor_error := None; execute_error := None;
     fetch_error := None; table := rows |}.

(** The server rejects the statement (1146). *)
Definition rejecting (rows : list record) : store :=
  {| connect_error := None; cursor_error := None; execute_error := Some 1146;
     fetch_error := None; table := rows |}.

(** The connection is lost after [n] rows (2013). *)
Definition dropping (n : nat) (rows : list record) : store :=
  {| connect_error := None; cursor_error := None; execute_error := None;
     fetch_error := Some (n, 2013); table := rows |}.

(* ===================================================================== *)
(** * The builtins on sample values *)
(* ===================================================================== *)

Example int_of_padded_text : int (VStr "  -1_000 ") = Ok (-1000).
Proof. reflexivity. Qed.

Example int_of_fraction_text : int (VStr "30.5") = Err ValueError.
Proof. reflexivity. Qed.

Example int_of_decimal : int (VDecimal (-305) (-1)) = Ok (-30).
Proof. reflexivity. Qed.

Example int_of_none : int VNone = Err TypeError.
Proof. reflexivity. Qed.

(** 0.1 is [0x1.999999999999ap-4]. *)
Example float_of_tenth :
  float (VStr "0.1") = Ok (S754_finite false 7205759403792794 (-56)).
Proof. reflexivity. Qed.

Example float_of_exponent_text : float (VStr "3E1") = Ok thirty.
Proof. reflexivity. Qed.

Example float_of_huge_text : float (VStr "1e400") = Ok (S754_infinity false).
Proof. reflexivity. Qed.

(** Twenty nines after the point round to 26.0, and then to 26. *)
Example float_of_long_text :
  float (VStr "25.99999999999999999999")
  = Ok (S754_finite false 7318349394477056 (-48))
  /\ int (VFloat (S754_finite false 7318349394477056 (-48))) = Ok 26.
Proof. split; reflexivity. Qed.

Example int_of_negative_float :
  float (VStr "-26.7") = Ok (S754_finite true 7515381878174515 (-48))
  /\ int (VFloat (S754_finite true 7515381878174515 (-48))) = Ok (-26).
Proof. split; reflexivity. Qed.

Example int_of_infinity : int (VFloat (S754_infinity false)) = Err OverflowError.
Proof. reflexivity. Qed.

Example format_third :
  truediv 1 3 = Ok (S754_finite false 6004799503160661 (-54))
  /\ format_2f (S754_finite false 6004799503160661 (-54)) = "0.33"%string.
Proof. split; reflexivity. Qed.

(** 0.125 is halfway between 0.12 and 0.13; 1/200 is stored a little
    above 0.005. *)
Example format_ties :
  (forall f, truediv 1 8 = Ok f -> format_2f f = "0.12"%string)
  /\ (forall f, truediv 1 200 = Ok f -> format_2f f = "0.01"%string)
  /\ (forall f, truediv (-1) 1000 = Ok f -> format_2f f = "-0.00"%string).
Proof. repeat split; intros f [= <-]; reflexivity. Qed.

Example truediv_by_zero : truediv 75 0 = Err ZeroDivisionError.
Proof. reflexivity. Qed.

(* ===================================================================== *)
(** * Complete runs *)
(* ===================================================================== *)

Section Runs.
Context {Y : Type}.

Lemma yields_emits (evs : list event) (k : gen Y) :
  yields (emits evs k) = yields k.
Proof. induction evs as [| e evs IH]; simpl; auto. Qed.

Lemma effects_emits (evs : list event) (k : gen Y) :
  effects (emits evs k) = evs ++ effects k.
Proof. induction evs as [| e evs IH]; simpl; congruence. Qed.

Lemma final_emits (evs : list event) (k : gen Y) :
  final (emits evs k) = final k.
Proof. induction evs as [| e evs IH]; simpl; auto. Qed.

Lemma resume_emits (evs : list event) (k : gen Y) (tr : list event) :
  resume (emits evs k) tr = resume k (tr ++ evs).
Proof.
  revert tr; induction evs as [| e evs IH]; intros tr; simpl.
  - now rewrite app_nil_r.
  - rewrite IH, <- app_assoc. reflexivity.
Qed.

Lemma take_emits (n : nat) (evs c : list event) (k : gen Y)
    (tr : list event) :
  take (S n) (Created (emits evs k)) tr
  = take (S n) (Suspended c k) (tr ++ evs).
Proof. simpl. now rewrite resume_emits. Qed.

(** A [for] loop that only collects sees the three projections. *)
Lemma for_each_collect (g : gen Y) (acc : list Y) :
  for_each g (fun acc y => ret (acc ++ [y])) acc
  = (effects g,
     match final g with
     | Ok _ => Ok (acc ++ yields g)
     | Err e => Err e
     end).
Proof.
  revert acc; induction g as [e k IH | y c k IH | | e]; intros acc; simpl.
  - rewrite IH. destruct (final k); reflexivity.
  - rewrite IH. destruct (final k); [rewrite <- app_assoc |]; reflexivity.
  - now rewrite app_nil_r.
  - reflexivity.
Qed.

Lemma to_list_run (g : gen Y) :
  to_list g
  = (effects g, match final g with Ok _ => Ok (yields g) | Err e => Err e end).
Proof. unfold to_list. now rewrite for_each_collect. Qed.

Lemma to_list_ok (g : gen Y) (tr : list event) (ys : list Y) :
  to_list g = (tr, Ok ys) <-> effects g = tr /\ final g = Ok tt /\ yields g = ys.
Proof.
  rewrite to_list_run. destruct (final g) as [[] | e]; split.
  - intros H; inversion H; auto.
  - intros (-> & _ & ->); reflexivity.
  - discriminate.
  - intros (_ & H & _); discriminate H.
Qed.

Lemma to_list_err (g : gen Y) (tr : list event) (e : exn) :
  to_list g = (tr, Err e) <-> effects g = tr /\ final g = Err e.
Proof.
  rewrite to_list_run. destruct (final g) as [[] | e']; split.
  - discriminate.
  - intros (_ & H); discriminate H.
  - intros H; inversion H; auto.
  - intros (-> & H); inversion H; reflexivity.
Qed.
End Runs.

Create Rewrite HintDb runs.
#[global] Hint Rewrite @yields_emits @effects_emits @final_emits : runs.

(* ===================================================================== *)
(** * Batches *)
(* ===================================================================== *)

Section Batches.
Variable batch_size : Z.

(** The loop passes the effects and the end of its source through. *)
Lemma batches_effects (users : gen record) (batch : list record) :
  effects (batches batch_size batch users) = effects users.
Proof.
  revert batch; induction users as [e k IH | y c k IH | | e];
    intros batch; simpl.
  - now rewrite IH.
  - destruct (_ >=? _); simpl; apply IH.
  - destruct batch; reflexivity.
  - reflexivity.
Qed.

Lemma batches_final (users : gen record) (batch : list record) :
  final (batches batch_size batch users) = final users.
Proof.
  revert batch; induction users as [e k IH | y c k IH | | e];
    intros batch; simpl.
  - apply IH.
  - destruct (_ >=? _); simpl; apply IH.
  - destruct batch; reflexivity.
  - reflexivity.
Qed.

(** Nothing is lost or reordered when the source ends normally. *)
Lemma batches_concat (users : gen record) (batch : list record) :
  final users = Ok tt ->
  concat (yields (batches batch_size batch users)) = batch ++ yields users.
Proof.
  revert batch; induction users as [e k IH | y c k IH | | e];
    intros batch Hend; simpl in *.
  - now apply IH.
  - destruct (_ >=? _); simpl; rewrite IH by assumption.
    + now rewrite <- app_assoc.
    + now rewrite <- app_assoc.
  - destruct batch; simpl; now rewrite ?app_nil_r.
  - discriminate Hend.
Qed.

Lemma batches_nonempty (users : gen record) (batch : list record) :
  Forall (fun b => b <> []) (yields (batches batch_size batch users)).
Proof.
  revert batch; induction users as [e k IH | y c k IH | | e];
    intros batch; simpl.
  - apply IH.
  - destruct (_ >=? _); simpl; [constructor |]; try apply IH.
    intros H; now apply app_eq_nil in H as [_ H].
  - destruct batch; simpl; constructor; [discriminate | constructor].
  - constructor.
Qed.

(** While the buffer is short of [batch_size], every batch but the last
    one comes out with exactly [batch_size] records. *)
Lemma batches_full (users : gen record) (batch : list record) :
  Z.of_nat (length batch) < batch_size ->
  Forall (fun b => Z.of_nat (length b) = batch_size)
         (removelast (yields (batches batch_size batch users))).
Proof.
  revert batch; induction users as [e k IH | y c k IH | | e];
    intros batch Hshort; simpl.
  - now apply IH.
  - destruct (_ >=? _) eqn:Hfull.
    + assert (Hlen : Z.of_nat (length (batch ++ [y])) = batch_size).
      { apply Z.geb_le in Hfull. rewrite length_app in *. simpl in *. lia. }
      assert (Hrest := IH [] ltac:(simpl; rewrite length_app in Hlen; simpl in Hlen; lia)).
      cbn [yields]. remember (yields (batches batch_size [] k)) as rest.
      destruct rest as [| b rest]; [constructor |].
      change (removelast ((batch ++ [y]) :: b :: rest))
        with ((batch ++ [y]) :: removelast (b :: rest)).
      constructor; assumption.
    + apply IH. rewrite Z.geb_leb in Hfull. apply Z.leb_gt in Hfull. exact Hfull.
  - destruct batch; simpl; constructor.
  - constructor.
Qed.
(** No batch is empty and none is longer than [batch_size]. *)
Lemma batches_bounded (users : gen record) (batch : list record) :
  Z.of_nat (length batch) < batch_size ->
  Forall (fun b => 1 <= Z.of_nat (length b) <= batch_size)
         (yields (batches batch_size batch users)).
Proof.
  revert batch; induction users as [e k IH | y c k IH | | e];
    intros batch Hshort; simpl.
  - now apply IH.
  - destruct (_ >=? _) eqn:Hfull.
    + cbn [yields]. constructor; [| apply IH; simpl; lia].
      rewrite length_app. simpl. lia.
    + rewrite Z.geb_leb in Hfull. apply Z.leb_gt in Hfull. now apply IH.
  - destruct batch; simpl; constructor; [| constructor].
    cbn [length] in *. lia.
  - constructor.
Qed.

End Batches.

(** ** C1 *)

(** C1.  For a positive [batch_size] and a run of [stream_users] that
    produces the records [users] and ends normally, iterating
    [stream_users_in_batches(batch_size)] ends normally too; the batches it
    yields, put end to end, are [users]; every batch but the last has
    exactly [batch_size] records; no batch is empty, and no batch, the
    last included, has more than [batch_size] records. *)
Theorem stream_users_in_batches_partition
    (db : store) (batch_size : Z) (tr : list event) (users : list record) :
  0 < batch_size ->
  to_list (iterate (stream_users db)) = (tr, Ok users) ->
  exists batches,
    to_list (iterate (stream_users_in_batches db batch_size)) = (tr, Ok batches)
    /\ concat batches = users
    /\ Forall (fun b => Z.of_nat (length b) = batch_size) (removelast batches)
    /\ Forall (fun b => b <> []) batches
    /\ Forall (fun b => Z.of_nat (length b) <= batch_size) batches.
Proof.
  intros Hpos Hup.
  apply to_list_ok in Hup as (Heff & Hfin & Hys).
  unfold stream_users_in_batches, generator, ret, stream_users_in_batches_body.
  destruct (Z.leb_spec batch_size 0) as [Hle | _]; [lia |].
  cbn [iterate call emits].
  eexists; split; [apply to_list_ok; split; [| split; [| reflexivity]] |].
  - rewrite batches_effects. exact Heff.
  - rewrite batches_final. exact Hfin.
  - split; [| split; [| split]].
    + rewrite batches_concat by exact Hfin. exact Hys.
    + apply batches_full. simpl. exact Hpos.
    + apply batches_nonempty.
    + eapply Forall_impl; [| apply batches_bounded; simpl; exact Hpos].
      intros b Hb. cbv beta in Hb. lia.
Qed.

(* ===================================================================== *)
(** * Pages *)
(* ===================================================================== *)

(** One turn of the loop, as an equation. *)
Lemma lazy_pagination_loop_turn (db : store) (page_size offset : Z) :
  lazy_pagination_loop db page_size offset
  = match paginate_users db page_size offset with
    | (evs, Err e) => emits evs (Raise e)
    | (evs, Ok []) => emits evs Return
    | (evs, Ok page) =>
        emits evs
          (Yield page []
             (lazy_pagination_loop db page_size (offset + page_size)))
    end.
Proof.
  rewrite lazy_pagination_loop_equation_1.
  generalize (inspect (paginate_users db page_size offset)).
  intros [p Hp].
  transitivity
    (match p with
     | (evs, Err e) => emits evs (Raise e)
     | (evs, Ok []) => emits evs Return
     | (evs, Ok page) =>
         emits evs
           (Yield page []
              (lazy_pagination_loop db page_size (offset + page_size)))
     end).
  - destruct p as [evs [[| r page] | x]]; reflexivity.
  - now rewrite Hp.
Qed.

Section Pages.
Variable rows : list record.
Variable page_size : Z.
Hypothesis page_size_pos : 0 < page_size.

Lemma page_at_result_set (i : nat) :
  result_set (healthy rows) (SelectPage page_size (Z.of_nat i * page_size))
  = Ok (page_at rows page_size i).
Proof.
  unfold result_set, page_at.
  destruct (Z.ltb_spec page_size 0); [lia |].
  destruct (Z.ltb_spec (Z.of_nat i * page_size) 0); [nia |].
  reflexivity.
Qed.

Lemma paginate_users_healthy (i : nat) :
  paginate_users (healthy rows) page_size (Z.of_nat i * page_size)
  = (fetch_events page_size i, Ok (page_at rows page_size i)).
Proof.
  unfold paginate_users, execute. cbn [healthy execute_error].
  rewrite page_at_result_set. reflexivity.
Qed.

Lemma page_at_nonempty (i : nat) :
  page_at rows page_size i <> [] <-> Z.of_nat i * page_size < Z.of_nat (length rows).
Proof.
  unfold page_at. split.
  - intros Hne.
    destruct (Z.lt_ge_cases (Z.of_nat i * page_size) (Z.of_nat (length rows)))
      as [Hlt | Hge]; [exact Hlt |].
    exfalso. apply Hne. rewrite skipn_all2 by lia. apply firstn_nil.
  - intros Hlt Hnil.
    apply (f_equal (@length record)) in Hnil.
    rewrite length_firstn, length_skipn in Hnil. simpl in Hnil. lia.
Qed.

(** A page followed by a page that is not empty is full. *)
Lemma page_at_full (i : nat) :
  page_at rows page_size (S i) <> [] -> Z.of_nat (length (page_at rows page_size i)) = page_size.
Proof.
  rewrite page_at_nonempty. intros Hlt.
  unfold page_at. rewrite length_firstn, length_skipn. nia.
Qed.

(** The loop entered at page [i]: it yields the pages from [i] up to the
    first empty one, which it fetches and does not yield. *)
Lemma lazy_pagination_loop_from (m i : nat) :
  Z.of_nat (length rows) - Z.of_nat i * page_size <= Z.of_nat m ->
  let g := lazy_pagination_loop (healthy rows) page_size
                                (Z.of_nat i * page_size) in
  exists n,
    yields g = map (page_at rows page_size) (seq i n)
    /\ effects g = flat_map (fetch_events page_size) (seq i (S n))
    /\ final g = Ok tt
    /\ (forall j, (i <= j < i + n)%nat -> page_at rows page_size j <> [])
    /\ page_at rows page_size (i + n) = [].
Proof.
  revert i; induction m as [| m IH]; intros i Hm g; subst g;
    rewrite lazy_pagination_loop_turn, paginate_users_healthy;
    destruct (page_at rows page_size i) as [| r page] eqn:Hpage.
  1, 3: exists 0%nat; autorewrite with runs;
    rewrite Nat.add_0_r; simpl; repeat split; auto; intros j Hj; lia.
  - assert (Hne : page_at rows page_size i <> []) by (rewrite Hpage; discriminate).
    apply page_at_nonempty in Hne. lia.
  - assert (Hne : page_at rows page_size i <> []) by (rewrite Hpage; discriminate).
    assert (Hlt := proj1 (page_at_nonempty i) Hne).
    replace (Z.of_nat i * page_size + page_size)
      with (Z.of_nat (S i) * page_size) by lia.
    destruct (IH (S i)) as (n & Hy & He & Hf & Hfull & Hlast); [lia |].
    exists (S n).
    rewrite yields_emits, effects_emits, final_emits.
    cbn [yields effects final]. rewrite Hy, He, Hf, <- Hpage.
    repeat split.
    + intros j Hj. destruct (Nat.eq_dec j i) as [-> | Hji]; [exact Hne |].
      apply Hfull. lia.
    + replace (i + S n)%nat with (S i + n)%nat by lia. exact Hlast.
Qed.

Lemma executed_fetch_events (l : list nat) :
  executed (flat_map (fetch_events page_size) l)
  = map (fun i => SelectPage page_size (Z.of_nat i * page_size)) l.
Proof. induction l as [| i l IH]; simpl; [| rewrite <- IH]; reflexivity. Qed.
End Pages.

(** ** C2 *)

(** C2.  Against a table [rows] and for a positive [page_size], iterating
    [lazy_pagination(page_size)] ends normally after some number [n] of
    pages.  It sends [n + 1] page queries, at the offsets [0], [page_size],
    ..., [n * page_size] in that order; the [n] first pages are not empty
    and are the ones yielded, in that order; the page at [n * page_size]
    is empty and ends the iteration; every yielded page but the last has
    exactly [page_size] rows. *)
Theorem lazy_pagination_pages (rows : list record) (page_size : Z) :
  0 < page_size ->
  exists (n : nat) (tr : list event),
    to_list (iterate (lazy_pagination (healthy rows) page_size))
    = (tr, Ok (map (page_at rows page_size) (seq 0 n)))
    /\ executed tr
       = map (fun i => SelectPage page_size (Z.of_nat i * page_size))
             (seq 0 (S n))
    /\ (forall i, (i < n)%nat -> page_at rows page_size i <> [])
    /\ page_at rows page_size n = []
    /\ Forall (fun page => Z.of_nat (length page) = page_size)
              (removelast (map (page_at rows page_size) (seq 0 n))).
Proof.
  intros Hpos.
  destruct (lazy_pagination_loop_from rows page_size Hpos (length rows) 0)
    as (n & Hy & He & Hf & Hne & Hlast); [lia |].
  exists n, (flat_map (fetch_events page_size) (seq 0 (S n))).
  split; [| split; [| split; [| split]]].
  - apply to_list_ok. unfold lazy_pagination, lazy_pagination_body.
    cbn [iterate generator ret call emits]. auto.
  - apply executed_fetch_events.
  - intros i Hi. apply Hne. lia.
  - exact Hlast.
  - destruct n as [| n]; [constructor |].
    rewrite seq_S, map_app. cbn [map]. rewrite removelast_last.
    apply Forall_forall. intros page Hin.
    apply in_map_iff in Hin as (i & <- & Hi). apply in_seq in Hi.
    apply page_at_full; [exact Hpos |]. apply Hne. lia.
Qed.

(* ===================================================================== *)
(** * Resources and store failures *)
(* ===================================================================== *)

Section StreamUsers.
Variables conn cursor : resource.

Let fin : list event := stream_users_finally (Some conn) (Some cursor).

Lemma stream_users_rows_yields (rows : list record) (err : option Z) :
  yields (stream_users_rows conn cursor rows err) = map normalize_age rows.
Proof.
  induction rows as [| row rows IH]; simpl.
  - destruct err; reflexivity.
  - now rewrite IH.
Qed.

Lemma stream_users_rows_effects (rows : list record) (err : option Z) :
  effects (stream_users_rows conn cursor rows err) = fin.
Proof.
  induction rows as [| row rows IH]; simpl; [destruct err |]; auto.
Qed.

Lemma stream_users_rows_final (rows : list record) (err : option Z) :
  final (stream_users_rows conn cursor rows err)
  = match err with Some errno => Err (StoreError errno) | None => Ok tt end.
Proof.
  induction rows as [| row rows IH]; simpl; [destruct err |]; auto.
Qed.

(** Once the loop is entered, every way out of it (the values run out,
    the cursor fails, the consumer closes the generator) adds the two
    releases to the trace, and nothing else. *)
Lemma stream_users_rows_take (rows : list record) (err : option Z)
    (n : nat) (tr : list event) :
  snd (take n (Suspended fin (stream_users_rows conn cursor rows err)) tr)
  = tr ++ fin.
Proof.
  revert n; induction rows as [| row rows IH]; intros [| n]; simpl; auto.
  - destruct err; simpl; now rewrite <- app_assoc.
  - specialize (IH n). unfold fin in *. simpl in IH.
    destruct (take n _ tr) as [[ys r] tr']. simpl in *. exact IH.
Qed.
End StreamUsers.

(** The stage at which a session stops: the connection, the cursor, the
    statement, or none of them. *)
Ltac session_stages db :=
  destruct (connect_error db) eqn:Hc;
  [| destruct (cursor_error db) eqn:Hk;
     [| destruct (execute_error db) eqn:He]].

(** [stream_users] when one of the three first calls fails. *)
Ltac stream_users_stops :=
  unfold stream_users_body, _connect_to_prodev, connect, cursor, execute,
    try_call;
  repeat match goal with
         | H : _ = Some _ |- _ => rewrite H
         | H : _ = None |- _ => rewrite H
         end.

(** The body of [stream_users] against a store that accepts the
    connection, the cursor and the query. *)
Lemma stream_users_body_started (db : store) :
  connect_error db = None -> cursor_error db = None ->
  execute_error db = None ->
  stream_users_body db
  = emits [Acquire Connection; Acquire Cursor; Execute SelectUsers]
      (stream_users_rows Connection Cursor
         (fst (delivered db (table db))) (snd (delivered db (table db)))).
Proof.
  intros Hc Hk He.
  unfold stream_users_body, _connect_to_prodev, connect, cursor,
    execute, try_call.
  rewrite Hc, Hk, He. cbn [emit bind ret result_set app].
  destruct (delivered db (table db)); reflexivity.
Qed.

(** A complete run of [stream_users]: it ends with the failure of the
    store, or normally if there is none; what it acquired it released. *)
Lemma stream_users_run (db : store) :
  final (stream_users_body db)
  = match store_failure db with
    | Some errno => Err (StoreError errno)
    | None => Ok tt
    end
  /\ acquisitions (effects (stream_users_body db))
     = releases (effects (stream_users_body db)).
Proof.
  unfold store_failure.
  session_stages db.
  4: { rewrite stream_users_body_started by assumption.
       autorewrite with runs.
       rewrite stream_users_rows_final, stream_users_rows_effects.
       split; reflexivity. }
  all: stream_users_stops; split; reflexivity.
Qed.

(** [stream_users] on every way out: whatever number of values the
    consumer asks for before it closes the generator, and wherever the
    store fails, the releases in the trace match the acquisitions. *)
Lemma stream_users_releases (db : store) (n : nat) :
  let tr := snd (take n (Created (stream_users_body db)) []) in
  acquisitions tr = releases tr.
Proof.
  destruct n as [| n]; [reflexivity |].
  session_stages db.
  4: { rewrite stream_users_body_started by assumption.
       rewrite (take_emits n _
                  (stream_users_finally (Some Connection) (Some Cursor))).
       cbv zeta. rewrite stream_users_rows_take. reflexivity. }
  all: stream_users_stops; reflexivity.
Qed.

(* ===================================================================== *)
(** * Release of resources (C3) and propagation of failures (C9) *)
(* ===================================================================== *)

(** C3.  [stream_user_ages] does not release what it acquired when the
    consumer stops early or when the store fails: on a table with the ages
    20 and 30, a consumer that takes one value and closes the generator
    leaves two acquisitions and no release behind; so does a connection
    lost after the first row.  Only the run that reaches the end of the
    table releases the cursor and the connection. *)
Theorem stream_user_ages_leaks :
  let rows := [user_aged (VInt 20); user_aged (VInt 30)] in
  let closed := take 1 (Created (stream_user_ages_body (healthy rows))) [] in
  let dropped := to_list (iterate (stream_user_ages (dropping 1 rows))) in
  let complete := to_list (iterate (stream_user_ages (healthy rows))) in
  closed = ([20], None, [Acquire Connection; Acquire Cursor; Execute SelectAges])
  /\ acquisitions (snd closed) = 2%nat /\ releases (snd closed) = 0%nat
  /\ dropped = ([Acquire Connection; Acquire Cursor; Execute SelectAges],
                Err (StoreError 2013))
  /\ acquisitions (fst dropped) = 2%nat /\ releases (fst dropped) = 0%nat
  /\ complete = ([Acquire Connection; Acquire Cursor; Execute SelectAges;
                  Release Cursor; Release Connection], Ok [20; 30])
  /\ acquisitions (fst complete) = 2%nat /\ releases (fst complete) = 2%nat.
Proof. repeat split. Qed.

(** C9, as stated, fails: with the connection refused, [stream_user_ages]
    and [lazy_pagination] surface an [AttributeError], not the error of the
    store, which [connect_to_prodev] has printed and dropped; and
    [stream_user_data] ends normally on a rejected statement. *)
Lemma producers_swallow_store_errors :
  to_list (iterate (stream_user_ages (refusing [])))
  = ([Stdout (ConnectFailure 2003)], Err AttributeError)
  /\ to_list (iterate (lazy_pagination (refusing []) 10))
     = ([Stdout (ConnectFailure 2003)], Err AttributeError)
  /\ to_list (iterate (stream_user_data (rejecting []) Connection))
     = ([Acquire Cursor; Stdout (StreamFailure 1146); Release Cursor], Ok [])
  /\ ~ (forall (db : store) (errno : Z),
          store_failure db = Some errno ->
          snd (to_list (iterate (stream_user_ages db)))
          = Err (StoreError errno)).
Proof.
  repeat split.
  intros H. specialize (H (refusing []) 2003 eq_refl). discriminate H.
Qed.

(** C9, amended.  Whatever call of the session fails, [stream_users]
    raises that very error to its consumer after a run in which it has
    released everything it acquired, and so does [stream_users_in_batches]
    for a positive [batch_size]; [connect_to_prodev], for its part, prints
    a refused connection and returns [None]. *)
Theorem stream_users_reraises (db : store) (errno : Z) :
  store_failure db = Some errno ->
  exists tr,
    to_list (iterate (stream_users db)) = (tr, Err (StoreError errno))
    /\ acquisitions tr = releases tr
    /\ (forall batch_size, 0 < batch_size ->
        to_list (iterate (stream_users_in_batches db batch_size))
        = (tr, Err (StoreError errno)))
    /\ (connect_error db = Some errno ->
        connect_to_prodev db = ([Stdout (ConnectFailure errno)], Ok None)).
Proof.
  intros Hfail.
  destruct (stream_users_run db) as [Hfin Hbal]. rewrite Hfail in Hfin.
  exists (effects (stream_users_body db)).
  split; [| split; [| split]].
  - apply to_list_err. split; [reflexivity | exact Hfin].
  - exact Hbal.
  - intros batch_size Hpos. apply to_list_err.
    unfold stream_users_in_batches, stream_users_in_batches_body.
    destruct (Z.leb_spec batch_size 0) as [Hle | _]; [lia |].
    cbn [iterate generator ret call emits].
    rewrite batches_effects, batches_final. split; [reflexivity | exact Hfin].
  - intros Hc. unfold connect_to_prodev, connect. rewrite Hc. reflexivity.
Qed.

(** The amended C9 on a connection lost after the first of two rows. *)
Lemma stream_users_reraises_witness :
  store_failure (dropping 1 [user_aged (VInt 20); user_aged (VInt 30)])
  = Some 2013
  /\ exists tr,
      to_list (iterate (stream_users
                 (dropping 1 [user_aged (VInt 20); user_aged (VInt 30)])))
      = (tr, Err (StoreError 2013))
      /\ acquisitions tr = releases tr
      /\ (forall batch_size, 0 < batch_size ->
          to_list (iterate (stream_users_in_batches
                     (dropping 1 [user_aged (VInt 20); user_aged (VInt 30)])
                     batch_size))
          = (tr, Err (StoreError 2013)))
      /\ (connect_error (dropping 1 [user_aged (VInt 20); user_aged (VInt 30)])
          = Some 2013 ->
          connect_to_prodev
            (dropping 1 [user_aged (VInt 20); user_aged (VInt 30)])
          = ([Stdout (ConnectFailure 2013)], Ok None)).
Proof.
  split; [reflexivity |].
  apply (stream_users_reraises
           (dropping 1 [user_aged (VInt 20); user_aged (VInt 30)]) 2013).
  reflexivity.
Defined.

(* ===================================================================== *)
(** * A batch size that is not positive (C5, C10) *)
(* ===================================================================== *)

(** C5, as stated, fails: the call [stream_users_in_batches(0)] raises
    nothing; it returns a generator that has not started. *)
Lemma stream_users_in_batches_call_returns :
  stream_users_in_batches (healthy []) 0 = ([], Ok (Created (Raise ValueError)))
  /\ ~ (forall (db : store) (batch_size : Z),
          batch_size <= 0 ->
          snd (stream_users_in_batches db batch_size) = Err ValueError).
Proof.
  split; [reflexivity |].
  intros H. specialize (H (healthy []) 0 (Z.le_refl 0)). discriminate H.
Qed.

(** C5, amended.  For [batch_size <= 0] the [ValueError] comes with the
    first value the consumer asks for: however many values it asks for, it
    gets no batch and the error, and the store has not been touched;
    [batch_processing] fails the same way, having printed nothing. *)
Theorem stream_users_in_batches_rejects (db : store) (batch_size : Z) :
  batch_size <= 0 ->
  (forall n,
      take (S n) (Created (stream_users_in_batches_body db batch_size)) []
      = ([], Some (Raised ValueError), []))
  /\ to_list (iterate (stream_users_in_batches db batch_size))
     = ([], Err ValueError)
  /\ batch_processing db batch_size = ([], Err ValueError).
Proof.
  intros Hle.
  unfold batch_processing, stream_users_in_batches,
    stream_users_in_batches_body.
  destruct (Z.leb_spec batch_size 0) as [_ | Hlt]; [| lia].
  repeat split.
Qed.

(** The amended C5 on [batch_size = -5]. *)
Lemma stream_users_in_batches_rejects_witness :
  -5 <= 0
  /\ (forall n,
         take (S n)
              (Created (stream_users_in_batches_body
                          (healthy [user_aged (VInt 30)]) (-5))) []
         = ([], Some (Raised ValueError), []))
  /\ to_list (iterate (stream_users_in_batches
                         (healthy [user_aged (VInt 30)]) (-5)))
     = ([], Err ValueError)
  /\ batch_processing (healthy [user_aged (VInt 30)]) (-5)
     = ([], Err ValueError).
Proof.
  split; [lia |].
  apply (stream_users_in_batches_rejects (healthy [user_aged (VInt 30)]) (-5)).
  lia.
Defined.

(** C10.  For [batch_size <= 0], calling [stream_users_in_batches] performs
    nothing and returns a generator; closing that generator without
    asking for a value raises nothing; the first [next] raises
    [ValueError], with a trace that is still empty: no connection has been
    opened. *)
Theorem stream_users_in_batches_raises_on_first_next
    (db : store) (batch_size : Z) :
  batch_size <= 0 ->
  exists o,
    stream_users_in_batches db batch_size = ([], Ok o)
    /\ close o [] = (Finished, [])
    /\ next o [] = (Raised ValueError, Finished, []).
Proof.
  intros Hle. eexists; split; [reflexivity |].
  unfold stream_users_in_batches_body.
  destruct (Z.leb_spec batch_size 0) as [_ | Hlt]; [| lia].
  split; reflexivity.
Qed.

(** C10 on [batch_size = 0]. *)
Lemma stream_users_in_batches_raises_on_first_next_witness :
  0 <= 0
  /\ exists o,
      stream_users_in_batches (healthy [user_aged (VInt 30)]) 0 = ([], Ok o)
      /\ close o [] = (Finished, [])
      /\ next o [] = (Raised ValueError, Finished, []).
Proof.
  split; [lia |].
  apply (stream_users_in_batches_raises_on_first_next
           (healthy [user_aged (VInt 30)]) 0).
  lia.
Defined.

(* ===================================================================== *)
(** * Ages (C4, C6, C7) *)
(* ===================================================================== *)

Lemma over_25_compared (u : record) (z : Z) :
  compared_age u = Some z -> over_25 u = Ok (25 <? z).
Proof.
  unfold compared_age, over_25.
  destruct (isinstance_int (age u)); cbn [negb andb].
  - intros [= <-]. rewrite Z.gtb_ltb. now destruct (25 <? _).
  - destruct (float (age u)) as [f | e]; [| discriminate].
    destruct (int (VFloat f)) as [z' | e]; [| discriminate].
    intros [= <-]. now rewrite Z.gtb_ltb.
Qed.

Lemma filtered_numeric (batch : list record) :
  Forall (fun u => compared_age u <> None) batch ->
  filtered batch = Ok (filter exceeds_25 batch).
Proof.
  induction 1 as [| u batch Hu _ IH]; [reflexivity |].
  cbn [filtered filter]. unfold exceeds_25 at 1.
  destruct (compared_age u) as [z |] eqn:Hz; [| contradiction].
  now rewrite (over_25_compared u z Hz), IH.
Qed.

Lemma print_users_prints (users : list record) :
  print_users users
  = (flat_map (fun u => [Stdout (Row u); Stdout Blank]) users, Ok tt).
Proof.
  induction users as [| u users IH]; [reflexivity |].
  cbn [print_users flat_map]. rewrite IH. reflexivity.
Qed.

(** C6.  On a batch whose ages are all numeric, [batch_processing] prints,
    in the order of the batch, the records whose age exceeds 25 (the [int]
    as it is, anything else through [int(float(age))]), each followed by
    an empty line, and nothing else.  Three records with the ages 20, 26
    and 25 give the second record and an empty line. *)
Theorem process_batch_prints_over_25 (batch : list record) :
  Forall (fun u => compared_age u <> None) batch ->
  process_batch batch
  = (flat_map (fun u => [Stdout (Row u); Stdout Blank])
              (filter exceeds_25 batch), Ok tt)
  /\ forall u1 u2 u3,
      age u1 = VInt 20 -> age u2 = VInt 26 -> age u3 = VInt 25 ->
      process_batch [u1; u2; u3] = ([Stdout (Row u2); Stdout Blank], Ok tt).
Proof.
  intros Hnum. split.
  - unfold process_batch. rewrite (filtered_numeric batch Hnum).
    cbn [bind]. rewrite print_users_prints. reflexivity.
  - intros u1 u2 u3 H1 H2 H3.
    unfold process_batch, filtered, over_25. rewrite H1, H2, H3. reflexivity.
Qed.

(** C6 on the ages 20, ["26.7"] and the decimal 25: only the second
    record is printed. *)
Lemma process_batch_prints_over_25_witness :
  Forall (fun u => compared_age u <> None)
         [user_aged (VInt 20); user_aged (VStr "26.7");
          user_aged (VDecimal 25 0)]
  /\ process_batch [user_aged (VInt 20); user_aged (VStr "26.7");
                    user_aged (VDecimal 25 0)]
     = ([Stdout (Row (user_aged (VStr "26.7"))); Stdout Blank], Ok tt).
Proof.
  assert (H : Forall (fun u => compared_age u <> None)
                [user_aged (VInt 20); user_aged (VStr "26.7");
                 user_aged (VDecimal 25 0)]).
  { repeat constructor; discriminate. }
  split; [exact H |].
  exact (proj1 (process_batch_prints_over_25 _ H)).
Defined.

(** C4, as stated, fails.  A record whose age cannot be read as a number
    is not skipped by [batch_processing]: [stream_users] passes the age
    ["abc"] on as it is, and the conversion in the filter raises
    [ValueError], which ends the whole operation.  With batches of two,
    nothing is printed, not even the record of age 40 that shares the
    batch, and the record of age 30 is never reached; with batches of one,
    only the record of age 40 is printed.  So it is not true that
    [batch_processing] never raises on a malformed age. *)
Theorem batch_processing_raises_on_malformed_age :
  let rows := [user_aged (VInt 40); user_aged (VStr "abc"); user_aged (VInt 30)] in
  snd (to_list (iterate (stream_users (healthy rows)))) = Ok rows
  /\ float (VStr "abc") = Err ValueError
  /\ over_25 (user_aged (VStr "abc")) = Err ValueError
  /\ process_batch [user_aged (VInt 40); user_aged (VStr "abc")]
     = ([], Err ValueError)
  /\ snd (batch_processing (healthy rows) 2) = Err ValueError
  /\ stdout (fst (batch_processing (healthy rows) 2)) = []
  /\ snd (batch_processing (healthy rows) 1) = Err ValueError
  /\ stdout (fst (batch_processing (healthy rows) 1))
     = [Row (user_aged (VInt 40)); Blank]
  /\ ~ (forall (table : list record) (batch_size : Z),
          0 < batch_size ->
          snd (batch_processing (healthy table) batch_size) = Ok tt).
Proof.
  repeat split.
  intros H.
  specialize (H [user_aged (VInt 40); user_aged (VStr "abc");
                 user_aged (VInt 30)] 2 eq_refl).
  discriminate H.
Qed.

(** C7.  Against a store that does not fail, iterating [stream_users]
    ends normally and yields one record per row, in order.  The record
    has the identifier, the name and the email of the row; its age is the
    [int] that [int(age)] returns when that conversion succeeds, and the
    age of the row, untouched, when the conversion raises.  A row whose
    age is the string ["30"] or the float 30.0 comes out with the age
    [30]. *)
Theorem stream_users_normalizes_age (rows : list record) :
  to_list (iterate (stream_users (healthy rows)))
  = ([Acquire Connection; Acquire Cursor; Execute SelectUsers;
      Release Cursor; Release Connection], Ok (map normalize_age rows))
  /\ (forall row,
        user_id (normalize_age row) = user_id row
        /\ name (normalize_age row) = name row
        /\ email (normalize_age row) = email row
        /\ match int (age row) with
           | Ok z => age (normalize_age row) = VInt z
           | Err _ => age (normalize_age row) = age row
           end)
  /\ (forall row,
        match int (age row) with
        | Ok z => normalize_age row = set_age row (VInt z)
        | Err _ => normalize_age row = row
        end)
  /\ (forall row,
        age row = VStr "30" \/ age row = VFloat thirty ->
        age (normalize_age row) = VInt 30)
  /\ float (VStr "30.0") = Ok thirty.
Proof.
  split; [| split; [| split; [| split]]].
  - apply to_list_ok. unfold stream_users. cbn [iterate generator ret call emits].
    rewrite (stream_users_body_started (healthy rows)) by reflexivity.
    autorewrite with runs.
    rewrite stream_users_rows_effects, stream_users_rows_final,
      stream_users_rows_yields.
    repeat split.
  - intros row. unfold normalize_age.
    destruct (int (age row)); repeat split; reflexivity.
  - intros row. unfold normalize_age. destruct (int (age row)); reflexivity.
  - intros row [H | H]; unfold normalize_age; rewrite H; reflexivity.
  - reflexivity.
Qed.

(* ===================================================================== *)
(** * The quotient of two integers stays in range *)
(* ===================================================================== *)

Lemma digits2_pos_bounds (m : positive) :
  2 ^ (Zpos (digits2_pos m) - 1) <= Zpos m < 2 ^ Zpos (digits2_pos m).
Proof.
  induction m as [m IH | m IH |]; cbn [digits2_pos].
  - rewrite Pos2Z.inj_succ.
    replace (Z.succ (Zpos (digits2_pos m)) - 1) with (Z.succ (Zpos (digits2_pos m) - 1)) by lia.
    rewrite !Z.pow_succ_r by lia. lia.
  - rewrite Pos2Z.inj_succ.
    replace (Z.succ (Zpos (digits2_pos m)) - 1) with (Z.succ (Zpos (digits2_pos m) - 1)) by lia.
    rewrite !Z.pow_succ_r by lia. lia.
  - simpl. lia.
Qed.

Lemma Zdigits2_le (z k : Z) :
  0 <= z < 2 ^ k -> 0 <= k -> Zdigits2 z <= k.
Proof.
  intros [Hz Hlt] Hk. destruct z as [| m | m]; cbn [Zdigits2]; [exact Hk | | lia].
  destruct (digits2_pos_bounds m) as [Hlo _].
  destruct (Z.le_gt_cases (Zpos (digits2_pos m)) k) as [H | H]; [exact H |].
  exfalso.
  assert (2 ^ k <= 2 ^ (Zpos (digits2_pos m) - 1)) by (apply Z.pow_le_mono_r; lia).
  lia.
Qed.

Lemma shr_1_halves (r : shr_record) :
  0 <= shr_m r -> 0 <= shr_m (shr_1 r) /\ shr_m (shr_1 r) * 2 <= shr_m r.
Proof.
  destruct r as [m b s]. cbn [shr_m]. intros Hm.
  destruct m as [| [m | m |] | m]; cbn; lia.
Qed.

Lemma iter_shr_1_shrinks (n : positive) (r : shr_record) :
  0 <= shr_m r ->
  0 <= shr_m (iter_pos shr_1 n r)
  /\ shr_m (iter_pos shr_1 n r) * 2 ^ Zpos n <= shr_m r.
Proof.
  revert r; induction n as [n IH | n IH |]; intros r Hr; cbn [iter_pos].
  - destruct (shr_1_halves r Hr) as [H0 H1].
    destruct (IH _ H0) as [H2 H3]. destruct (IH _ H2) as [H4 H5].
    split; [exact H4 |].
    replace (Zpos n~1) with (Zpos n + Zpos n + 1) by lia.
    rewrite !Z.pow_add_r by lia. 
    assert (0 < 2 ^ Zpos n) by (apply Z.pow_pos_nonneg; lia).
    nia.
  - destruct (IH _ Hr) as [H2 H3]. destruct (IH _ H2) as [H4 H5].
    split; [exact H4 |].
    replace (Zpos n~0) with (Zpos n + Zpos n) by lia.
    rewrite !Z.pow_add_r by lia.
    assert (0 < 2 ^ Zpos n) by (apply Z.pow_pos_nonneg; lia).
    nia.
  - destruct (shr_1_halves r Hr). simpl. lia.
Qed.

Lemma shr_fexp_shrinks (m e : Z) (l : location) :
  0 <= m ->
  let '(r, e1) := shr_fexp prec emax m e l in
  e1 = Z.max e (fexp prec emax (Zdigits2 m + e))
  /\ 0 <= shr_m r /\ shr_m r * 2 ^ (e1 - e) <= m.
Proof.
  intros Hm. unfold shr_fexp, shr.
  assert (Hrec : shr_m (shr_record_of_loc m l) = m)
    by (destruct l as [| []]; reflexivity).
  destruct (fexp prec emax (Zdigits2 m + e) - e) as [| n | n] eqn:Hn.
  - rewrite Hrec. replace (Z.max _ _) with e by lia. rewrite Z.sub_diag. simpl. lia.
  - destruct (iter_shr_1_shrinks n (shr_record_of_loc m l)) as [H0 H1];
      [rewrite Hrec; exact Hm |].
    rewrite Hrec in H1.
    split; [lia |]. split; [exact H0 |].
    replace (e + Zpos n - e) with (Zpos n) by lia. exact H1.
  - rewrite Hrec. replace (Z.max _ _) with e by lia. rewrite Z.sub_diag. simpl. lia.
Qed.

Lemma round_nearest_even_le (m : Z) (l : location) :
  m <= round_nearest_even m l <= m + 1.
Proof. destruct l as [| []]; cbn; [| destruct (Z.even m) | |]; lia. Qed.

Lemma binary_round_aux_finite (s : bool) (m e : Z) (l : location) :
  e <= 970 -> 0 <= m < 2 ^ (1023 - e) ->
  forall s', binary_round_aux prec emax s m e l <> S754_infinity s'.
Proof.
  intros He [Hm Hlt] s'. unfold binary_round_aux.
  pose proof (shr_fexp_shrinks m e l Hm) as H1.
  destruct (shr_fexp prec emax m e l) as [r1 e1].
  destruct H1 as (He1 & Hr1 & Hle1).
  set (m1 := round_nearest_even (shr_m r1) (loc_of_shr_record r1)).
  pose proof (round_nearest_even_le (shr_m r1) (loc_of_shr_record r1)) as Hrnd.
  fold m1 in Hrnd.
  pose proof (shr_fexp_shrinks m1 e1 loc_Exact ltac:(lia)) as H2.
  destruct (shr_fexp prec emax m1 e1 loc_Exact) as [r2 e2].
  destruct H2 as (He2 & Hr2 & Hle2).
  assert (Hd : Zdigits2 m + e <= 1023).
  { assert (Zdigits2 m <= 1023 - e) by (apply Zdigits2_le; lia). lia. }
  assert (He1' : e <= e1 <= 970).
  { subst e1. unfold fexp, emin, prec, emax. lia. }
  assert (Hm1 : shr_m r1 < 2 ^ (1023 - e1)).
  { replace (1023 - e) with ((1023 - e1) + (e1 - e)) in Hlt by lia.
    rewrite Z.pow_add_r in Hlt by lia.
    assert (0 < 2 ^ (e1 - e)) by (apply Z.pow_pos_nonneg; lia).
    nia. }
  assert (Hd1 : Zdigits2 m1 + e1 <= 1024).
  { assert (Zdigits2 m1 <= 1024 - e1).
    { apply Zdigits2_le; [| lia]. split; [lia |].
      replace (1024 - e1) with (Z.succ (1023 - e1)) by lia.
      rewrite Z.pow_succ_r by lia. lia. }
    lia. }
  assert (He2' : e2 <= 971).
  { subst e2. unfold fexp, emin, prec, emax. lia. }
  destruct (shr_m r2); try discriminate.
  unfold emax, prec. destruct (Z.leb_spec e2 (1024 - 53)); [discriminate | lia].
Qed.

Lemma round_ratio_finite (neg : bool) (p q : positive) :
  Zpos p < 2 ^ 1023 * Zpos q ->
  forall s, round_ratio neg p q <> S754_infinity s.
Proof.
  intros Hlt s. unfold round_ratio, SFdiv_core_binary.
  set (e := Z.min (fexp prec emax (Zdigits2 (Zpos p) + 0 - (Zdigits2 (Zpos q) + 0))) (0 - 0)).
  assert (He : e <= 0) by (subst e; lia).
  set (m' := match 0 - 0 - e with Z0 => Zpos p | Zpos _ => Z.shiftl (Zpos p) (0 - 0 - e) | Zneg _ => 0 end).
  assert (Hm' : m' = Zpos p * 2 ^ (- e)).
  { subst m'. replace (0 - 0 - e) with (- e) by lia.
    destruct (- e) as [| k | k] eqn:Hk; [simpl; lia | | lia].
    rewrite Z.shiftl_mul_pow2 by lia. reflexivity. }
  pose proof (Z_div_mod m' (Zpos q) ltac:(lia)) as Hdiv.
  destruct (Z.div_eucl m' (Zpos q)) as [mz r].
  destruct Hdiv as [Hdiv Hr].
  apply binary_round_aux_finite; [lia |].
  assert (H2e : 0 < 2 ^ (- e)) by (apply Z.pow_pos_nonneg; lia).
  assert (Hmz : 0 <= mz) by nia.
  split; [exact Hmz |].
  replace (1023 - e) with (1023 + - e) by lia.
  rewrite Z.pow_add_r by lia.
  nia.
Qed.

(** [a / b] does not overflow when [|a| < 2^1023 * |b|], and [b <> 0]
    rules the division by zero out. *)
Lemma truediv_ok (a b : Z) :
  b <> 0 -> Z.abs a < 2 ^ 1023 * Z.abs b ->
  exists f, truediv a b = Ok f.
Proof.
  intros Hb Hlt. unfold truediv.
  destruct b as [| b | b]; [contradiction | |];
    (destruct a as [| a | a]; [eexists; reflexivity | |]);
    match goal with
    | |- context [round_ratio ?s ?p ?q] =>
        pose proof (round_ratio_finite s p q Hlt) as Hfin;
        destruct (round_ratio s p q) as [| s' | |];
        [| exfalso; exact (Hfin s' eq_refl) | |]; eexists; reflexivity
    end.
Qed.


(* ===================================================================== *)
(** * The quotient of two integers is correctly rounded *)
(* ===================================================================== *)

Lemma shr_1_locates (N D : Z) (r : shr_record) :
  0 < D -> 0 <= shr_m r -> locates N D r -> locates N (2 * D) (shr_1 r).
Proof.
  destruct r as [m b s]. unfold locates. cbn [shr_m shr_r shr_s].
  intros HD Hm.
  destruct m as [| [p | p |] | p]; destruct b, s;
    cbn [shr_1 shr_m shr_r shr_s orb]; lia.
Qed.

Lemma iter_shr_1_locates (n : positive) (N D : Z) (r : shr_record) :
  0 < D -> 0 <= shr_m r -> locates N D r ->
  locates N (2 ^ Zpos n * D) (iter_pos shr_1 n r).
Proof.
  revert D r; induction n as [n IH | n IH |]; intros D r HD Hr Hloc;
    cbn [iter_pos].
  - assert (H2 : 0 < 2 ^ Zpos n) by (apply Z.pow_pos_nonneg; lia).
    destruct (shr_1_halves r Hr) as [H0 _].
    destruct (iter_shr_1_shrinks n _ H0) as [H1 _].
    replace (2 ^ Zpos n~1 * D) with (2 ^ Zpos n * (2 ^ Zpos n * (2 * D))).
    2:{ replace (Zpos n~1) with (Zpos n + Zpos n + 1) by lia.
        rewrite !Z.pow_add_r by lia. lia. }
    apply IH; [nia | exact H1 |]. apply IH; [lia | exact H0 |].
    now apply shr_1_locates.
  - assert (H2 : 0 < 2 ^ Zpos n) by (apply Z.pow_pos_nonneg; lia).
    destruct (iter_shr_1_shrinks n r Hr) as [H1 _].
    replace (2 ^ Zpos n~0 * D) with (2 ^ Zpos n * (2 ^ Zpos n * D)).
    2:{ replace (Zpos n~0) with (Zpos n + Zpos n) by lia.
        rewrite !Z.pow_add_r by lia. lia. }
    apply IH; [nia | exact H1 |]. now apply IH.
  - replace (2 ^ 1 * D) with (2 * D) by lia. now apply shr_1_locates.
Qed.

Lemma shr_fexp_locates (m e : Z) (l : location) (N D : Z) :
  0 <= m -> 0 < D -> locates N D (shr_record_of_loc m l) ->
  let '(r, e1) := shr_fexp prec emax m e l in
  e1 = Z.max e (fexp prec emax (Zdigits2 m + e))
  /\ 0 <= shr_m r /\ shr_m r * 2 ^ (e1 - e) <= m
  /\ locates N (2 ^ (e1 - e) * D) r.
Proof.
  intros Hm HD Hloc.
  pose proof (shr_fexp_shrinks m e l Hm) as H.
  unfold shr_fexp, shr in *.
  assert (Hrec : shr_m (shr_record_of_loc m l) = m)
    by (destruct l as [| []]; reflexivity).
  destruct (fexp prec emax (Zdigits2 m + e) - e) as [| n | n] eqn:Hn.
  - destruct H as (He1 & H0 & H1). repeat split; try assumption.
    rewrite Z.sub_diag. replace (2 ^ 0 * D) with D by lia. exact Hloc.
  - destruct H as (He1 & H0 & H1). repeat split; try assumption.
    replace (e + Zpos n - e) with (Zpos n) by lia.
    apply iter_shr_1_locates; [exact HD | now rewrite Hrec | exact Hloc].
  - destruct H as (He1 & H0 & H1). repeat split; try assumption.
    rewrite Z.sub_diag. replace (2 ^ 0 * D) with D by lia. exact Hloc.
Qed.

Lemma round_nearest_even_near (N D : Z) (r : shr_record) :
  0 < D -> locates N D r ->
  Z.abs (N - 2 * D * round_nearest_even (shr_m r) (loc_of_shr_record r)) <= D.
Proof.
  destruct r as [m b s]. unfold locates. cbn [shr_m shr_r shr_s].
  intros HD. destruct b, s; cbn [round_nearest_even loc_of_shr_record];
    try destruct (Z.even m); lia.
Qed.

Lemma locates_floor (N D : Z) (r : shr_record) :
  0 < D -> locates N D r ->
  2 * D * shr_m r <= N < 2 * D * shr_m r + 2 * D.
Proof.
  destruct r as [m b s]. unfold locates. cbn [shr_m shr_r shr_s].
  intros HD. destruct b, s; lia.
Qed.

Lemma new_location_locates (b q r : Z) :
  0 < b -> 0 <= r < b ->
  locates (2 * (q * b + r)) b (shr_record_of_loc q (new_location b r)).
Proof.
  intros Hb Hr. unfold new_location, new_location_even, new_location_odd.
  destruct (Z.even b) eqn:Heven.
  - destruct (Z.eqb_spec r 0) as [-> | Hr0]; [unfold locates; cbn [shr_record_of_loc shr_m shr_r shr_s]; lia |].
    destruct (Z.compare_spec (2 * r) b); unfold locates;
      cbn [shr_record_of_loc shr_m shr_r shr_s]; lia.
  - assert (Hodd : Z.odd b = true) by (now rewrite <- Z.negb_even, Heven).
    apply Z.odd_spec in Hodd as [k ->].
    destruct (Z.eqb_spec r 0) as [-> | Hr0]; [unfold locates; cbn [shr_record_of_loc shr_m shr_r shr_s]; lia |].
    destruct (Z.compare_spec (2 * r + 1) (2 * k + 1));
      unfold locates; cbn [shr_record_of_loc shr_m shr_r shr_s]; lia.
Qed.

Lemma lt_pow2_scaled (x i j : Z) :
  0 <= x -> 0 <= i -> x * 2 ^ i < 2 ^ j -> x < 2 ^ Z.max 0 (j - i).
Proof.
  intros Hx Hi H.
  assert (Hpi : 0 < 2 ^ i) by (apply Z.pow_pos_nonneg; lia).
  destruct (Z.le_gt_cases i j) as [Hij | Hij].
  - replace (Z.max 0 (j - i)) with (j - i) by lia.
    replace j with ((j - i) + i) in H by lia.
    rewrite Z.pow_add_r in H by lia. nia.
  - replace (Z.max 0 (j - i)) with 0 by lia. cbn.
    assert (2 ^ j <= 2 ^ i) by (apply Z.pow_le_mono_r; lia).
    nia.
Qed.

Lemma exponent_bounds (da db e e1 e2 dq dm1 : Z) :
  1 <= da <= 40 -> 1 <= db ->
  e = Z.min (Z.max (da - db - 53) (-1074)) 0 ->
  dq <= Z.max 0 (da - e - (db - 1)) ->
  e1 = Z.max e (Z.max (dq + e - 53) (-1074)) ->
  (e <= e1 -> dm1 <= Z.max 0 (da - e - (e1 - e + (db - 1))) + 1) ->
  e2 = Z.max e1 (Z.max (dm1 + e1 - 53) (-1074)) ->
  e <= e1 <= e2 /\ -1074 <= e <= 0 /\ e2 <= -12
  /\ (e2 <= da - db - 51 \/ e2 = -1074).
Proof.
  intros Hda Hdb He Hdq He1 Hdm1 He2.
  assert (H0 : -1074 <= e <= 0 /\ e <= Z.max (da - db - 53) (-1074)) by lia.
  assert (H1 : e <= e1 <= Z.max (da - db - 52) (-1074)) by lia.
  specialize (Hdm1 (proj1 H1)).
  assert (H2 : e1 <= e2 <= Z.max (da - db - 51) (-1074)) by lia.
  lia.
Qed.

(** The quotient of two positive integers, the first below [2^40], as a
    binary64 number: its mantissa [m2] and exponent [e2] are such that
    [m2 * 2^e2] is within one and a half units of [2^e2] of [a / b], and
    these units are smaller than [a / b] by a factor [2^11] at least,
    unless the result is in the lowest binade. *)
Lemma round_ratio_near (neg : bool) (a b : positive) :
  Zpos a < 2 ^ 40 ->
  exists m2 e2 : Z,
    round_ratio neg a b
    = match m2 with
      | Z0 => S754_zero neg
      | Zpos m => S754_finite neg m e2
      | Zneg _ => S754_nan
      end
    /\ 0 <= m2 /\ -1074 <= e2 <= -12
    /\ 2 * Z.abs (Zpos a * 2 ^ (- e2) - Zpos b * m2) <= 3 * Zpos b
    /\ (2 ^ 11 * Zpos b < 2 ^ (- e2) \/ e2 = -1074).
Proof.
  intros Ha. unfold round_ratio, SFdiv_core_binary.
  set (da := Zdigits2 (Zpos a)). set (db := Zdigits2 (Zpos b)).
  assert (Hda : 2 ^ (da - 1) <= Zpos a < 2 ^ da)
    by apply digits2_pos_bounds.
  assert (Hdb : 2 ^ (db - 1) <= Zpos b < 2 ^ db)
    by apply digits2_pos_bounds.
  assert (Hda40 : 1 <= da <= 40).
  { split; [subst da; cbn; lia |]. apply Zdigits2_le; lia. }
  assert (Hdb1 : 1 <= db) by (subst db; cbn; lia).
  set (e := Z.min (fexp prec emax (da + 0 - (db + 0))) (0 - 0)).
  assert (He : e = Z.min (Z.max (da - db - 53) (-1074)) 0).
  { subst e. unfold fexp, emin, prec, emax. lia. }
  assert (He0 : -1074 <= e <= 0) by (clear - He; lia).
  set (m' := match 0 - 0 - e with
             | Z0 => Zpos a
             | Zpos _ => Z.shiftl (Zpos a) (0 - 0 - e)
             | Zneg _ => 0
             end).
  assert (Hm' : m' = Zpos a * 2 ^ (- e)).
  { subst m'. replace (0 - 0 - e) with (- e) by lia.
    destruct (- e) as [| k | k] eqn:Hk; [simpl; lia | | lia].
    rewrite Z.shiftl_mul_pow2 by lia. reflexivity. }
  clearbody m' e.
  pose proof (Z_div_mod m' (Zpos b) ltac:(lia)) as Hdiv.
  destruct (Z.div_eucl m' (Zpos b)) as [mz r].
  destruct Hdiv as [Hdiv Hr].
  assert (HE' : 0 < 2 ^ (- e)) by (apply Z.pow_pos_nonneg; lia).
  assert (Hm'0 : 0 <= m') by (rewrite Hm'; apply Z.mul_nonneg_nonneg; lia).
  assert (Hmz : 0 <= mz).
  { clear - Hdiv Hr Hm'0.
    destruct (Z.le_gt_cases 0 mz) as [H | H]; [exact H | exfalso].
    assert (Zpos b * mz <= Zpos b * (-1))
      by (apply Z.mul_le_mono_nonneg_l; lia).
    lia. }
  (* the first shift *)
  assert (Hloc0 : locates (2 * m') (Zpos b)
                    (shr_record_of_loc mz (new_location (Zpos b) r))).
  { rewrite Hdiv. replace (Zpos b * mz + r) with (mz * Zpos b + r) by lia.
    apply new_location_locates; lia. }
  unfold binary_round_aux.
  pose proof (shr_fexp_locates mz e (new_location (Zpos b) r) (2 * m')
                (Zpos b) Hmz ltac:(lia) Hloc0) as H1.
  destruct (shr_fexp prec emax mz e (new_location (Zpos b) r)) as [r1 e1].
  destruct H1 as (He1 & Hr1 & Hle1 & Hloc1).
  assert (Hee1 : e <= e1) by (rewrite He1; apply Z.le_max_l).
  assert (HK1 : 0 < 2 ^ (e1 - e)) by (apply Z.pow_pos_nonneg; lia).
  set (m1 := round_nearest_even (shr_m r1) (loc_of_shr_record r1)).
  pose proof (round_nearest_even_le (shr_m r1) (loc_of_shr_record r1)) as Hrnd.
  assert (HD1 : 0 < 2 ^ (e1 - e) * Zpos b) by (apply Z.mul_pos_pos; lia).
  pose proof (round_nearest_even_near (2 * m') (2 ^ (e1 - e) * Zpos b) r1
                HD1 Hloc1) as Hnear.
  fold m1 in Hrnd, Hnear. clearbody m1.
  assert (Hm1 : 0 <= m1) by lia.
  (* the second shift *)
  assert (Hloc1' : locates (2 * m1) 1 (shr_record_of_loc m1 loc_Exact))
    by (unfold locates; cbn [shr_record_of_loc shr_m shr_r shr_s]; lia).
  pose proof (shr_fexp_locates m1 e1 loc_Exact (2 * m1) 1 Hm1 Z.lt_0_1
                Hloc1') as H2.
  destruct (shr_fexp prec emax m1 e1 loc_Exact) as [r2 e2].
  destruct H2 as (He2 & Hr2 & Hle2 & Hloc2).
  assert (He12 : e1 <= e2) by (rewrite He2; apply Z.le_max_l).
  assert (HK2 : 0 < 2 ^ (e2 - e1)) by (apply Z.pow_pos_nonneg; lia).
  apply locates_floor in Hloc2; [| lia].
  rewrite Z.mul_1_r in Hloc2.
  (* the exponents *)
  assert (Hb1 : 0 < 2 ^ (db - 1)) by (apply Z.pow_pos_nonneg; lia).
  assert (Hm'lt : m' < 2 ^ (da - e)).
  { rewrite Hm'. replace (da - e) with (da + - e) by lia.
    rewrite Z.pow_add_r by lia.
    apply Z.mul_lt_mono_pos_r; [exact HE' | apply Hda]. }
  assert (Hmzb : mz * 2 ^ (db - 1) <= mz * Zpos b)
    by (apply Z.mul_le_mono_nonneg_l; [exact Hmz | apply Hdb]).
  assert (Hmzlt : mz * 2 ^ (db - 1) < 2 ^ (da - e))
    by (clear - Hmzb Hdiv Hr Hm'lt; lia).
  assert (Hdq : Zdigits2 mz <= Z.max 0 (da - e - (db - 1))).
  { apply Zdigits2_le; [| apply Z.le_max_l]. split; [exact Hmz |].
    apply lt_pow2_scaled; [exact Hmz | lia | exact Hmzlt]. }
  assert (Hs1 : shr_m r1 < 2 ^ Z.max 0 (da - e - (e1 - e + (db - 1)))).
  { apply lt_pow2_scaled; [exact Hr1 | lia |].
    rewrite Z.pow_add_r, Z.mul_assoc by lia.
    assert (shr_m r1 * 2 ^ (e1 - e) * 2 ^ (db - 1) <= mz * 2 ^ (db - 1))
      by (apply Z.mul_le_mono_nonneg_r; [lia | exact Hle1]).
    clear - H Hmzlt. lia. }
  assert (Hdm1 : Zdigits2 m1 <= Z.max 0 (da - e - (e1 - e + (db - 1))) + 1).
  { apply Zdigits2_le; [| pose proof (Z.le_max_l 0 (da - e - (e1 - e + (db - 1)))); lia].
    split; [exact Hm1 |].
    rewrite Z.pow_add_r by (try apply Z.le_max_l; lia).
    clear - Hs1 Hrnd. lia. }
  unfold fexp, emin, prec, emax in He1, He2.
  replace (3 - 1024 - 53) with (-1074) in He1, He2 by reflexivity.
  destruct (exponent_bounds da db e e1 e2 (Zdigits2 mz) (Zdigits2 m1)
              Hda40 Hdb1 He Hdq He1 (fun _ => Hdm1) He2)
    as (_ & _ & He2' & Hlow).
  assert (He2'' : -1074 <= e2 <= -12) by (clear - He2' He12 Hee1 He0; lia).
  exists (shr_m r2), e2.
  split.
  { destruct (shr_m r2); try reflexivity.
    unfold emax, prec.
    destruct (Z.leb_spec e2 (1024 - 53)) as [_ | H]; [reflexivity |].
    clear - H He2''. lia. }
  split; [exact Hr2 |]. split; [exact He2'' |].
  assert (HE : 0 < 2 ^ (- e2)) by (apply Z.pow_pos_nonneg; lia).
  assert (Hpow : 2 ^ (- e) = 2 ^ (- e2) * 2 ^ (e2 - e1) * 2 ^ (e1 - e)).
  { rewrite <- !Z.pow_add_r by lia. f_equal. lia. }
  split.
  - set (E := 2 ^ (- e2)) in *. set (K1 := 2 ^ (e1 - e)) in *.
    set (K2 := 2 ^ (e2 - e1)) in *. set (m2 := shr_m r2) in *.
    clearbody E K1 K2 m2.
    set (Y := 2 * (Zpos a * E * K2) - 2 * Zpos b * m1).
    assert (HY : Z.abs Y <= Zpos b).
    { rewrite Hm', Hpow in Hnear.
      replace (2 * (Zpos a * (E * K2 * K1)) - 2 * (K1 * Zpos b) * m1)
        with (K1 * Y) in Hnear by (subst Y; ring).
      rewrite Z.abs_mul, (Z.abs_eq K1) in Hnear by lia.
      now apply Z.mul_le_mono_pos_l in Hnear. }
    apply Z.abs_le in HY.
    set (t := 2 * m1 - 2 * K2 * m2).
    assert (Ht : 0 <= t <= 2 * K2 - 1) by (subst t; clear - Hloc2; lia).
    assert (Hbt : 0 <= Zpos b * t <= Zpos b * (2 * K2 - 1))
      by (split; [apply Z.mul_nonneg_nonneg | apply Z.mul_le_mono_nonneg_l];
          lia).
    assert (HbK : Zpos b * 1 <= Zpos b * K2)
      by (apply Z.mul_le_mono_nonneg_l; lia).
    assert (Heq : K2 * (2 * (Zpos a * E - Zpos b * m2)) = Y + Zpos b * t)
      by (subst Y t; ring).
    clearbody Y t.
    assert (Hlo : K2 * (- (3 * Zpos b))
                  <= K2 * (2 * (Zpos a * E - Zpos b * m2)))
      by (clear - Heq HY Hbt HbK; lia).
    assert (Hhi : K2 * (2 * (Zpos a * E - Zpos b * m2))
                  <= K2 * (3 * Zpos b))
      by (clear - Heq HY Hbt HbK; lia).
    apply Z.mul_le_mono_pos_l in Hlo, Hhi; try exact HK2.
    apply Z.abs_le. clear - Hlo Hhi. lia.
  - destruct Hlow as [Hn | Hn]; [left | now right].
    assert (H : 2 ^ (11 + db) <= 2 ^ (- e2)) by (apply Z.pow_le_mono_r; lia).
    rewrite Z.pow_add_r in H by lia.
    assert (2 ^ 11 * Zpos b < 2 ^ 11 * 2 ^ db)
      by (apply Z.mul_lt_mono_pos_l; [reflexivity | apply Hdb]).
    clear - H H0. lia.
Qed.

(** [round_half_even n d] is an integer nearest to [n / d]. *)
Lemma round_half_even_near (n d : Z) :
  0 < d -> 0 <= n ->
  0 <= round_half_even n d
  /\ 2 * Z.abs (round_half_even n d * d - n) <= d.
Proof.
  intros Hd Hn. unfold round_half_even.
  pose proof (Z.div_mod n d ltac:(lia)) as Hdiv.
  pose proof (Z.mod_pos_bound n d Hd) as Hr.
  pose proof (Z.div_pos n d Hn Hd) as Hq.
  set (q := n / d) in *. set (r := n mod d) in *. clearbody q r.
  assert (Hqd : (q + 1) * d = d * q + d) by ring.
  assert (Hqd' : q * d = d * q) by ring.
  destruct (Z.compare_spec (2 * r) d) as [H | H | H];
    [destruct (Z.even q) | |]; split; try lia;
    apply Z.mul_le_mono_pos_l with (p := 1); lia.
Qed.

(** Scaling both sides of a comparison by a positive factor. *)
Lemma scaled_le (x y k : Z) : 0 < k -> x <= y -> x * k <= y * k.
Proof. intros Hk H. apply Z.mul_le_mono_nonneg_r; lia. Qed.

(** The two roundings together: the quotient [a / b] rounded to a float
    [m2 * 2^e2] and the float rounded to [q] hundredths leave [q] an
    integer nearest to [100 a / b], as long as the float is fine
    enough. *)
Lemma hundredths_of_quotient (a b m2 E q : Z) :
  0 < a -> 0 < b -> 0 <= m2 -> 0 <= q ->
  300 * b < E ->
  2 * Z.abs (a * E - b * m2) <= 3 * b ->
  2 * Z.abs (q * E - 100 * m2) <= E ->
  2 * Z.abs (100 * a - q * b) <= b.
Proof.
  intros Ha Hb Hm2 Hq HE Hacc Hrnd.
  assert (HE0 : 0 < E) by lia.
  destruct (Z.le_gt_cases (2 * Z.abs (100 * a - q * b)) b) as [H | H];
    [exact H | exfalso].
  assert (Ha1 : 200 * (b * m2) <= 200 * (a * E) + 300 * b) by lia.
  assert (Ha2 : 200 * (a * E) <= 200 * (b * m2) + 300 * b) by lia.
  destruct (Z.le_gt_cases (q * b) (100 * a)) as [Hside | Hside].
  - (* [100 a / b] is above [q + 1/2] *)
    assert (H1 : (2 * q + 1) * b + 1 <= 200 * a) by lia.
    assert (H2 : 200 * m2 <= (2 * q + 1) * E) by lia.
    apply (scaled_le _ _ E HE0) in H1.
    apply (scaled_le _ _ b Hb) in H2.
    replace (((2 * q + 1) * b + 1) * E)
      with ((2 * q + 1) * E * b + E) in H1 by ring.
    replace (200 * m2 * b) with (200 * (b * m2)) in H2 by ring.
    replace (200 * a * E) with (200 * (a * E)) in H1 by ring.
    lia.
  - (* [100 a / b] is below [q - 1/2] *)
    assert (H1 : 200 * a + 1 <= (2 * q - 1) * b) by lia.
    assert (H2 : (2 * q - 1) * E <= 200 * m2) by lia.
    apply (scaled_le _ _ E HE0) in H1.
    apply (scaled_le _ _ b Hb) in H2.
    replace ((200 * a + 1) * E) with (200 * (a * E) + E) in H1 by ring.
    replace ((2 * q - 1) * b * E) with ((2 * q - 1) * E * b) in H1 by ring.
    replace (200 * m2 * b) with (200 * (b * m2)) in H2 by ring.
    lia.
Qed.

(** The same when the float is in the lowest binade: the quotient is then
    too small to show in two decimals. *)
Lemma hundredths_of_tiny_quotient (a b m2 E q : Z) :
  0 < a < 2 ^ 40 -> 0 < b -> 0 <= m2 -> 0 <= q ->
  2 ^ 72 <= E <= 300 * b ->
  2 * Z.abs (a * E - b * m2) <= 3 * b ->
  2 * Z.abs (q * E - 100 * m2) <= E ->
  q = 0 /\ 2 * Z.abs (100 * a - q * b) <= b.
Proof.
  intros Ha Hb Hm2 Hq HE Hacc Hrnd.
  change (2 ^ 40) with 1099511627776 in Ha.
  change (2 ^ 72) with 4722366482869645213696 in HE.
  assert (HaE : a * E <= a * (300 * b))
    by (apply Z.mul_le_mono_nonneg_l; lia).
  assert (Hbm : b * (2 * m2) <= b * (600 * a + 3)) by lia.
  apply Z.mul_le_mono_pos_l in Hbm; [| exact Hb].
  assert (Hq0 : q = 0).
  { destruct (Z.eq_dec q 0) as [H | H]; [exact H | exfalso].
    assert (1 * E <= q * E) by (apply Z.mul_le_mono_nonneg_r; lia).
    lia. }
  split; [exact Hq0 |]. subst q. lia.
Qed.

Lemma string_of_digit (d : Z) :
  0 <= d < 10 -> string_of_nonneg d = String (digit_char d) EmptyString.
Proof.
  intros Hd.
  assert (H : d = 0 \/ d = 1 \/ d = 2 \/ d = 3 \/ d = 4 \/ d = 5 \/ d = 6
              \/ d = 7 \/ d = 8 \/ d = 9) by lia.
  repeat (destruct H as [-> | H]; [reflexivity |]). now subst d.
Qed.

Lemma hundredths_two_decimals (s : bool) (h : Z) :
  0 <= h -> hundredths s h = two_decimals s h.
Proof.
  intros Hh. unfold hundredths, two_decimals.
  assert (Ht : h mod 100 / 10 = h / 10 mod 10).
  { change 100 with (10 * 10). rewrite Z.rem_mul_r by lia.
    rewrite (Z.mul_comm 10), Z.div_add by lia.
    rewrite Z.div_small by (apply Z.mod_pos_bound; lia). reflexivity. }
  rewrite Ht.
  rewrite (string_of_digit (h / 10 mod 10)) by (apply Z.mod_pos_bound; lia).
  rewrite (string_of_digit (h mod 10)) by (apply Z.mod_pos_bound; lia).
  reflexivity.
Qed.

(** [a / b] written with [.2f], for [|a| < 2^40] and [0 < b]: the text
    is the decimal notation of a multiple of 0.01 nearest to [|a| / b],
    after the sign of [a]. *)
Lemma truediv_two_decimals (a b : Z) :
  0 < b -> Z.abs a < 2 ^ 40 ->
  exists avg h,
    truediv a b = Ok avg
    /\ 0 <= h
    /\ nearest_hundredths (Z.abs a) b h
    /\ format_2f avg = two_decimals (a <? 0) h.
Proof.
  intros Hb Ha. unfold nearest_hundredths.
  destruct b as [| b | b]; try lia.
  assert (Hcase : forall (neg : bool) (p : positive),
             Zpos p < 2 ^ 40 ->
             exists avg h,
               match round_ratio neg p b with
               | S754_infinity _ => Err OverflowError
               | f => Ok f
               end = Ok avg
               /\ 0 <= h
               /\ 2 * Z.abs (100 * Zpos p - h * Zpos b) <= Zpos b
               /\ format_2f avg = two_decimals neg h).
  { intros neg p Hp.
    destruct (round_ratio_near neg p b Hp)
      as (m2 & e2 & -> & Hm2 & He2 & Hacc & Hfine).
    assert (HE : 0 < 2 ^ (- e2)) by (apply Z.pow_pos_nonneg; lia).
    assert (HE12 : 2 ^ 12 <= 2 ^ (- e2)) by (apply Z.pow_le_mono_r; lia).
    change (2 ^ 12) with 4096 in HE12.
    destruct m2 as [| m | m]; [| | lia].
    - exists (S754_zero neg), 0. split; [reflexivity |]. split; [lia |].
      split; [| reflexivity].
      rewrite Z.mul_0_r, Z.sub_0_r in Hacc.
      rewrite Z.abs_eq in Hacc by (apply Z.mul_nonneg_nonneg; lia).
      assert (Zpos p * 4096 <= Zpos p * 2 ^ (- e2))
        by (apply Z.mul_le_mono_nonneg_l; lia).
      lia.
    - destruct e2 as [| k | k]; try lia.
      change (- Zneg k) with (Zpos k) in *.
      destruct (round_half_even_near (100 * Zpos m) (2 ^ Zpos k) HE
                  ltac:(lia)) as (Hq & Hrnd).
      set (q := round_half_even (100 * Zpos m) (2 ^ Zpos k)) in *.
      exists (S754_finite neg m (Zneg k)), q.
      split; [reflexivity |]. split; [exact Hq |].
      split; [| cbn [format_2f]; fold q; now apply hundredths_two_decimals].
      destruct (Z.le_gt_cases (2 ^ Zpos k) (300 * Zpos b)) as [Hlow | Hhigh].
      + destruct Hfine as [Hfine | Hfine].
        { change (2 ^ 11) with 2048 in Hfine. lia. }
        injection Hfine as ->.
        assert (H72 : 2 ^ 72 <= 2 ^ 1074) by (apply Z.pow_le_mono_r; lia).
        apply (hundredths_of_tiny_quotient (Zpos p) (Zpos b) (Zpos m)
                 (2 ^ 1074) q); try lia; assumption.
      + apply (hundredths_of_quotient (Zpos p) (Zpos b) (Zpos m)
                 (2 ^ Zpos k) q); try lia; assumption. }
  destruct a as [| p | p].
  - exists (S754_zero false), 0. cbn. repeat split; lia.
  - unfold truediv. cbn [Z.ltb Z.compare xorb Z.abs Z.to_pos].
    destruct (Hcase false p Ha) as (avg & h & H1 & H2 & H3 & H4).
    exists avg, h. repeat split; assumption.
  - unfold truediv. cbn [Z.ltb Z.compare xorb Z.abs Z.to_pos].
    destruct (Hcase true p Ha) as (avg & h & H1 & H2 & H3 & H4).
    exists avg, h. repeat split; assumption.
Qed.


(* ===================================================================== *)
(** * The average age (C8) *)
(* ===================================================================== *)

(** The loop of [compute_average_age] keeps the sum and the number of the
    values it has seen. *)
Lemma running_sum_and_count (g : gen Z) (total_age count : Z) :
  for_each g (fun '(total_age, count) age => ret (total_age + age, count + 1))
           (total_age, count)
  = (effects g,
     match final g with
     | Ok _ => Ok (total_age + total (yields g),
                   count + Z.of_nat (length (yields g)))
     | Err e => Err e
     end).
Proof.
  revert total_age count;
    induction g as [e k IH | y c k IH | | e]; intros total_age count.
  - cbn [for_each effects final yields bind emit]. rewrite IH.
    destruct (final k); reflexivity.
  - cbn [for_each effects final yields bind ret]. rewrite IH.
    destruct (final k); [| reflexivity].
    cbn [app length]. unfold total. cbn [fold_right]. fold (total (yields k)).
    rewrite Nat2Z.inj_succ. f_equal. f_equal. f_equal; lia.
  - cbn. rewrite !Z.add_0_r. reflexivity.
  - reflexivity.
Qed.

Lemma stream_user_ages_rows_run (rows : list record) (ages : list Z) :
  Forall2 (fun row z => int (age row) = Ok z) rows ages ->
  let g := stream_user_ages_rows (Some Connection) Cursor rows None in
  yields g = ages
  /\ effects g = [Release Cursor; Release Connection]
  /\ final g = Ok tt.
Proof.
  induction 1 as [| row z rows ages Hz _ IH]; [repeat split |].
  cbn [stream_user_ages_rows]. rewrite Hz.
  destruct IH as (Hy & He & Hf). cbn [yields effects final].
  rewrite Hy. auto.
Qed.

Lemma total_bound (bound : Z) (ages : list Z) :
  Forall (fun z => Z.abs z < bound) ages ->
  ages <> [] ->
  Z.abs (total ages) < bound * Z.of_nat (length ages).
Proof.
  intros Hall Hne.
  assert (H : Z.abs (total ages) <= (bound - 1) * Z.of_nat (length ages)).
  { clear Hne. induction Hall as [| z ages Hz _ IH]; [simpl; lia |].
    unfold total in *. cbn [fold_right length].
    rewrite Nat2Z.inj_succ, Z.mul_succ_r.
    pose proof (Z.abs_triangle z (fold_right Z.add 0 ages)). lia. }
  destruct ages; [contradiction |].
  cbn [length] in *. rewrite Nat2Z.inj_succ, Z.mul_succ_r in *. lia.
Qed.

(** C8.  Against a store that does not fail and whose ages [int] reads as
    [ages] (each below [2^1023] in absolute value, so that their mean is
    in the range of a float), [compute_average_age] reads the whole table,
    releases the cursor and the connection, prints one line and raises
    nothing: ["No user data found."] when there is no row, and otherwise
    the quotient of the sum of the ages by their number, written with two
    decimals.  When the sum is below [2^40] in absolute value, what is
    written is the arithmetic mean to the nearest hundredth: the decimal
    notation, after the sign of the sum, of a number of hundredths that
    is at most 0.005 away from the sum divided by the count.  For the
    ages 20, 30 and 25 the line ends in [25.00]. *)
Theorem compute_average_age_reports (rows : list record) (ages : list Z) :
  Forall2 (fun row z => int (age row) = Ok z) rows ages ->
  Forall (fun z => Z.abs z < 2 ^ 1023) ages ->
  (exists line,
     compute_average_age (healthy rows)
     = ([Acquire Connection; Acquire Cursor; Execute SelectAges;
         Release Cursor; Release Connection; Stdout (Text line)], Ok tt)
     /\ match ages with
        | [] => line = "No user data found."%string
        | _ :: _ =>
            (exists avg,
               truediv (total ages) (Z.of_nat (length ages)) = Ok avg
               /\ line = ("Average age of users: " ++ format_2f avg)%string)
            /\ (Z.abs (total ages) < 2 ^ 40 ->
                exists h,
                  0 <= h
                  /\ nearest_hundredths (Z.abs (total ages))
                                        (Z.of_nat (length ages)) h
                  /\ line = ("Average age of users: "
                             ++ two_decimals (total ages <? 0)%Z h)%string)
        end)
  /\ compute_average_age
       (healthy [user_aged (VInt 20); user_aged (VInt 30); user_aged (VInt 25)])
     = ([Acquire Connection; Acquire Cursor; Execute SelectAges;
         Release Cursor; Release Connection;
         Stdout (Text "Average age of users: 25.00")], Ok tt).
Proof.
  intros Hages Hbound. split; [| reflexivity].
  destruct (stream_user_ages_rows_run rows ages Hages) as (Hy & He & Hf).
  unfold compute_average_age, stream_user_ages, stream_user_ages_body.
  cbn [iterate generator ret call emits connect_to_prodev connect healthy
       connect_error cursor_of cursor cursor_error execute
       execute_error emit bind result_set delivered fetch_error table app].
  unfold bind at 1. rewrite running_sum_and_count.
  cbn [effects final yields]. rewrite Hy, He, Hf. cbn [Z.add].
  destruct ages as [| z ages].
  - eexists; split; reflexivity.
  - destruct (truediv_ok (total (z :: ages)) (Z.of_nat (length (z :: ages))))
      as [avg Havg].
    + cbn [length]. lia.
    + rewrite (Z.abs_eq (Z.of_nat _)) by lia. apply total_bound; [exact Hbound | discriminate].
    + destruct (Z.eqb_spec (Z.of_nat (length (z :: ages))) 0) as [H0 | _];
        [cbn [length] in H0; lia |].
      exists ("Average age of users: " ++ format_2f avg)%string.
      split; [| split; [exists avg; split; [exact Havg | reflexivity] |]].
      * unfold bind. rewrite Havg. reflexivity.
      * intros Hsmall.
        destruct (truediv_two_decimals (total (z :: ages))
                    (Z.of_nat (length (z :: ages))))
          as (avg' & h & Havg' & Hh & Hnear & Hfmt);
          [cbn [length]; lia | exact Hsmall |].
        rewrite Havg in Havg'. injection Havg' as <-.
        exists h. rewrite Hfmt. auto.
Qed.

(** C8 on the ages 20, ["30"] and the decimal 25. *)
Lemma compute_average_age_reports_witness :
  let rows := [user_aged (VInt 20); user_aged (VStr "30"); user_aged (VDecimal 25 0)] in
  Forall2 (fun row z => int (age row) = Ok z) rows [20; 30; 25]
  /\ Forall (fun z => Z.abs z < 2 ^ 1023) [20; 30; 25]
  /\ exists line,
      compute_average_age (healthy rows)
      = ([Acquire Connection; Acquire Cursor; Execute SelectAges;
          Release Cursor; Release Connection; Stdout (Text line)], Ok tt)
      /\ (exists avg,
            truediv (total [20; 30; 25]) (Z.of_nat (length [20; 30; 25]))
            = Ok avg
            /\ line = ("Average age of users: " ++ format_2f avg)%string)
      /\ exists h,
          0 <= h
          /\ nearest_hundredths (Z.abs (total [20; 30; 25]))
                                (Z.of_nat (length [20; 30; 25])) h
          /\ line = ("Average age of users: "
                     ++ two_decimals (total [20; 30; 25] <? 0)%Z h)%string.
Proof.
  intros rows.
  assert (H1 : Forall2 (fun row z => int (age row) = Ok z) rows [20; 30; 25])
    by (repeat constructor).
  assert (H2 : Forall (fun z => Z.abs z < 2 ^ 1023) [20; 30; 25])
    by (repeat constructor).
  split; [exact H1 |]. split; [exact H2 |].
  destruct (proj1 (compute_average_age_reports rows [20; 30; 25] H1 H2))
    as (line & Hrun & Havg & Hmean).
  exists line. split; [exact Hrun |]. split; [exact Havg |].
  apply Hmean. reflexivity.
Defined.

(* ===================================================================== *)
(** * Instances of C1 and C2 *)
(* ===================================================================== *)

(** C1 on three rows and batches of two. *)
Lemma stream_users_in_batches_partition_witness :
  let rows := [user_aged (VInt 20); user_aged (VStr "30"); user_aged (VStr "n/a")] in
  let tr := [Acquire Connection; Acquire Cursor; Execute SelectUsers;
             Release Cursor; Release Connection] in
  let users := [user_aged (VInt 20); user_aged (VInt 30); user_aged (VStr "n/a")] in
  0 < 2
  /\ to_list (iterate (stream_users (healthy rows))) = (tr, Ok users)
  /\ exists batches,
      to_list (iterate (stream_users_in_batches (healthy rows) 2))
      = (tr, Ok batches)
      /\ concat batches = users
      /\ Forall (fun b => Z.of_nat (length b) = 2) (removelast batches)
      /\ Forall (fun b => b <> []) batches
      /\ Forall (fun b => Z.of_nat (length b) <= 2) batches.
Proof.
  intros rows tr users.
  split; [reflexivity |]. split; [reflexivity |].
  apply (stream_users_in_batches_partition (healthy rows) 2 tr users);
    reflexivity.
Defined.

(** C2 on three rows and pages of two. *)
Lemma lazy_pagination_pages_witness :
  let rows := [user_aged (VInt 20); user_aged (VInt 30); user_aged (VInt 25)] in
  0 < 2
  /\ exists (n : nat) (tr : list event),
      to_list (iterate (lazy_pagination (healthy rows) 2))
      = (tr, Ok (map (page_at rows 2) (seq 0 n)))
      /\ executed tr
         = map (fun i => SelectPage 2 (Z.of_nat i * 2)) (seq 0 (S n))
      /\ (forall i, (i < n)%nat -> page_at rows 2 i <> [])
      /\ page_at rows 2 n = []
      /\ Forall (fun page => Z.of_nat (length page) = 2)
                (removelast (map (page_at rows 2) (seq 0 n))).
Proof.
  intros rows. split; [reflexivity |].
  apply (lazy_pagination_pages rows 2). reflexivity.
Defined.

(* ===================================================================== *)
(** * Consumers that stop early *)
(* ===================================================================== *)

Lemma stream_users_rows_take_values (rows : list record) (err : option Z)
    (k : nat) (tr : list event) :
  take k (Suspended (stream_users_finally (Some Connection) (Some Cursor))
            (stream_users_rows Connection Cursor rows err)) tr
  = (map normalize_age (firstn k rows), ended k (length rows) err,
     tr ++ [Release Cursor; Release Connection]).
Proof.
  revert k; induction rows as [| row rows IH]; intros [| k];
    try reflexivity.
  - destruct err; cbn; now rewrite <- app_assoc.
  - cbn [take next stream_users_rows resume]. rewrite IH. reflexivity.
Qed.

(** [stream_users], asked for [k + 1] values by a consumer that then closes
    it, against a store that accepts the connection, the cursor and the
    statement: the consumer gets the [k + 1] first rows the cursor
    delivers (fewer if the cursor ends or fails before), with their ages
    normalized, and the cursor and the connection have been closed, in that
    order, however the iteration ended. *)
Theorem stream_users_take (db : store) (k : nat) :
  connect_error db = None -> cursor_error db = None ->
  execute_error db = None ->
  take (S k) (Created (stream_users_body db)) []
  = (map normalize_age (firstn (S k) (fst (delivered db (table db)))),
     ended (S k) (length (fst (delivered db (table db))))
           (snd (delivered db (table db))),
     [Acquire Connection; Acquire Cursor; Execute SelectUsers;
      Release Cursor; Release Connection]).
Proof.
  intros Hc Hk He.
  rewrite stream_users_body_started by assumption.
  rewrite (take_emits k _ (stream_users_finally (Some Connection) (Some Cursor))).
  rewrite stream_users_rows_take_values. reflexivity.
Qed.

(** On a table of three rows, a consumer that stops after one. *)
Lemma stream_users_take_witness :
  let rows := [user_aged (VStr "41"); user_aged (VInt 30); user_aged VNone] in
  connect_error (healthy rows) = None
  /\ cursor_error (healthy rows) = None
  /\ execute_error (healthy rows) = None
  /\ take 1 (Created (stream_users_body (healthy rows))) []
     = ([user_aged (VInt 41)], None,
        [Acquire Connection; Acquire Cursor; Execute SelectUsers;
         Release Cursor; Release Connection]).
Proof.
  intros rows. repeat (split; [reflexivity |]).
  exact (stream_users_take (healthy rows) 0 eq_refl eq_refl eq_refl).
Defined.

Lemma stream_user_ages_rows_take (rows : list record) (ages : list Z)
    (k : nat) (tr : list event) :
  Forall2 (fun row z => int (age row) = Ok z) rows ages ->
  take k (Suspended []
            (stream_user_ages_rows (Some Connection) Cursor rows None)) tr
  = (firstn k ages, ended k (length rows) None,
     tr ++ if (k <=? length rows)%nat then []
           else [Release Cursor; Release Connection]).
Proof.
  intros Hages; revert k;
    induction Hages as [| row z rows ages Hz _ IH]; intros [| k].
  - cbn. now rewrite app_nil_r.
  - cbn. now rewrite <- app_assoc.
  - cbn. now rewrite app_nil_r.
  - cbn [take next stream_user_ages_rows]. rewrite Hz. cbn [resume].
    rewrite IH. reflexivity.
Qed.

(** [stream_user_ages], asked for [k + 1] values by a consumer that then
    closes it, against a store that does not fail and whose ages [int]
    reads: the consumer gets the [k + 1] first ages; the cursor and the
    connection are closed only if it asked for more values than there are
    rows.  A consumer that stops at the last age or before leaves both
    open. *)
Theorem stream_user_ages_take (rows : list record) (ages : list Z) (k : nat) :
  Forall2 (fun row z => int (age row) = Ok z) rows ages ->
  take (S k) (Created (stream_user_ages_body (healthy rows))) []
  = (firstn (S k) ages, ended (S k) (length rows) None,
     [Acquire Connection; Acquire Cursor; Execute SelectAges]
     ++ if (S k <=? length rows)%nat then []
        else [Release Cursor; Release Connection]).
Proof.
  intros Hages.
  change (stream_user_ages_body (healthy rows))
    with (emits [Acquire Connection; Acquire Cursor; Execute SelectAges]
            (stream_user_ages_rows (Some Connection) Cursor rows None)).
  rewrite (take_emits k _ []).
  apply (stream_user_ages_rows_take rows ages (S k) _ Hages).
Qed.

(** Two ages, and a consumer that asks for exactly two values. *)
Lemma stream_user_ages_take_witness :
  let rows := [user_aged (VDecimal 20 0); user_aged (VStr "30")] in
  Forall2 (fun row z => int (age row) = Ok z) rows [20; 30]
  /\ take 2 (Created (stream_user_ages_body (healthy rows))) []
     = ([20; 30], None,
        [Acquire Connection; Acquire Cursor; Execute SelectAges]).
Proof.
  intros rows.
  assert (H : Forall2 (fun row z => int (age row) = Ok z) rows [20; 30])
    by (repeat constructor).
  split; [exact H |].
  exact (stream_user_ages_take rows [20; 30] 1 H).
Defined.

(* ===================================================================== *)
(** * More on batches *)
(* ===================================================================== *)

Section MoreBatches.
Variable batch_size : Z.
Hypothesis batch_size_pos : 0 < batch_size.

(** What the loop has yielded is a prefix of what it has read; what is
    missing is the buffer it was filling when the source raised, which is
    shorter than a batch. *)
Lemma batches_prefix (users : gen record) (batch : list record) :
  Z.of_nat (length batch) < batch_size ->
  exists lost,
    concat (yields (batches batch_size batch users)) ++ lost
    = batch ++ yields users
    /\ Z.of_nat (length lost) < batch_size
    /\ (final users = Ok tt -> lost = []).
Proof.
  revert batch; induction users as [e k IH | y c k IH | | e];
    intros batch Hshort; simpl.
  - now apply IH.
  - destruct (_ >=? _) eqn:Hfull.
    + destruct (IH [] ltac:(simpl; lia)) as (lost & Hcat & Hlen & Hend).
      exists lost. cbn [yields concat]. rewrite <- !app_assoc, Hcat.
      auto.
    + rewrite Z.geb_leb in Hfull. apply Z.leb_gt in Hfull.
      destruct (IH (batch ++ [y]) Hfull) as (lost & Hcat & Hlen & Hend).
      exists lost. rewrite Hcat, <- app_assoc. auto.
  - exists []. destruct batch; simpl; rewrite ?app_nil_r; repeat split; lia.
  - exists batch. simpl. rewrite app_nil_r. repeat split; [exact Hshort |].
    discriminate.
Qed.

(** When the source raises, the short batch is never yielded. *)
Lemma batches_full_on_error (users : gen record) (batch : list record)
    (e : exn) :
  final users = Err e ->
  Z.of_nat (length batch) < batch_size ->
  Forall (fun b => Z.of_nat (length b) = batch_size)
         (yields (batches batch_size batch users)).
Proof.
  revert batch; induction users as [e' k IH | y c k IH | | e'];
    intros batch Hend Hshort; simpl in *.
  - now apply IH.
  - destruct (_ >=? _) eqn:Hfull.
    + cbn [yields]. constructor; [| apply IH; [exact Hend | simpl; lia]].
      apply Z.geb_le in Hfull. rewrite length_app in *. simpl in *. lia.
    + rewrite Z.geb_leb in Hfull. apply Z.leb_gt in Hfull. now apply IH.
  - discriminate Hend.
  - constructor.
Qed.

(** The number of batches of a source that ends normally. *)
Lemma batches_count (users : gen record) (batch : list record) :
  final users = Ok tt ->
  Z.of_nat (length batch) < batch_size ->
  Z.of_nat (length (yields (batches batch_size batch users)))
  = (Z.of_nat (length batch) + Z.of_nat (length (yields users))
     + batch_size - 1) / batch_size.
Proof.
  revert batch; induction users as [e k IH | y c k IH | | e];
    intros batch Hend Hshort; cbn [batches yields final] in *.
  - now apply IH.
  - destruct (_ >=? _) eqn:Hfull.
    + cbn [yields length]. rewrite !Nat2Z.inj_succ.
      rewrite (IH [] Hend) by (cbn [length]; lia).
      apply Z.geb_le in Hfull. rewrite length_app in Hfull.
      cbn [length] in Hfull. rewrite Nat2Z.inj_add in Hfull.
      change (Z.of_nat (length (@nil record))) with 0.
      change (Z.of_nat 1) with 1 in Hfull.
      set (n := Z.of_nat (length (yields k))) in *.
      set (m := Z.of_nat (length batch)) in *.
      replace (m + Z.succ n + batch_size - 1)
        with (0 + n + batch_size - 1 + 1 * batch_size) by lia.
      rewrite Z.div_add by lia. lia.
    + rewrite Z.geb_leb in Hfull. apply Z.leb_gt in Hfull.
      rewrite (IH _ Hend Hfull). rewrite length_app. cbn [length].
      f_equal. lia.
  - destruct batch as [| u batch]; cbn [yields length].
    + rewrite Z.div_small by lia. reflexivity.
    + cbn [length] in Hshort.
      apply Z.div_unique with (r := Z.of_nat (S (length batch)) - 1); lia.
  - discriminate Hend.
Qed.
End MoreBatches.

(** [stream_users_in_batches] over a run of [stream_users] that ends
    normally with [n] records, for a positive [batch_size]: the number of
    batches is [n / batch_size] rounded up, and every batch holds at least
    one record and at most [batch_size]. *)
Theorem stream_users_in_batches_count
    (db : store) (batch_size : Z) (tr : list event) (users : list record) :
  0 < batch_size ->
  to_list (iterate (stream_users db)) = (tr, Ok users) ->
  exists batches,
    to_list (iterate (stream_users_in_batches db batch_size)) = (tr, Ok batches)
    /\ Z.of_nat (length batches)
       = (Z.of_nat (length users) + batch_size - 1) / batch_size
    /\ Forall (fun b => 1 <= Z.of_nat (length b) <= batch_size) batches.
Proof.
  intros Hpos Hup.
  apply to_list_ok in Hup as (Heff & Hfin & Hys).
  unfold stream_users_in_batches, generator, ret, stream_users_in_batches_body.
  destruct (Z.leb_spec batch_size 0) as [Hle | _]; [lia |].
  cbn [iterate call emits] in *.
  eexists; split; [apply to_list_ok; split; [| split; [| reflexivity]] |].
  - rewrite batches_effects. exact Heff.
  - rewrite batches_final. exact Hfin.
  - split.
    + rewrite batches_count by (assumption || (simpl; lia)).
      rewrite Hys. reflexivity.
    + apply batches_bounded; simpl; lia.
Qed.

(** Five rows in batches of two make three batches. *)
Lemma stream_users_in_batches_count_witness :
  let rows := map (fun z => user_aged (VInt z)) [20; 30; 40; 50; 60] in
  let tr := [Acquire Connection; Acquire Cursor; Execute SelectUsers;
             Release Cursor; Release Connection] in
  0 < 2
  /\ to_list (iterate (stream_users (healthy rows))) = (tr, Ok rows)
  /\ exists batches,
      to_list (iterate (stream_users_in_batches (healthy rows) 2))
      = (tr, Ok batches)
      /\ Z.of_nat (length batches) = (Z.of_nat (length rows) + 2 - 1) / 2
      /\ Forall (fun b => 1 <= Z.of_nat (length b) <= 2) batches.
Proof.
  intros rows tr. split; [reflexivity |]. split; [reflexivity |].
  apply (stream_users_in_batches_count (healthy rows) 2 tr rows); reflexivity.
Defined.

(** [stream_users_in_batches] over a run of [stream_users] that the store
    makes fail, for a positive [batch_size]: the same error reaches the
    consumer; every batch yielded before is full; the records read after
    the last full batch are lost with the buffer, fewer than [batch_size]
    of them. *)
Theorem stream_users_in_batches_on_failure
    (db : store) (batch_size : Z) (e : exn) :
  0 < batch_size ->
  final (iterate (stream_users db)) = Err e ->
  let g := iterate (stream_users_in_batches db batch_size) in
  final g = Err e
  /\ Forall (fun b => Z.of_nat (length b) = batch_size) (yields g)
  /\ exists lost,
      concat (yields g) ++ lost = yields (iterate (stream_users db))
      /\ Z.of_nat (length lost) < batch_size.
Proof.
  intros Hpos Hfin.
  unfold stream_users_in_batches, generator, ret, stream_users_in_batches_body.
  destruct (Z.leb_spec batch_size 0) as [Hle | _]; [lia |].
  cbn [iterate call emits] in *.
  split; [rewrite batches_final; exact Hfin |].
  split; [apply (batches_full_on_error batch_size Hpos _ _ e Hfin); simpl; lia |].
  destruct (batches_prefix batch_size Hpos (stream_users_body db) [])
    as (lost & Hcat & Hlen & _); [simpl; lia |].
  exists lost. auto.
Qed.

(** Five rows, the connection lost after the third, batches of two: one
    batch comes out and the third record is lost. *)
Lemma stream_users_in_batches_on_failure_witness :
  let rows := map (fun z => user_aged (VInt z)) [20; 30; 40; 50; 60] in
  let g := iterate (stream_users_in_batches (dropping 3 rows) 2) in
  0 < 2
  /\ final (iterate (stream_users (dropping 3 rows))) = Err (StoreError 2013)
  /\ yields g = [[user_aged (VInt 20); user_aged (VInt 30)]]
  /\ final g = Err (StoreError 2013)
  /\ Forall (fun b => Z.of_nat (length b) = 2) (yields g)
  /\ exists lost,
      concat (yields g) ++ lost
      = yields (iterate (stream_users (dropping 3 rows)))
      /\ Z.of_nat (length lost) < 2.
Proof.
  intros rows g. split; [reflexivity |]. split; [reflexivity |].
  split; [reflexivity |].
  apply (stream_users_in_batches_on_failure (dropping 3 rows) 2
           (StoreError 2013)); reflexivity.
Defined.

(* ===================================================================== *)
(** * [batch_processing] from end to end *)
(* ===================================================================== *)

Lemma stdout_app (tr tr' : list event) :
  stdout (tr ++ tr') = stdout tr ++ stdout tr'.
Proof. apply flat_map_app. Qed.

Lemma acquisitions_app (tr tr' : list event) :
  acquisitions (tr ++ tr') = (acquisitions tr + acquisitions tr')%nat.
Proof. unfold acquisitions. now rewrite filter_app, length_app. Qed.

Lemma releases_app (tr tr' : list event) :
  releases (tr ++ tr') = (releases tr + releases tr')%nat.
Proof. unfold releases. now rewrite filter_app, length_app. Qed.

Lemma printed_app (l l' : list record) :
  printed (l ++ l') = printed l ++ printed l'.
Proof. apply flat_map_app. Qed.

(** What the printing loop adds to a trace. *)
Lemma print_users_trace (users : list record) :
  let tr := flat_map (fun u => [Stdout (Row u); Stdout Blank]) users in
  stdout tr = printed users /\ acquisitions tr = 0%nat /\ releases tr = 0%nat.
Proof.
  induction users as [| u users (Hs & Ha & Hr)]; [repeat split |].
  cbn [flat_map]. cbv zeta.
  rewrite stdout_app, acquisitions_app, releases_app, Hs, Ha, Hr.
  repeat split.
Qed.

Lemma process_batch_numeric (batch : list record) :
  Forall (fun u => compared_age u <> None) batch ->
  process_batch batch
  = (flat_map (fun u => [Stdout (Row u); Stdout Blank])
              (filter exceeds_25 batch), Ok tt).
Proof.
  intros Hnum. unfold process_batch. rewrite (filtered_numeric batch Hnum).
  cbn [bind]. now rewrite print_users_prints.
Qed.

(** The loop over the batches, for a source that prints nothing itself and
    yields numeric ages only. *)
Lemma batch_loop_run (g : gen (list record)) :
  Forall (Forall (fun u => compared_age u <> None)) (yields g) ->
  stdout (effects g) = [] ->
  let r := for_each g (fun _ batch => process_batch batch) tt in
  snd r = final g
  /\ stdout (fst r) = printed (filter exceeds_25 (concat (yields g)))
  /\ acquisitions (fst r) = acquisitions (effects g)
  /\ releases (fst r) = releases (effects g).
Proof.
  induction g as [e k IH | batch c k IH | | e]; intros Hnum Hquiet;
    cbn [yields effects final for_each] in *.
  - change (e :: effects k) with ([e] ++ effects k) in Hquiet.
    rewrite stdout_app in Hquiet.
    apply app_eq_nil in Hquiet as [He Hk].
    destruct (IH Hnum Hk) as (Hr & Hs & Ha & Hl).
    cbv zeta. cbn [bind emit].
    destruct (for_each k _ tt) as [evs r]. cbn [fst snd] in *.
    change (e :: effects k) with ([e] ++ effects k).
    rewrite stdout_app, !acquisitions_app, !releases_app, He, Hs, Ha, Hl.
    auto.
  - inversion Hnum as [| ? ? Hb Hrest]; subst.
    destruct (IH Hrest Hquiet) as (Hr & Hs & Ha & Hl).
    cbv zeta. rewrite (process_batch_numeric batch Hb). cbn [bind].
    destruct (print_users_trace (filter exceeds_25 batch)) as (Ps & Pa & Pl).
    destruct (for_each k _ tt) as [evs r]. cbn [fst snd concat] in *.
    rewrite stdout_app, acquisitions_app, releases_app, Ps, Pa, Pl, Hs, Ha, Hl.
    rewrite filter_app, printed_app. auto.
  - repeat split.
  - repeat split.
Qed.

(** [stream_users] prints nothing. *)
Lemma stream_users_quiet (db : store) :
  stdout (effects (stream_users_body db)) = [].
Proof.
  session_stages db.
  4: { rewrite stream_users_body_started by assumption.
       autorewrite with runs. now rewrite stream_users_rows_effects. }
  all: stream_users_stops; reflexivity.
Qed.

(** A run of [batch_processing] for a positive [batch_size] over records
    with numeric ages: it ends as [stream_users] ends, it has printed the
    records over 25 of the batches it was given, and the releases match
    the acquisitions. *)
Lemma batch_processing_trace (db : store) (batch_size : Z) :
  0 < batch_size ->
  Forall (fun u => compared_age u <> None) (yields (stream_users_body db)) ->
  let r := batch_processing db batch_size in
  snd r = final (stream_users_body db)
  /\ stdout (fst r)
     = printed (filter exceeds_25
                  (concat (yields (batches batch_size []
                                           (stream_users_body db)))))
  /\ acquisitions (fst r) = releases (fst r).
Proof.
  intros Hpos Hnum.
  unfold batch_processing, stream_users_in_batches, generator, ret,
    stream_users_in_batches_body.
  destruct (Z.leb_spec batch_size 0) as [Hle | _]; [lia |].
  cbn [iterate call emits stream_users generator ret].
  destruct (batches_prefix batch_size Hpos (stream_users_body db) [])
    as (lost & Hcat & _); [simpl; lia |].
  destruct (batch_loop_run (batches batch_size [] (stream_users_body db)))
    as (Hr & Hs & Ha & Hl).
  - apply Forall_concat. cbn [app] in Hcat. rewrite <- Hcat in Hnum.
    now apply Forall_app in Hnum as [Hnum _].
  - rewrite batches_effects. apply stream_users_quiet.
  - rewrite batches_final, batches_effects in *.
    destruct (stream_users_run db) as [_ Hbal].
    split; [exact Hr |]. split; [exact Hs |]. congruence.
Qed.

(** [batch_processing] against a store that does not fail, over rows
    whose ages are numeric once [stream_users] has normalized them, for
    any positive [batch_size]: it raises nothing; it prints, in the order
    of the table, the normalized records whose age exceeds 25, each
    followed by an empty line; and what it prints does not depend on
    [batch_size].  The cursor and the connection are released. *)
Theorem batch_processing_prints (rows : list record) (batch_size : Z) :
  0 < batch_size ->
  Forall (fun row => compared_age (normalize_age row) <> None) rows ->
  let r := batch_processing (healthy rows) batch_size in
  snd r = Ok tt
  /\ stdout (fst r) = printed (filter exceeds_25 (map normalize_age rows))
  /\ acquisitions (fst r) = releases (fst r).
Proof.
  intros Hpos Hnum.
  assert (Hy : yields (stream_users_body (healthy rows))
               = map normalize_age rows).
  { rewrite (stream_users_body_started (healthy rows)) by reflexivity.
    autorewrite with runs. apply stream_users_rows_yields. }
  assert (Hf : final (stream_users_body (healthy rows)) = Ok tt).
  { rewrite (stream_users_body_started (healthy rows)) by reflexivity.
    autorewrite with runs. apply stream_users_rows_final. }
  destruct (batch_processing_trace (healthy rows) batch_size Hpos)
    as (Hr & Hs & Hb).
  - rewrite Hy. now apply Forall_map.
  - cbv zeta. rewrite Hr, Hs, Hf.
    rewrite (batches_concat batch_size _ [] Hf), Hy. auto.
Qed.

(** Four rows, read in batches of three. *)
Lemma batch_processing_prints_witness :
  let rows := [user_aged (VInt 20); user_aged (VStr "26.7");
               user_aged (VDecimal 31 0); user_aged (VStr " 40 ")] in
  let r := batch_processing (healthy rows) 3 in
  0 < 3
  /\ Forall (fun row => compared_age (normalize_age row) <> None) rows
  /\ snd r = Ok tt
  /\ stdout (fst r)
     = [Row (user_aged (VStr "26.7")); Blank;
        Row (user_aged (VInt 31)); Blank;
        Row (user_aged (VInt 40)); Blank]
  /\ acquisitions (fst r) = releases (fst r).
Proof.
  intros rows r.
  assert (H : Forall (fun row => compared_age (normalize_age row) <> None) rows)
    by (repeat constructor; discriminate).
  split; [reflexivity |]. split; [exact H |].
  exact (batch_processing_prints rows 3 eq_refl H).
Defined.

(** [batch_processing] when the store fails, for a positive [batch_size]
    and numeric ages: the error of the store ends the operation; the
    records printed are the ones over 25 of the full batches read before
    the failure; the releases match the acquisitions. *)
Theorem batch_processing_on_failure
    (db : store) (batch_size : Z) (errno : Z) :
  0 < batch_size ->
  store_failure db = Some errno ->
  Forall (fun u => compared_age u <> None) (yields (stream_users_body db)) ->
  let r := batch_processing db batch_size in
  let read := yields (iterate (stream_users_in_batches db batch_size)) in
  snd r = Err (StoreError errno)
  /\ stdout (fst r) = printed (filter exceeds_25 (concat read))
  /\ Forall (fun b => Z.of_nat (length b) = batch_size) read
  /\ acquisitions (fst r) = releases (fst r).
Proof.
  intros Hpos Hfail Hnum.
  destruct (stream_users_run db) as [Hfin _]. rewrite Hfail in Hfin.
  destruct (batch_processing_trace db batch_size Hpos Hnum) as (Hr & Hs & Hb).
  cbv zeta. rewrite Hr, Hs, Hfin.
  unfold stream_users_in_batches, generator, ret, stream_users_in_batches_body.
  destruct (Z.leb_spec batch_size 0) as [Hle | _]; [lia |].
  cbn [iterate call emits stream_users generator ret].
  repeat split; try assumption.
  apply (batches_full_on_error batch_size Hpos _ _ _ Hfin). simpl; lia.
Qed.

(** Five rows in batches of two, the connection lost after the third row:
    the first batch is printed, the third record is not. *)
Lemma batch_processing_on_failure_witness :
  let rows := map (fun z => user_aged (VInt z)) [20; 30; 40; 50; 60] in
  let r := batch_processing (dropping 3 rows) 2 in
  0 < 2
  /\ store_failure (dropping 3 rows) = Some 2013
  /\ snd r = Err (StoreError 2013)
  /\ stdout (fst r) = [Row (user_aged (VInt 30)); Blank]
  /\ acquisitions (fst r) = releases (fst r).
Proof.
  intros rows r.
  assert (H : Forall (fun u => compared_age u <> None)
                (yields (stream_users_body (dropping 3 rows))))
    by (repeat constructor; discriminate).
  destruct (batch_processing_on_failure (dropping 3 rows) 2 2013
              eq_refl eq_refl H) as (Hr & Hs & _ & Hb).
  split; [reflexivity |]. split; [reflexivity |].
  split; [exact Hr |]. split; [exact Hs | exact Hb].
Defined.

(* ===================================================================== *)
(** * An age that cannot be converted (C4) *)
(* ===================================================================== *)

Lemma over_25_conversion_error (u : record) (e : exn) :
  conversion_error u = Some e -> over_25 u = Err e.
Proof.
  unfold conversion_error, over_25.
  destruct (isinstance_int (age u)); [discriminate |]. cbn [andb negb].
  destruct (float (age u)) as [f | e']; [| now intros [= ->]].
  destruct (int (VFloat f)) as [z | e']; [discriminate | now intros [= ->]].
Qed.

(** The comprehension raises at the first age it cannot convert. *)
Lemma filtered_raises (pre : list record) (bad : record)
    (post : list record) (e : exn) :
  Forall (fun u => compared_age u <> None) pre ->
  conversion_error bad = Some e ->
  filtered (pre ++ bad :: post) = Err e.
Proof.
  intros Hpre Hbad. induction Hpre as [| u pre Hu _ IH]; cbn [app filtered].
  - now rewrite (over_25_conversion_error bad e Hbad).
  - destruct (compared_age u) as [z |] eqn:Hz; [| contradiction].
    now rewrite (over_25_compared u z Hz), IH.
Qed.

(** A decimal is always read by [int], so that [stream_users] turns it
    into an [int], which the filter compares as it is. *)
Lemma decimal_is_compared (row : record) (c x : Z) :
  age row = VDecimal c x -> compared_age (normalize_age row) <> None.
Proof.
  intros H. unfold normalize_age. rewrite H. cbn. discriminate.
Qed.

Section Malformed.
Variable batch_size : nat.
Hypothesis batch_size_pos : (0 < batch_size)%nat.
Variable bad : record.
Variable e : exn.
Hypothesis bad_raises : conversion_error bad = Some e.

(** The record is in the buffer: the batch that takes it raises. *)
Lemma batches_raise_buffered (users : gen record) (pre post : list record) :
  Forall (fun u => compared_age u <> None) pre ->
  final users = Ok tt ->
  stdout (effects users) = [] ->
  let r := for_each (batches (Z.of_nat batch_size) (pre ++ bad :: post) users)
                    (fun _ batch => process_batch batch) tt in
  snd r = Err e /\ stdout (fst r) = [].
Proof.
  intros Hpre. revert post.
  induction users as [ev k IH | y c k IH | | e']; intros post Hfin Hquiet;
    cbn [batches for_each final effects] in *.
  - change (ev :: effects k) with ([ev] ++ effects k) in Hquiet.
    rewrite stdout_app in Hquiet. apply app_eq_nil in Hquiet as [Hev Hk].
    destruct (IH post Hfin Hk) as (Hr & Hs).
    cbv zeta. cbn [bind emit].
    destruct (for_each _ _ tt) as [evs r]. cbn [fst snd] in *.
    change (ev :: evs) with ([ev] ++ evs). now rewrite stdout_app, Hev, Hs.
  - rewrite <- app_assoc. cbn [app].
    destruct (_ >=? _).
    + cbn [for_each]. cbv beta zeta. unfold process_batch.
      rewrite (filtered_raises pre bad (post ++ [y]) e Hpre bad_raises).
      split; reflexivity.
    + apply (IH (post ++ [y]) Hfin Hquiet).
  - destruct (pre ++ bad :: post) eqn:Hb;
      [now apply app_eq_nil in Hb as [_ Hb] |].
    rewrite <- Hb. cbn [for_each]. cbv beta zeta. unfold process_batch.
    rewrite (filtered_raises pre bad post e Hpre bad_raises).
    split; reflexivity.
  - discriminate Hfin.
Qed.

(** The record is still to come: the full batches before it are printed,
    the batch that takes it raises. *)
Lemma batches_raise_ahead (users : gen record)
    (batch good rest : list record) :
  Forall (fun u => compared_age u <> None) (batch ++ good) ->
  (length batch < batch_size)%nat ->
  yields users = good ++ bad :: rest ->
  final users = Ok tt ->
  stdout (effects users) = [] ->
  let r := for_each (batches (Z.of_nat batch_size) batch users)
                    (fun _ batch => process_batch batch) tt in
  snd r = Err e
  /\ stdout (fst r)
     = printed (filter exceeds_25
                  (firstn (batch_size * (length (batch ++ good) / batch_size))
                          (batch ++ good))).
Proof.
  revert batch good.
  induction users as [ev k IH | y c k IH | | e'];
    intros batch good Hnum Hshort Hy Hfin Hquiet;
    cbn [batches for_each final effects yields] in *.
  - change (ev :: effects k) with ([ev] ++ effects k) in Hquiet.
    rewrite stdout_app in Hquiet. apply app_eq_nil in Hquiet as [Hev Hk].
    destruct (IH batch good Hnum Hshort Hy Hfin Hk) as (Hr & Hs).
    cbv zeta. cbn [bind emit].
    destruct (for_each _ _ tt) as [evs r]. cbn [fst snd] in *.
    change (ev :: evs) with ([ev] ++ evs). now rewrite stdout_app, Hev, Hs.
  - destruct good as [| u good]; cbn [app] in Hy; injection Hy as -> Hy.
    + rewrite app_nil_r in *.
      rewrite Nat.div_small, Nat.mul_0_r by exact Hshort. cbn [firstn filter].
      destruct (_ >=? _).
      * cbn [for_each]. cbv beta zeta. unfold process_batch.
        rewrite (filtered_raises batch bad [] e Hnum bad_raises).
        split; reflexivity.
      * apply (batches_raise_buffered k batch [] Hnum Hfin Hquiet).
    + assert (Hnum' : Forall (fun u => compared_age u <> None)
                        ((batch ++ [u]) ++ good))
        by (now rewrite <- app_assoc).
      destruct (_ >=? _) eqn:Hfull.
      * assert (Hlen : length (batch ++ [u]) = batch_size).
        { apply Z.geb_le in Hfull. rewrite length_app in *.
          cbn [length] in *. lia. }
        apply Forall_app in Hnum' as [Hb Hgood].
        destruct (IH [] good Hgood batch_size_pos Hy Hfin Hquiet)
          as (Hr & Hs).
        cbn [for_each]. cbv beta zeta.
        rewrite (process_batch_numeric (batch ++ [u]) Hb). cbn [bind].
        destruct (print_users_trace (filter exceeds_25 (batch ++ [u])))
          as (Ps & _).
        cbn [app] in Hr, Hs.
        destruct (for_each _ _ tt) as [evs r]. cbn [fst snd] in *.
        split; [exact Hr |].
        rewrite stdout_app, Ps, Hs, <- printed_app, <- filter_app.
        do 2 f_equal.
        change (batch ++ u :: good) with (batch ++ [u] ++ good).
        rewrite app_assoc.
        rewrite (length_app (batch ++ [u])), Hlen.
        replace ((batch_size + length good) / batch_size)%nat
          with (1 + length good / batch_size)%nat.
        2:{ rewrite <- (Nat.mul_1_l batch_size) at 2.
            rewrite Nat.div_add_l by lia. reflexivity. }
        rewrite Nat.mul_add_distr_l, Nat.mul_1_r.
        rewrite <- (firstn_app_2 (batch_size * (length good / batch_size))
                      (batch ++ [u]) good).
        now rewrite Hlen.
      * rewrite Z.geb_leb in Hfull. apply Z.leb_gt in Hfull.
        assert (Hshort' : (length (batch ++ [u]) < batch_size)%nat) by lia.
        destruct (IH (batch ++ [u]) good Hnum' Hshort' Hy Hfin Hquiet)
          as (Hr & Hs).
        change (batch ++ u :: good) with (batch ++ [u] ++ good).
        rewrite app_assoc. split; assumption.
  - now destruct good.
  - discriminate Hfin.
Qed.
End Malformed.

(** C4, amended.  [batch_processing] does not skip a record whose age
    cannot be converted: when the age of a row is still no [int] after
    [stream_users] and [int(float(age))] raises, that exception leaves the
    filter and ends the operation.  By then the records over 25 of the
    full batches that precede the batch of that row have been printed;
    of that batch and of what follows it, nothing is.  Over a table whose
    ages are all decimals, as the column [age DECIMAL(5,0)] delivers them,
    no age is malformed and [batch_processing] raises nothing. *)
Theorem batch_processing_stops_at_malformed_age
    (good : list record) (bad : record) (rest : list record)
    (batch_size : nat) (e : exn) :
  (0 < batch_size)%nat ->
  Forall (fun row => compared_age (normalize_age row) <> None) good ->
  conversion_error (normalize_age bad) = Some e ->
  let r := batch_processing (healthy (good ++ bad :: rest))
                            (Z.of_nat batch_size) in
  snd r = Err e
  /\ stdout (fst r)
     = printed (filter exceeds_25
                  (map normalize_age
                     (firstn (batch_size * (length good / batch_size)) good)))
  /\ (forall table : list record,
        Forall (fun row => exists c x, age row = VDecimal c x) table ->
        snd (batch_processing (healthy table) (Z.of_nat batch_size)) = Ok tt).
Proof.
  intros Hpos Hgood Hbad.
  assert (Hrun : forall table,
             yields (stream_users_body (healthy table))
             = map normalize_age table
             /\ final (stream_users_body (healthy table)) = Ok tt).
  { intros table.
    rewrite (stream_users_body_started (healthy table)) by reflexivity.
    autorewrite with runs.
    split; [apply stream_users_rows_yields | apply stream_users_rows_final]. }
  split; [| split].
  - destruct (Hrun (good ++ bad :: rest)) as (Hy & Hf).
    rewrite map_app in Hy. cbn [map] in Hy.
    destruct (batches_raise_ahead batch_size Hpos (normalize_age bad) e Hbad
                (stream_users_body (healthy (good ++ bad :: rest)))
                [] (map normalize_age good) (map normalize_age rest))
      as (Hr & _); auto.
    + cbn [app]. now apply Forall_map.
    + apply stream_users_quiet.
    + unfold batch_processing, stream_users_in_batches, generator, ret,
        stream_users_in_batches_body.
      destruct (Z.leb_spec (Z.of_nat batch_size) 0) as [Hle | _]; [lia |].
      exact Hr.
  - destruct (Hrun (good ++ bad :: rest)) as (Hy & Hf).
    rewrite map_app in Hy. cbn [map] in Hy.
    destruct (batches_raise_ahead batch_size Hpos (normalize_age bad) e Hbad
                (stream_users_body (healthy (good ++ bad :: rest)))
                [] (map normalize_age good) (map normalize_age rest))
      as (_ & Hs); auto.
    + cbn [app]. now apply Forall_map.
    + apply stream_users_quiet.
    + unfold batch_processing, stream_users_in_batches, generator, ret,
        stream_users_in_batches_body.
      destruct (Z.leb_spec (Z.of_nat batch_size) 0) as [Hle | _]; [lia |].
      cbn [app] in Hs. rewrite length_map, firstn_map in Hs. exact Hs.
  - intros table Hdec. destruct (Hrun table) as (Hy & Hf).
    destruct (batch_processing_trace (healthy table) (Z.of_nat batch_size))
      as (Hr & _); [lia | | congruence].
    rewrite Hy. apply Forall_map.
    eapply Forall_impl; [| exact Hdec].
    intros row (c & x & Hrow). exact (decimal_is_compared row c x Hrow).
Qed.

(** The amended C4 on five rows in batches of two, the fourth age being
    the text ["n/a"]: the first batch is printed, the second raises. *)
Lemma batch_processing_stops_at_malformed_age_witness :
  let good := [user_aged (VInt 20); user_aged (VDecimal 31 0);
               user_aged (VStr "47")] in
  let r := batch_processing
             (healthy (good ++ user_aged (VStr "n/a") :: [user_aged (VInt 52)]))
             2 in
  (0 < 2)%nat
  /\ Forall (fun row => compared_age (normalize_age row) <> None) good
  /\ conversion_error (normalize_age (user_aged (VStr "n/a")))
     = Some ValueError
  /\ snd r = Err ValueError
  /\ stdout (fst r) = [Row (user_aged (VInt 31)); Blank].
Proof.
  intros good r.
  assert (H : Forall (fun row => compared_age (normalize_age row) <> None)
                good) by (repeat constructor; discriminate).
  destruct (batch_processing_stops_at_malformed_age
              good (user_aged (VStr "n/a")) [user_aged (VInt 52)] 2
              ValueError (Nat.lt_0_succ 1) H eq_refl) as (Hr & Hs & _).
  split; [apply Nat.lt_0_succ |]. split; [exact H |].
  split; [reflexivity |]. split; [exact Hr | exact Hs].
Defined.

(* ===================================================================== *)
(** * More on pages *)
(* ===================================================================== *)

Lemma firstn_plus {A} (a b : nat) (l : list A) :
  firstn (a + b) l = firstn a l ++ firstn b (skipn a l).
Proof.
  revert l; induction a as [| a IH]; intros [| x l]; simpl;
    rewrite ?firstn_nil; try reflexivity.
  now rewrite IH.
Qed.

Lemma concat_pages (rows : list record) (page_size : Z) (n : nat) :
  0 <= page_size ->
  concat (map (page_at rows page_size) (seq 0 n))
  = firstn (n * Z.to_nat page_size) rows.
Proof.
  intros Hps. induction n as [| n IH]; [reflexivity |].
  rewrite seq_S, map_app, concat_app, IH. cbn [map concat plus].
  rewrite app_nil_r. unfold page_at.
  replace (Z.to_nat (Z.of_nat n * page_size))
    with (n * Z.to_nat page_size)%nat by nia.
  rewrite <- firstn_plus. f_equal. lia.
Qed.

Lemma fetch_events_counts (page_size : Z) (l : list nat) :
  acquisitions (flat_map (fetch_events page_size) l) = (2 * length l)%nat
  /\ releases (flat_map (fetch_events page_size) l) = (2 * length l)%nat.
Proof.
  induction l as [| i l [Ha Hr]]; [split; reflexivity |].
  cbn [flat_map length]. rewrite acquisitions_app, releases_app, Ha, Hr.
  split; cbn; lia.
Qed.

(** [lazy_pagination] against a store that does not fail, for a positive
    [page_size]: the pages put end to end are the table, row for row; their
    number [n] is the number of rows divided by [page_size], rounded up;
    the run is [n + 1] sessions one after the other, each of which opens a
    connection and a cursor, sends one query and closes both. *)
Theorem lazy_pagination_covers (rows : list record) (page_size : Z) :
  0 < page_size ->
  exists (n : nat) (pages : list (list record)),
    to_list (iterate (lazy_pagination (healthy rows) page_size))
    = (flat_map (fetch_events page_size) (seq 0 (S n)), Ok pages)
    /\ concat pages = rows
    /\ length pages = n
    /\ Z.of_nat n = (Z.of_nat (length rows) + page_size - 1) / page_size
    /\ acquisitions (flat_map (fetch_events page_size) (seq 0 (S n)))
       = (2 * (n + 1))%nat
    /\ releases (flat_map (fetch_events page_size) (seq 0 (S n)))
       = (2 * (n + 1))%nat.
Proof.
  intros Hpos.
  destruct (lazy_pagination_loop_from rows page_size Hpos (length rows) 0)
    as (n & Hy & He & Hf & Hne & Hlast); [lia |].
  exists n, (map (page_at rows page_size) (seq 0 n)).
  assert (Hn : Z.of_nat (length rows) <= Z.of_nat n * page_size).
  { destruct (Z.le_gt_cases (Z.of_nat (length rows)) (Z.of_nat n * page_size))
      as [H | H]; [exact H |].
    apply (page_at_nonempty rows page_size Hpos) in H.
    exfalso. apply H. exact Hlast. }
  split; [| split; [| split; [| split]]].
  - apply to_list_ok. unfold lazy_pagination, lazy_pagination_body.
    cbn [iterate generator ret call emits]. auto.
  - rewrite concat_pages by lia. apply firstn_all2. nia.
  - now rewrite length_map, length_seq.
  - destruct n as [| n].
    + rewrite Z.div_small by lia. reflexivity.
    + assert (Hprev : page_at rows page_size n <> []) by (apply Hne; lia).
      apply (page_at_nonempty rows page_size Hpos) in Hprev.
      apply Z.div_unique
        with (r := Z.of_nat (length rows) + page_size - 1
                   - Z.of_nat (S n) * page_size); lia.
  - destruct (fetch_events_counts page_size (seq 0 (S n))) as [Ha Hr].
    rewrite Ha, Hr, length_seq. split; f_equal; lia.
Qed.

(** Five rows in pages of two. *)
Lemma lazy_pagination_covers_witness :
  let rows := map (fun z => user_aged (VInt z)) [20; 30; 40; 50; 60] in
  0 < 2
  /\ exists (n : nat) (pages : list (list record)),
      to_list (iterate (lazy_pagination (healthy rows) 2))
      = (flat_map (fetch_events 2) (seq 0 (S n)), Ok pages)
      /\ concat pages = rows
      /\ length pages = n
      /\ Z.of_nat n = (Z.of_nat (length rows) + 2 - 1) / 2
      /\ acquisitions (flat_map (fetch_events 2) (seq 0 (S n)))
         = (2 * (n + 1))%nat
      /\ releases (flat_map (fetch_events 2) (seq 0 (S n)))
         = (2 * (n + 1))%nat.
Proof.
  intros rows. split; [reflexivity |].
  apply (lazy_pagination_covers rows 2). reflexivity.
Defined.

(** [lazy_pagination] for a [page_size] that is not positive, against a
    store that does not fail: no page is yielded and one query is sent.
    With [page_size = 0] the query returns no row and the iteration ends
    normally, the session closed; with a negative [page_size] the server
    rejects the statement, the error reaches the consumer, and the cursor
    and the connection of that session are left open. *)
Theorem lazy_pagination_without_pages (rows : list record) (page_size : Z) :
  page_size <= 0 ->
  let g := iterate (lazy_pagination (healthy rows) page_size) in
  yields g = []
  /\ executed (effects g) = [SelectPage page_size 0]
  /\ (page_size = 0 ->
      to_list g
      = ([Acquire Connection; Acquire Cursor; Execute (SelectPage 0 0);
          Release Cursor; Release Connection], Ok []))
  /\ (page_size < 0 ->
      to_list g
      = ([Acquire Connection; Acquire Cursor;
          Execute (SelectPage page_size 0)], Err (StoreError syntax_error))).
Proof.
  intros Hle. unfold lazy_pagination, lazy_pagination_body.
  cbn [iterate generator ret call emits]. cbv zeta.
  rewrite lazy_pagination_loop_turn.
  unfold paginate_users, execute, result_set.
  cbn [healthy connect_to_prodev connect connect_error cursor_of cursor
       cursor_error execute_error emit ret bind delivered fetch_error table
       app].
  destruct (Z.ltb_spec page_size 0) as [Hneg | Hzero].
  - cbn. repeat split; intros; lia || reflexivity.
  - assert (page_size = 0) by lia. subst page_size.
    cbn. repeat split; intros; lia || reflexivity.
Qed.

(** A page size of -1. *)
Lemma lazy_pagination_without_pages_witness :
  let g := iterate (lazy_pagination (healthy [user_aged (VInt 30)]) (-1)) in
  -1 <= 0
  /\ yields g = []
  /\ to_list g
     = ([Acquire Connection; Acquire Cursor; Execute (SelectPage (-1) 0)],
        Err (StoreError syntax_error)).
Proof.
  intros g.
  destruct (lazy_pagination_without_pages [user_aged (VInt 30)] (-1))
    as (Hy & _ & _ & Hneg); [lia |].
  split; [lia |]. split; [exact Hy |]. apply Hneg. reflexivity.
Defined.

(** [paginate_users] releases the cursor and the connection when it
    returns, and releases nothing when it raises: whatever the store does
    and whatever the arguments, a call that returns has made two
    acquisitions and two releases, and a call that raises has made no
    release at all. *)
Theorem paginate_users_releases (db : store) (page_size offset : Z) :
  match snd (paginate_users db page_size offset) with
  | Ok _ =>
      acquisitions (fst (paginate_users db page_size offset)) = 2%nat
      /\ releases (fst (paginate_users db page_size offset)) = 2%nat
  | Err _ => releases (fst (paginate_users db page_size offset)) = 0%nat
  end.
Proof.
  unfold paginate_users, connect_to_prodev, connect, cursor_of, cursor,
    execute, delivered, fetchall.
  destruct (connect_error db); [reflexivity |].
  destruct (cursor_error db); [reflexivity |].
  destruct (execute_error db); [reflexivity |].
  cbn [emit ret bind app].
  destruct (result_set db (SelectPage page_size offset)) as [rows | e];
    [| reflexivity].
  destruct (fetch_error db) as [[n errno] |];
    [destruct (n <=? length rows)%nat |]; cbn; auto.
Qed.

(* ===================================================================== *)
(** * [seed.stream_user_data] *)
(* ===================================================================== *)

Lemma stream_user_data_rows_take (rows : list record) (err : option Z)
    (k : nat) (tr : list event) :
  take k (Suspended [Release Cursor] (stream_user_data_rows rows err)) tr
  = (firstn k rows, ended k (length rows) None,
     tr ++ (if (k <=? length rows)%nat then [] else reported err)
        ++ [Release Cursor]).
Proof.
  revert k; induction rows as [| row rows IH]; intros [| k];
    try reflexivity.
  - destruct err; cbn; now rewrite <- ?app_assoc.
  - cbn [take next stream_user_data_rows resume]. rewrite IH. reflexivity.
Qed.

(** [stream_user_data] on a connection whose cursor can be opened, asked
    for [k + 1] rows by a consumer that then closes it: it never raises;
    an error of the statement, or an error of the cursor that the
    consumer has run into, is printed (one line, and nothing else is ever
    printed) and ends the stream like the end of the table; the consumer
    gets the [k + 1] first rows the cursor delivers (none when the
    statement is rejected); the cursor is closed last on every way out,
    and the connection that was passed in is never closed. *)
Theorem stream_user_data_closes_cursor (db : store) (k : nat) :
  cursor_error db = None ->
  let run := take (S k) (Created (stream_user_data_body db Connection)) [] in
  let rows := fst (delivered db (table db)) in
  let err := snd (delivered db (table db)) in
  (forall e, snd (fst run) <> Some (Raised e))
  /\ fst (fst run)
     = match execute_error db with
       | Some _ => []
       | None => firstn (S k) rows
       end
  /\ stdout (snd run)
     = match execute_error db, err with
       | Some errno, _ => [StreamFailure errno]
       | None, Some errno =>
           if (S k <=? length rows)%nat then [] else [StreamFailure errno]
       | None, None => []
       end
  /\ acquisitions (snd run) = 1%nat
  /\ releases (snd run) = 1%nat
  /\ last (snd run) (Release Connection) = Release Cursor
  /\ ~ In (Release Connection) (snd run)
  /\ final (stream_user_data_body db Connection) = Ok tt.
Proof.
  intros Hk. unfold stream_user_data_body, cursor, execute. rewrite Hk.
  cbn [emit bind ret call emits app].
  destruct (execute_error db) as [errno |].
  - cbn. repeat split; try discriminate.
    intros [H | [H | [H | []]]]; discriminate H.
  - cbn [raise result_set emit bind ret app].
    destruct (delivered db (table db)) as [rows err].
    change (Emit (Acquire Cursor)
              (emits [Execute SelectUsers] (stream_user_data_rows rows err)))
      with (emits [Acquire Cursor; Execute SelectUsers]
                  (stream_user_data_rows rows err)).
    cbv zeta. rewrite (take_emits k _ [Release Cursor]).
    rewrite stream_user_data_rows_take. cbn [fst snd app].
    assert (Hf : final (emits [Acquire Cursor; Execute SelectUsers]
                          (stream_user_data_rows rows err)) = Ok tt).
    { rewrite final_emits. clear. induction rows; simpl; [destruct err |]; auto. }
    unfold ended.
    destruct (S k <=? length rows)%nat; destruct err; cbn;
      repeat split; try discriminate; try exact Hf;
      intros H; repeat (destruct H as [H | H]; [discriminate H |]);
      exact H.
Qed.

(** Three rows, the connection lost after the second, a consumer that
    wants all of them. *)
Lemma stream_user_data_closes_cursor_witness :
  let rows := map (fun z => user_aged (VInt z)) [20; 30; 40] in
  let run := take 5 (Created (stream_user_data_body (dropping 2 rows)
                                                    Connection)) [] in
  cursor_error (dropping 2 rows) = None
  /\ run = ([user_aged (VInt 20); user_aged (VInt 30)], Some StopIteration,
            [Acquire Cursor; Execute SelectUsers; Stdout (StreamFailure 2013);
             Release Cursor])
  /\ stdout (snd run) = [StreamFailure 2013]
  /\ acquisitions (snd run) = 1%nat
  /\ releases (snd run) = 1%nat
  /\ ~ In (Release Connection) (snd run).
Proof.
  intros rows run.
  destruct (stream_user_data_closes_cursor (dropping 2 rows) 4 eq_refl)
    as (_ & _ & Hs & Ha & Hr & _ & Hn & _).
  split; [reflexivity |]. split; [reflexivity |].
  split; [exact Hs |]. split; [exact Ha |]. split; [exact Hr | exact Hn].
Defined.

(* ===================================================================== *)
(** * [compute_average_age] when the stream fails *)
(* ===================================================================== *)

(** What [stream_user_ages] does up to the first age [int] cannot read. *)
Lemma stream_user_ages_rows_unreadable
    (good : list record) (ages : list Z) (bad : record)
    (rest : list record) (e : exn) :
  Forall2 (fun row z => int (age row) = Ok z) good ages ->
  int (age bad) = Err e ->
  let g := stream_user_ages_rows (Some Connection) Cursor
                                 (good ++ bad :: rest) None in
  yields g = ages /\ effects g = [] /\ final g = Err e.
Proof.
  intros Hgood Hbad.
  induction Hgood as [| row z good ages Hz _ IH]; cbn [app stream_user_ages_rows].
  - rewrite Hbad. repeat split.
  - rewrite Hz. destruct IH as (Hy & He & Hf). cbn [yields effects final].
    rewrite Hy. auto.
Qed.

(** [compute_average_age] over a table in which [int] cannot read one of
    the ages: the exception of that conversion (for the first such row)
    ends the operation; no average and no other line is printed; the
    cursor and the connection are not released. *)
Theorem compute_average_age_unreadable
    (good : list record) (ages : list Z) (bad : record)
    (rest : list record) (e : exn) :
  Forall2 (fun row z => int (age row) = Ok z) good ages ->
  int (age bad) = Err e ->
  compute_average_age (healthy (good ++ bad :: rest))
  = ([Acquire Connection; Acquire Cursor; Execute SelectAges], Err e).
Proof.
  intros Hgood Hbad.
  destruct (stream_user_ages_rows_unreadable good ages bad rest e Hgood Hbad)
    as (Hy & He & Hf).
  unfold compute_average_age, stream_user_ages, stream_user_ages_body.
  cbn [iterate generator ret call emits connect_to_prodev connect healthy
       connect_error cursor_of cursor cursor_error execute
       execute_error emit bind result_set delivered fetch_error table app].
  unfold bind at 1. rewrite running_sum_and_count.
  cbn [effects final yields]. rewrite He, Hf. reflexivity.
Qed.

(** A [NULL] between two ages. *)
Lemma compute_average_age_unreadable_witness :
  Forall2 (fun row z => int (age row) = Ok z) [user_aged (VInt 20)] [20]
  /\ int (age (user_aged VNone)) = Err TypeError
  /\ compute_average_age
       (healthy ([user_aged (VInt 20)] ++ user_aged VNone
                 :: [user_aged (VInt 30)]))
     = ([Acquire Connection; Acquire Cursor; Execute SelectAges],
        Err TypeError).
Proof.
  assert (H : Forall2 (fun row z => int (age row) = Ok z)
                [user_aged (VInt 20)] [20]) by (repeat constructor).
  split; [exact H |]. split; [reflexivity |].
  exact (compute_average_age_unreadable [user_aged (VInt 20)] [20]
           (user_aged VNone) [user_aged (VInt 30)] TypeError H eq_refl).
Defined.

(** [compute_average_age] when the server refuses the connection:
    [connect_to_prodev] prints the failure and returns [None]; the
    operation then ends with an [AttributeError], not with the error of
    the store, and prints nothing else.  [paginate_users], and with it
    [lazy_pagination], end the same way. *)
Theorem refused_connection_is_attribute_error (db : store) (errno : Z) :
  connect_error db = Some errno ->
  compute_average_age db = ([Stdout (ConnectFailure errno)], Err AttributeError)
  /\ (forall page_size offset,
        paginate_users db page_size offset
        = ([Stdout (ConnectFailure errno)], Err AttributeError))
  /\ (forall page_size,
        to_list (iterate (lazy_pagination db page_size))
        = ([Stdout (ConnectFailure errno)], Err AttributeError)).
Proof.
  intros Hc.
  assert (Hp : forall page_size offset,
             paginate_users db page_size offset
             = ([Stdout (ConnectFailure errno)], Err AttributeError)).
  { intros. unfold paginate_users, connect_to_prodev, connect.
    rewrite Hc. reflexivity. }
  split; [| split; [exact Hp |]].
  - unfold compute_average_age, stream_user_ages, stream_user_ages_body,
      connect_to_prodev, connect.
    rewrite Hc. reflexivity.
  - intros page_size. unfold lazy_pagination, lazy_pagination_body.
    cbn [iterate generator ret call emits].
    rewrite lazy_pagination_loop_turn, Hp. reflexivity.
Qed.

Lemma refused_connection_is_attribute_error_witness :
  connect_error (refusing [user_aged (VInt 30)]) = Some 2003
  /\ compute_average_age (refusing [user_aged (VInt 30)])
     = ([Stdout (ConnectFailure 2003)], Err AttributeError).
Proof.
  split; [reflexivity |].
  exact (proj1 (refused_connection_is_attribute_error
                  (refusing [user_aged (VInt 30)]) 2003 eq_refl)).
Defined.

(* ===================================================================== *)
(** * The fields of a row, cleaned *)
(* ===================================================================== *)

Section Cleaning.
Import Seeding.

Lemma isspace_spec (c : ascii) : isspace c = true <-> ascii_space c.
Proof.
  unfold isspace, ascii_space. cbn [In].
  set (n := nat_of_ascii c). clearbody n.
  rewrite orb_true_iff, !andb_true_iff, !Nat.leb_le. split; intros H; lia.
Qed.

Lemma lstrip_spaces_spec (l : list ascii) :
  exists pre,
    l = pre ++ lstrip_spaces l
    /\ Forall ascii_space pre
    /\ (forall c rest, lstrip_spaces l = c :: rest -> ~ ascii_space c).
Proof.
  induction l as [| c l (pre & Hl & Hpre & Hfirst)].
  - exists []. repeat split; [constructor | discriminate].
  - cbn [lstrip_spaces]. destruct (isspace c) eqn:Hc.
    + exists (c :: pre). cbn [app]. rewrite <- Hl.
      repeat split; [| exact Hfirst].
      constructor; [now apply isspace_spec | exact Hpre].
    + exists []. repeat split; [constructor |].
      intros c' rest [= <- _] Hs. apply isspace_spec in Hs. congruence.
Qed.

(** [str.strip()] removes the white space at both ends, and nothing
    else. *)
Lemma str_strip_stripped (s : string) : stripped s (str_strip s).
Proof.
  unfold stripped, str_strip.
  rewrite list_ascii_of_string_of_list_ascii.
  destruct (lstrip_spaces_spec (list_ascii_of_string s))
    as (pre & Hl & Hpre & Hfirst).
  set (l1 := lstrip_spaces (list_ascii_of_string s)) in *.
  destruct (lstrip_spaces_spec (rev l1)) as (post & Hr & Hpost & Hlast).
  set (l2 := lstrip_spaces (rev l1)) in *.
  assert (Hl1 : l1 = rev l2 ++ rev post).
  { rewrite <- rev_app_distr, <- Hr. now rewrite rev_involutive. }
  exists pre, (rev post). repeat split.
  - now rewrite Hl, <- Hl1.
  - exact Hpre.
  - now apply Forall_rev.
  - intros c rest Hc. apply (Hfirst c (rest ++ rev post)).
    now rewrite Hl1, Hc.
  - intros c rest Hc. apply (Hlast c (rev rest)).
    rewrite <- (rev_involutive l2), Hc, rev_app_distr. reflexivity.
Qed.

Lemma field_stripped (v : option string) : stripped (cell v) (field v).
Proof. apply str_strip_stripped. Qed.

(** ** Reading a cell as an age *)

Lemma is_digit_spec (c : ascii) : is_digit c = true <-> decimal_digit c.
Proof.
  unfold is_digit, decimal_digit.
  rewrite andb_true_iff, !Nat.leb_le. reflexivity.
Qed.

Lemma digit_is_no_space (c : ascii) : decimal_digit c -> is_space c = false.
Proof.
  unfold decimal_digit, is_space. set (n := nat_of_ascii c). clearbody n.
  intros H. apply orb_false_iff. split.
  - apply andb_false_iff. right. apply Nat.leb_gt. lia.
  - apply Nat.eqb_neq. lia.
Qed.

Lemma lstrip_suffix (l : list ascii) : exists pre, l = pre ++ lstrip l.
Proof.
  induction l as [| c l (pre & Hl)]; [now exists [] |].
  cbn [lstrip]. destruct (is_space c); [| now exists []].
  exists (c :: pre). cbn [app]. now rewrite <- Hl.
Qed.

Lemma strip_within (l : list ascii) (c : ascii) : In c (strip l) -> In c l.
Proof.
  unfold strip. intros H. apply in_rev in H.
  destruct (lstrip_suffix (rev (lstrip l))) as (pre & Hr).
  assert (H1 : In c (rev (lstrip l))) by (rewrite Hr; apply in_or_app; now right).
  apply in_rev in H1.
  destruct (lstrip_suffix l) as (pre' & Hl). rewrite Hl.
  apply in_or_app. now right.
Qed.

Lemma strip_digits (ds : list ascii) : Forall decimal_digit ds -> strip ds = ds.
Proof.
  intros Hds.
  assert (Hl : forall l, Forall decimal_digit l -> lstrip l = l).
  { intros [| c l] H; [reflexivity |]. cbn [lstrip].
    inversion H; subst. now rewrite digit_is_no_space. }
  unfold strip. rewrite (Hl ds Hds), (Hl (rev ds)) by (now apply Forall_rev).
  apply rev_involutive.
Qed.

Lemma scan_digits_digits (ds : list ascii) (acc : Z) (n : nat) :
  Forall decimal_digit ds ->
  scan_digits acc n ds
  = (fold_left (fun acc c => 10 * acc + (Z.of_nat (nat_of_ascii c) - 48))
               ds acc,
     (n + length ds)%nat, []).
Proof.
  intros Hds. revert acc n.
  induction Hds as [| c ds Hc _ IH]; intros acc n.
  - cbn. now rewrite Nat.add_0_r.
  - cbn [scan_digits fold_left length].
    apply is_digit_spec in Hc. rewrite Hc, IH. unfold digit_val.
    now rewrite Nat.add_succ_r.
Qed.

(** Without a digit there is nothing to scan. *)
Lemma scan_digits_none (l : list ascii) (acc : Z) :
  (forall c, In c l -> ~ decimal_digit c) ->
  scan_digits acc 0 l = (acc, 0%nat, l).
Proof.
  intros Hno. destruct l as [| c l]; [reflexivity |].
  cbn [scan_digits].
  destruct (is_digit c) eqn:Hc.
  - apply is_digit_spec in Hc. exfalso. apply (Hno c); [now left | exact Hc].
  - now destruct (Ascii.eqb c "_").
Qed.
End Cleaning.

(** ** Integers below [2^53] are floats *)

Lemma binary_round_aux_exact (s : bool) (m : positive) (e : Z) :
  Zpos m < 2 ^ 53 -> -1074 <= e <= 971 ->
  binary_round_aux prec emax s (Zpos m) e loc_Exact = S754_finite s m e.
Proof.
  intros Hm He.
  assert (Hd : Zdigits2 (Zpos m) <= 53) by (apply Zdigits2_le; lia).
  assert (Hshift : shr_fexp prec emax (Zpos m) e loc_Exact
                   = (shr_record_of_loc (Zpos m) loc_Exact, e)).
  { unfold shr_fexp, shr, fexp, emin, prec, emax.
    destruct (Z.max (Zdigits2 (Zpos m) + e - 53) (3 - 1024 - 53) - e)
      eqn:Hn; try reflexivity.
    lia. }
  unfold binary_round_aux. rewrite Hshift.
  cbn [shr_record_of_loc loc_of_shr_record round_nearest_even shr_m].
  rewrite Hshift. cbn [shr_record_of_loc shr_m].
  unfold emax, prec.
  destruct (Z.leb_spec e (1024 - 53)); [reflexivity | lia].
Qed.

Lemma binary_round_exact (s : bool) (p : positive) :
  Zpos p < 2 ^ 53 ->
  exists m e,
    binary_round prec emax s p 0 = S754_finite s m e
    /\ -52 <= e <= 0 /\ Zpos m = Zpos p * 2 ^ (- e).
Proof.
  intros Hp. unfold binary_round, shl_align.
  pose proof (digits2_pos_bounds p) as Hd.
  set (d := Zpos (digits2_pos p)) in *.
  assert (Hd53 : 1 <= d <= 53).
  { split; [subst d; lia |]. apply (Zdigits2_le (Zpos p)); lia. }
  assert (Hf : fexp prec emax (d + 0) = d - 53)
    by (unfold fexp, emin, prec, emax; lia).
  rewrite Hf. clearbody d.
  destruct (d - 53 - 0) as [| k | k] eqn:Hk; try lia.
  - exists p, 0. rewrite binary_round_aux_exact by lia.
    repeat split; lia.
  - change (PosDef.Pos.iter xO p k) with (shift_pos k p).
    assert (Hshift : Zpos (shift_pos k p) = Zpos p * 2 ^ (- (d - 53))).
    { rewrite shift_pos_correct, Z.pow_pos_fold. replace (- (d - 53)) with (Zpos k) by lia.
      apply Z.mul_comm. }
    assert (H53 : Zpos (shift_pos k p) < 2 ^ 53).
    { rewrite Hshift. replace 53 with (d + - (d - 53)) at 2 by lia.
      rewrite Z.pow_add_r by lia.
      apply Z.mul_lt_mono_pos_r; [apply Z.pow_pos_nonneg; lia | apply Hd]. }
    exists (shift_pos k p), (d - 53).
    rewrite binary_round_aux_exact by lia.
    repeat split; lia.
Qed.

(** [int(float(n))] is [n] for an integer [0 <= n < 2^53]. *)
Lemma int_of_float_of_decimal (n : Z) :
  0 <= n < 2 ^ 53 -> int (VFloat (float_of_decimal false n 0)) = Ok n.
Proof.
  intros Hn. destruct n as [| p | p]; [reflexivity | | lia].
  unfold float_of_decimal. change (10 ^ 0) with 1. cbn [Z.to_pos].
  rewrite Pos.mul_1_r.
  destruct (binary_round_exact false p (proj2 Hn)) as (m & e & -> & He & Hm).
  cbn [int]. unfold trunc_float. f_equal.
  destruct e as [| k | k]; try lia.
  change (- Zneg k) with (Zpos k) in Hm. rewrite Hm.
  apply Z.div_mul. apply Z.pow_nonzero; lia.
Qed.

Section Ages.
Import Seeding.

Lemma digit_is_not (c : ascii) (x : ascii) :
  decimal_digit c -> ~ decimal_digit x -> Ascii.eqb c x = false.
Proof. intros Hc Hx. apply Ascii.eqb_neq. now intros ->. Qed.

Lemma digit_lower (c : ascii) : decimal_digit c -> lower c = c.
Proof.
  unfold decimal_digit, lower. intros H.
  destruct (Nat.leb_spec 65 (nat_of_ascii c)); [lia | reflexivity].
Qed.

Lemma decimal_value_nonneg (ds : list ascii) :
  Forall decimal_digit ds -> 0 <= decimal_value ds.
Proof.
  intros Hds. unfold decimal_value.
  assert (H : forall acc,
             0 <= acc ->
             0 <= fold_left (fun acc c =>
                               10 * acc + (Z.of_nat (nat_of_ascii c) - 48))
                            ds acc).
  { induction Hds as [| c ds Hc _ IH]; intros acc Hacc; [exact Hacc |].
    cbn [fold_left]. apply IH. unfold decimal_digit in Hc. lia. }
  apply H. lia.
Qed.

(** [float] reads a sequence of digits as the number it denotes. *)
Lemma float_of_digits (ds : list ascii) :
  ds <> [] -> Forall decimal_digit ds ->
  float (VStr (string_of_list_ascii ds))
  = Ok (float_of_decimal false (decimal_value ds) 0).
Proof.
  intros Hne Hds. unfold float, float_of_string.
  rewrite list_ascii_of_string_of_list_ascii, (strip_digits ds Hds).
  destruct ds as [| c ds]; [contradiction |].
  inversion Hds as [| ? ? Hc Hrest]; subst.
  assert (Hnot : forall x, ~ decimal_digit x -> Ascii.eqb c x = false)
    by (intros x; now apply digit_is_not).
  unfold scan_sign.
  rewrite (Hnot "-"%char), (Hnot "+"%char)
    by (unfold decimal_digit; cbn; lia).
  cbn [map string_of_list_ascii String.eqb].
  rewrite (digit_lower c Hc).
  rewrite (Hnot "i"%char), (Hnot "n"%char)
    by (unfold decimal_digit; cbn; lia).
  cbn [andb orb].
  rewrite (scan_digits_digits (c :: ds) 0 0 Hds).
  cbn [length Nat.add scan_exponent].
  change (10 ^ Z.of_nat 0) with 1.
  rewrite Z.mul_1_r, Z.add_0_r. reflexivity.
Qed.

(** The age of a cell that holds a number written in digits. *)
Lemma age_val_digits (ds : list ascii) :
  ds <> [] -> Forall decimal_digit ds -> decimal_value ds < 2 ^ 53 ->
  age_val (string_of_list_ascii ds) = decimal_value ds.
Proof.
  intros Hne Hds Hlt. unfold age_val.
  rewrite (float_of_digits ds Hne Hds).
  rewrite int_of_float_of_decimal; [reflexivity |].
  split; [now apply decimal_value_nonneg | exact Hlt].
Qed.

(** The age of a cell without a digit is 0. *)
Lemma age_val_no_digit (s : string) :
  (forall c, In c (list_ascii_of_string s) -> ~ decimal_digit c) ->
  age_val s = 0.
Proof.
  intros Hno. unfold age_val, float, float_of_string.
  assert (Hno' : forall c, In c (strip (list_ascii_of_string s)) ->
                           ~ decimal_digit c)
    by (intros c Hc; apply Hno; now apply strip_within).
  destruct (scan_sign (strip (list_ascii_of_string s))) as [neg l] eqn:Hsign.
  assert (Hl : forall c, In c l -> ~ decimal_digit c).
  { unfold scan_sign in Hsign.
    destruct (strip (list_ascii_of_string s)) as [| c0 l0];
      [injection Hsign as _ <-; intros c [] |].
    destruct (Ascii.eqb c0 "-");
      [injection Hsign as _ <-; intros c Hc; apply Hno'; now right |].
    destruct (Ascii.eqb c0 "+"); injection Hsign as _ <-;
      intros c Hc; apply Hno'; [now right | exact Hc]. }
  destruct (_ || _); [reflexivity |].
  destruct (String.eqb _ "nan"); [reflexivity |].
  rewrite (scan_digits_none l 0 Hl).
  destruct l as [| c l1]; [reflexivity |].
  destruct (Ascii.eqb c "."); [| reflexivity].
  rewrite (scan_digits_none l1 0) by (intros x Hx; apply Hl; now right).
  reflexivity.
Qed.
End Ages.

(* ===================================================================== *)
(** * [seed.insert_data] *)
(* ===================================================================== *)

Section InsertRows.
Import Seeding.
Variable env : setting.
Variable broken : bool.

(** The loop sends the candidates in order, with the identifiers in the
    order they are drawn, and stops early only when the server stops it. *)
Lemma insert_rows_sent (rows : list csv_row) (taken : list insertion)
    (drawn inserted : nat) :
  let run := insert_rows env broken rows taken drawn inserted in
  exists k,
    sent (fst run) = firstn k (numbered env drawn (candidates rows))
    /\ match snd run with
       | ServerStopped _ => True
       | _ => sent (fst run) = numbered env drawn (candidates rows)
       end.
Proof.
  revert taken drawn inserted;
    induction rows as [| row rows IH]; intros taken drawn inserted.
  - exists 0%nat. cbn. destruct broken; split; reflexivity.
  - cbn [insert_rows candidates flat_map].
    destruct (String.eqb (field (row_email row)) EmptyString) eqn:Hmail.
    + cbn [app]. apply IH.
    + cbn [app numbered].
      destruct (server env taken _) as [| | errno].
      * specialize (IH (taken ++ [{| new_id := uuid4 env drawn;
                                     new_name := field (row_name row);
                                     new_email := field (row_email row);
                                     new_age := age_val (field (row_age row)) |}])
                       (S drawn) (S inserted)).
        destruct (insert_rows env broken rows _ (S drawn) (S inserted))
          as [acts e].
        destruct IH as (k & Hk & He). exists (S k).
        cbn [fst snd sent flat_map app firstn] in *.
        split; [now rewrite Hk |].
        destruct e; [now rewrite He | exact I | now rewrite He].
      * specialize (IH taken (S drawn) inserted).
        destruct (insert_rows env broken rows taken (S drawn) inserted)
          as [acts e].
        destruct IH as (k & Hk & He). exists (S k).
        cbn [fst snd sent flat_map app firstn] in *.
        split; [now rewrite Hk |].
        destruct e; [now rewrite He | exact I | now rewrite He].
      * exists 1%nat. cbn. split; [| exact I].
        now rewrite ?firstn_O.
Qed.

(** The loop only sends statements; its counter counts the rows taken;
    the server's refusal, if any, is the last statement sent. *)
Lemma insert_rows_shape (rows : list csv_row) (taken : list insertion)
    (drawn inserted : nat) :
  let run := insert_rows env broken rows taken drawn inserted in
  forallb is_insert (fst run) = true
  /\ match snd run with
     | AllRead n =>
         n = (inserted + length (taken_rows (fst run)))%nat
         /\ existsb is_refusal (fst run) = false
     | ServerStopped errno =>
         exists acts u,
           fst run = acts ++ [Insert u (OtherError errno)]
           /\ existsb is_refusal acts = false
     | ReaderStopped => existsb is_refusal (fst run) = false
     end.
Proof.
  revert taken drawn inserted;
    induction rows as [| row rows IH]; intros taken drawn inserted.
  - cbn. destruct broken; cbn; auto.
  - cbn [insert_rows].
    destruct (String.eqb (field (row_email row)) EmptyString); [apply IH |].
    destruct (server env taken _) as [| | errno].
    + specialize (IH (taken ++ [{| new_id := uuid4 env drawn;
                                   new_name := field (row_name row);
                                   new_email := field (row_email row);
                                   new_age := age_val (field (row_age row)) |}])
                     (S drawn) (S inserted)).
      destruct (insert_rows env broken rows _ (S drawn) (S inserted))
        as [acts e].
      destruct IH as (Hins & He). cbn in *. split; [exact Hins |].
      destruct e as [n | errno |].
      * destruct He as [-> Hno]. split; [lia | exact Hno].
      * destruct He as (acts' & u & -> & Hno).
        eexists (_ :: acts'), u. split; [reflexivity | exact Hno].
      * exact He.
    + specialize (IH taken (S drawn) inserted).
      destruct (insert_rows env broken rows taken (S drawn) inserted)
        as [acts e].
      destruct IH as (Hins & He). cbn in *. split; [exact Hins |].
      destruct e as [n | errno |].
      * exact He.
      * destruct He as (acts' & u & -> & Hno).
        eexists (_ :: acts'), u. split; [reflexivity | exact Hno].
      * exact He.
    + cbn. split; [reflexivity |]. eexists [], _. split; reflexivity.
Qed.
End InsertRows.

Section InsertData.
Import Seeding.

Lemma sent_app (acts acts' : list action) :
  sent (acts ++ acts') = sent acts ++ sent acts'.
Proof. apply flat_map_app. Qed.

Lemma taken_rows_app (acts acts' : list action) :
  taken_rows (acts ++ acts') = taken_rows acts ++ taken_rows acts'.
Proof. apply flat_map_app. Qed.

Lemma count_app (f : action -> bool) (acts acts' : list action) :
  count f (acts ++ acts') = (count f acts + count f acts')%nat.
Proof. unfold count. now rewrite filter_app, length_app. Qed.

(** A list of statements holds nothing else. *)
Lemma inserts_only (acts : list action) :
  forallb is_insert acts = true ->
  count is_open acts = 0%nat /\ count is_close acts = 0%nat
  /\ ~ In Commit acts /\ (forall m, ~ In (Say m) acts).
Proof.
  induction acts as [| a acts IH]; [cbn; intuition |].
  cbn [forallb]. intros H. apply andb_prop in H as [Ha H].
  destruct (IH H) as (Ho & Hc & Hn & Hs).
  destruct a; try discriminate Ha.
  unfold count in *. cbn. repeat split; auto.
  - intros [Hx | Hx]; [discriminate | auto].
  - intros m [Hx | Hx]; [discriminate | eapply Hs; eauto].
Qed.

Lemma no_refusal (acts : list action) :
  existsb is_refusal acts = false ->
  forall u errno, ~ In (Insert u (OtherError errno)) acts.
Proof.
  intros H u errno Hin.
  assert (Hex : existsb is_refusal acts = true)
    by (apply existsb_exists; eexists; split; [exact Hin | reflexivity]).
  congruence.
Qed.

Lemma candidates_cleaned (env : setting) (rows : list csv_row)
    (drawn : nat) (u : insertion) :
  In u (numbered env drawn (candidates rows)) ->
  exists row,
    In row rows
    /\ new_email u = field (row_email row)
    /\ new_email u <> EmptyString
    /\ new_name u = field (row_name row)
    /\ new_age u = age_val (field (row_age row)).
Proof.
  revert drawn; induction rows as [| row rows IH]; intros drawn;
    [contradiction |].
  cbn [candidates flat_map].
  destruct (String.eqb_spec (field (row_email row)) EmptyString) as [He | He].
  - cbn [app]. intros Hin. destruct (IH drawn Hin) as (r & Hr & H).
    exists r. split; [now right | exact H].
  - cbn [app numbered]. intros [<- | Hin].
    + exists row. cbn. repeat split; auto; now left.
    + destruct (IH (S drawn) Hin) as (r & Hr & H).
      exists r. split; [now right | exact H].
Qed.

Lemma candidates_sent (env : setting) (rows : list csv_row) (drawn : nat)
    (row : csv_row) :
  In row rows ->
  field (row_email row) <> EmptyString ->
  exists u,
    In u (numbered env drawn (candidates rows))
    /\ new_email u = field (row_email row).
Proof.
  revert drawn; induction rows as [| r rows IH]; intros drawn Hin Hne;
    [contradiction |].
  cbn [candidates flat_map].
  destruct (String.eqb_spec (field (row_email r)) EmptyString) as [He | He].
  - destruct Hin as [-> | Hin]; [contradiction |].
    cbn [app]. now apply IH.
  - cbn [app numbered]. destruct Hin as [-> | Hin].
    + eexists. split; [now left | reflexivity].
    + destruct (IH (S drawn) Hin Hne) as (u & Hu & H).
      exists u. split; [now right | exact H].
Qed.

(** A cell that is not all white space has something left when it is
    stripped. *)
Lemma field_not_blank (v : option string) :
  ~ Forall ascii_space (list_ascii_of_string (cell v)) ->
  field v <> EmptyString.
Proof.
  intros Hblank Hempty.
  destruct (field_stripped v) as (pre & post & Hraw & Hpre & Hpost & _).
  rewrite Hempty in Hraw. cbn [list_ascii_of_string app] in Hraw.
  apply Hblank. rewrite Hraw. apply Forall_app. now split.
Qed.

(** The statements [insert_data] sends are, in the order of the file, the
    rows that have an email once it is stripped, with the identifiers in
    the order [uuid4] gave them.  A run may stop before the end of that
    list, but not if it commits: then every row whose email is not blank
    has been sent.  No row without an email is ever sent.  The name and
    the email sent are those of the row without the white space at their
    two ends.  The age sent is the number the stripped cell denotes when
    that is a sequence of digits (below [2^53]), and 0 when the cell has
    no digit at all. *)
Theorem insert_data_statements (env : setting) :
  let acts := fst (insert_data env) in
  let all := numbered env 0 (candidates (file_rows env)) in
  (exists k, sent acts = firstn k all)
  /\ (In Commit acts -> sent acts = all)
  /\ (forall u, In u (sent acts) ->
      exists row,
        In row (file_rows env)
        /\ new_email u = field (row_email row)
        /\ new_email u <> EmptyString
        /\ new_name u = field (row_name row)
        /\ new_age u = age_val (field (row_age row))
        /\ stripped (cell (row_email row)) (new_email u)
        /\ stripped (cell (row_name row)) (new_name u)
        /\ exists age_text,
            stripped (cell (row_age row)) age_text
            /\ (age_text <> EmptyString ->
                Forall decimal_digit (list_ascii_of_string age_text) ->
                decimal_value (list_ascii_of_string age_text) < 2 ^ 53 ->
                new_age u = decimal_value (list_ascii_of_string age_text))
            /\ ((forall c, In c (list_ascii_of_string age_text) ->
                           ~ decimal_digit c) ->
                new_age u = 0))
  /\ (In Commit acts ->
      forall row,
        In row (file_rows env) ->
        ~ Forall ascii_space (list_ascii_of_string (cell (row_email row))) ->
        exists u,
          In u (sent acts)
          /\ stripped (cell (row_email row)) (new_email u)).
Proof.
  cbv zeta.
  assert (Hmain : (exists k, sent (fst (insert_data env))
                             = firstn k (numbered env 0
                                           (candidates (file_rows env))))
                  /\ (In Commit (fst (insert_data env)) ->
                      sent (fst (insert_data env))
                      = numbered env 0 (candidates (file_rows env)))).
  { unfold insert_data, file_rows.
    destruct (path_exists env); cbn [negb];
      [| split; [exists 0%nat; reflexivity | contradiction]].
    destruct (contents env) as [f |];
      [| split; [exists 0%nat; reflexivity
                | intros [H | []]; discriminate H]].
    destruct (has_required (fieldnames f)); cbn [negb];
      [| split; [exists 0%nat; reflexivity
                | intros [H | []]; discriminate H]].
    destruct (cursor_failure env);
      [split; [exists 0%nat; reflexivity
              | intros [H | []]; discriminate H] |].
    pose proof (insert_rows_sent env (csv_broken f) (csv_rows f) [] 0 0)
      as (k & Hk & He).
    pose proof (insert_rows_shape env (csv_broken f) (csv_rows f) [] 0 0)
      as (Hins & _).
    destruct (insert_rows env (csv_broken f) (csv_rows f) [] 0 0)
      as [acts e].
    cbn [fst snd] in *. destruct (inserts_only acts Hins) as (_ & _ & Hnc & _).
    change (OpenCursor :: ?l) with ([OpenCursor] ++ l).
    assert (Hsent : forall tail,
               sent tail = [] ->
               sent ([OpenCursor] ++ acts ++ tail ++ [CloseCursor]) = sent acts).
    { intros tail Ht. rewrite !sent_app, Ht. cbn. now rewrite app_nil_r. }
    split.
    - exists k. rewrite Hsent; [exact Hk |].
      destruct e; [destruct (commit_failure env) | |]; reflexivity.
    - intros Hc. rewrite Hsent
        by (destruct e; [destruct (commit_failure env) | |]; reflexivity).
      destruct e as [n | errno |]; [exact He | exfalso | exfalso];
        cbn in Hc; destruct Hc as [Hc | Hc]; try discriminate;
        apply in_app_or in Hc as [Hc | Hc]; try (now apply Hnc);
        cbn in Hc; intuition discriminate. }
  destruct Hmain as [[k Hk] Hc]. split; [eauto |]. split; [exact Hc |].
  split.
  - intros u Hu. rewrite Hk in Hu.
    assert (Hin : In u (numbered env 0 (candidates (file_rows env)))).
    { revert Hu. generalize (numbered env 0 (candidates (file_rows env))).
      clear. intros l; revert k; induction l as [| x l IH]; intros [| k] H;
        try contradiction.
      destruct H as [-> | H]; [now left | right; eauto]. }
    destruct (candidates_cleaned env (file_rows env) 0 u Hin)
      as (row & Hrow & Hemail & Hne & Hname & Hage).
    exists row. repeat (split; [assumption |]).
    split; [rewrite Hemail; apply field_stripped |].
    split; [rewrite Hname; apply field_stripped |].
    exists (field (row_age row)).
    split; [apply field_stripped |]. rewrite Hage. split.
    + intros Htext Hds Hlt.
      rewrite <- (string_of_list_ascii_of_string (field (row_age row))) at 1.
      apply age_val_digits; [| exact Hds | exact Hlt].
      intros Hnil. apply Htext.
      rewrite <- (string_of_list_ascii_of_string (field (row_age row))).
      now rewrite Hnil.
    + apply age_val_no_digit.
  - intros Hcommit row Hrow Hblank. rewrite (Hc Hcommit).
    destruct (candidates_sent env (file_rows env) 0 row Hrow
                (field_not_blank _ Hblank)) as (u & Hu & Hemail).
    exists u. split; [exact Hu |]. rewrite Hemail. apply field_stripped.
Qed.

Lemma said_app (acts acts' : list action) :
  said (acts ++ acts') = said acts ++ said acts'.
Proof. apply flat_map_app. Qed.

Lemma inserts_say_nothing (acts : list action) :
  forallb is_insert acts = true -> said acts = [].
Proof.
  induction acts as [| a acts IH]; [reflexivity |].
  cbn [forallb]. intros H. apply andb_prop in H as [Ha H].
  destruct a; try discriminate Ha. cbn. now apply IH.
Qed.

(** The loop stops on the reader only if the reader breaks, and reads the
    whole file only if it does not. *)
Lemma insert_rows_end (env : setting) (broken : bool) (rows : list csv_row)
    (taken : list insertion) (drawn inserted : nat) :
  match snd (insert_rows env broken rows taken drawn inserted) with
  | AllRead _ => broken = false
  | ReaderStopped => broken = true
  | ServerStopped errno =>
      existsb is_refusal
        (fst (insert_rows env broken rows taken drawn inserted)) = true
  end.
Proof.
  revert taken drawn inserted;
    induction rows as [| row rows IH]; intros taken drawn inserted.
  - cbn. now destruct broken.
  - cbn [insert_rows].
    destruct (String.eqb (field (row_email row)) EmptyString); [apply IH |].
    destruct (server env taken _) as [| | errno].
    + specialize (IH (taken ++ [{| new_id := uuid4 env drawn;
                                   new_name := field (row_name row);
                                   new_email := field (row_email row);
                                   new_age := age_val (field (row_age row)) |}])
                     (S drawn) (S inserted)).
      destruct (insert_rows env broken rows _ (S drawn) (S inserted))
        as [acts e].
      cbn [fst snd existsb is_refusal orb] in *. exact IH.
    + specialize (IH taken (S drawn) inserted).
      destruct (insert_rows env broken rows taken (S drawn) inserted)
        as [acts e].
      cbn [fst snd existsb is_refusal orb] in *. exact IH.
    + reflexivity.
Qed.

(** What [insert_data] prints: one line whenever it returns, and which
    one. *)
Lemma insert_data_says (env : setting) :
  let acts := fst (insert_data env) in
  path_exists env = true ->
  (exists m, said acts = [m])
  /\ (contents env = None -> acts = [Say OtherFailure])
  /\ (forall f,
        contents env = Some f ->
        (has_required (fieldnames f) = false -> acts = [Say OtherFailure])
        /\ (forall errno,
              has_required (fieldnames f) = true ->
              cursor_failure env = Some errno ->
              acts = [Say (MySQLError errno)])
        /\ (has_required (fieldnames f) = true ->
            cursor_failure env = None ->
            existsb is_refusal acts = false ->
            said acts
            = [if csv_broken f then OtherFailure
               else match commit_failure env with
                    | Some errno => MySQLError errno
                    | None => InsertedRows (length (taken_rows acts))
                    end]
            /\ (In Commit acts <->
                csv_broken f = false /\ commit_failure env = None))).
Proof.
  cbv zeta. intros Hpath. unfold insert_data. rewrite Hpath. cbn [negb].
  destruct (contents env) as [f |].
  2:{ split; [now exists OtherFailure |]. split; [reflexivity |].
      intros f Hf. discriminate Hf. }
  destruct (has_required (fieldnames f)) eqn:Hhead; cbn [negb].
  2:{ split; [now exists OtherFailure |]. split; [discriminate |].
      intros f' [= <-]. rewrite Hhead.
      split; [reflexivity |]. split; intros; discriminate. }
  destruct (cursor_failure env) as [errno |] eqn:Hcursor.
  { split; [now eexists |]. split; [discriminate |].
    intros f' [= <-]. rewrite Hhead.
    split; [discriminate |]. split; [| discriminate].
    now intros errno' _ [= ->]. }
  pose proof (insert_rows_shape env (csv_broken f) (csv_rows f) [] 0 0)
    as (Hins & He).
  pose proof (insert_rows_end env (csv_broken f) (csv_rows f) [] 0 0)
    as Hend.
  destruct (insert_rows env (csv_broken f) (csv_rows f) [] 0 0) as [acts e].
  cbn [fst snd] in *.
  pose proof (inserts_say_nothing acts Hins) as Hquiet.
  destruct (inserts_only acts Hins) as (_ & _ & Hnc & _).
  change (OpenCursor :: ?l) with ([OpenCursor] ++ l).
  assert (Hsaid : forall tail,
             said ([OpenCursor] ++ acts ++ tail ++ [CloseCursor]) = said tail).
  { intros tail. rewrite !said_app, Hquiet. cbn. now rewrite app_nil_r. }
  assert (Htaken : forall tail,
             taken_rows tail = [] ->
             taken_rows ([OpenCursor] ++ acts ++ tail ++ [CloseCursor])
             = taken_rows acts).
  { intros tail Ht. rewrite !taken_rows_app, Ht. cbn. now rewrite app_nil_r. }
  assert (Hrefusal : forall tail,
             existsb is_refusal tail = false ->
             existsb is_refusal ([OpenCursor] ++ acts ++ tail ++ [CloseCursor])
             = existsb is_refusal acts).
  { intros tail Ht. rewrite !existsb_app, Ht. cbn. now rewrite orb_false_r. }
  assert (Hcommit : forall tail,
             In Commit ([OpenCursor] ++ acts ++ tail ++ [CloseCursor]) ->
             In Commit tail).
  { intros tail Hin. cbn [app] in Hin.
    destruct Hin as [H | Hin]; [discriminate H |].
    apply in_app_or in Hin as [Hin | Hin]; [contradiction |].
    apply in_app_or in Hin as [Hin | [H | []]]; [exact Hin | discriminate H]. }
  split.
  { rewrite Hsaid.
    destruct e; [destruct (commit_failure env) | |]; now eexists. }
  split; [discriminate |].
  intros f' [= <-]. rewrite Hhead.
  split; [discriminate |]. split; [discriminate |].
  intros _ _. rewrite Hsaid.
  destruct e as [n | errno |].
  - destruct He as [-> _]. rewrite Hend.
    destruct (commit_failure env) as [errno |].
    + intros _. split; [reflexivity |]. split; [| now intros [_ H]].
      intros Hin. apply Hcommit in Hin. destruct Hin as [H | []].
      discriminate H.
    + intros _. rewrite Htaken by reflexivity. split; [reflexivity |].
      split; [now intros _ |].
      intros _. cbn [app]. right. apply in_or_app. right. now left.
  - rewrite Hrefusal by reflexivity. rewrite Hend. discriminate.
  - rewrite Hend. intros _. split; [reflexivity |]. split; [| now intros [H _]].
    intros Hin. apply Hcommit in Hin. destruct Hin as [H | []].
    discriminate H.
Qed.

(** How a call of [insert_data] ends.  It raises only when the path does
    not exist, and has then done nothing.  Whenever it returns it has
    printed exactly one line: the failure, when the file cannot be read,
    when a header is missing, when the cursor cannot be opened, when the
    reader breaks or when the commit is refused, and else the count of
    the rows the server took.  The cursor is closed exactly when it was
    opened.  A commit comes only after a loop that reached the end of the
    file with no refusal other than [IntegrityError], and is followed by
    the count.  A refusal that is not an [IntegrityError] is the last
    statement of the run: it is printed, and nothing is committed. *)
Theorem insert_data_ends (env : setting) :
  let acts := fst (insert_data env) in
  ((snd (insert_data env) = RaisesFileNotFoundError
    <-> path_exists env = false)
   /\ (path_exists env = false -> acts = [])
   /\ count is_open acts = count is_close acts
   /\ (In Commit acts ->
       existsb is_refusal acts = false
       /\ In (Say (InsertedRows (length (taken_rows acts)))) acts)
   /\ (forall u errno,
         In (Insert u (OtherError errno)) acts ->
         ~ In Commit acts
         /\ In (Say (MySQLError errno)) acts
         /\ exists before,
             acts = before ++ [Insert u (OtherError errno);
                               Say (MySQLError errno); CloseCursor]))
  /\ (path_exists env = true ->
      (exists m, said acts = [m])
      /\ (contents env = None -> acts = [Say OtherFailure])
      /\ (forall f,
            contents env = Some f ->
            (has_required (fieldnames f) = false -> acts = [Say OtherFailure])
            /\ (forall errno,
                  has_required (fieldnames f) = true ->
                  cursor_failure env = Some errno ->
                  acts = [Say (MySQLError errno)])
            /\ (has_required (fieldnames f) = true ->
                cursor_failure env = None ->
                existsb is_refusal acts = false ->
                said acts
                = [if csv_broken f then OtherFailure
                   else match commit_failure env with
                        | Some errno => MySQLError errno
                        | None => InsertedRows (length (taken_rows acts))
                        end]
                /\ (In Commit acts <->
                    csv_broken f = false /\ commit_failure env = None)))).
Proof.
  cbv zeta. split; [| exact (insert_data_says env)].
  unfold insert_data.
  destruct (path_exists env); cbn [negb];
    [| repeat split; auto; try discriminate; contradiction].
  split.
  { split; [| discriminate].
    destruct (contents env) as [f |]; [| discriminate].
    destruct (negb (has_required (fieldnames f))); [discriminate |].
    destruct (cursor_failure env); [discriminate |].
    destruct (insert_rows env (csv_broken f) (csv_rows f) [] 0 0).
    discriminate. }
  split; [discriminate |].
  assert (Hsay : forall m,
             count is_open [Say m] = count is_close [Say m]
             /\ (In Commit [Say m] ->
                 existsb is_refusal [Say m] = false
                 /\ In (Say (InsertedRows (length (taken_rows [Say m]))))
                       [Say m])
             /\ (forall u errno,
                   In (Insert u (OtherError errno)) [Say m] ->
                   ~ In Commit [Say m]
                   /\ In (Say (MySQLError errno)) [Say m]
                   /\ exists before,
                       [Say m] = before ++ [Insert u (OtherError errno);
                                            Say (MySQLError errno);
                                            CloseCursor])).
  { intros m. split; [reflexivity |].
    split; [intros [H | []]; discriminate H |].
    intros u errno [H | []]; discriminate H. }
  destruct (contents env) as [f |]; [| apply Hsay].
  destruct (has_required (fieldnames f)); cbn [negb]; [| apply Hsay].
  destruct (cursor_failure env); [apply Hsay |]. clear Hsay.
  pose proof (insert_rows_shape env (csv_broken f) (csv_rows f) [] 0 0)
    as (Hins & He).
  destruct (insert_rows env (csv_broken f) (csv_rows f) [] 0 0) as [acts e].
  cbn [fst snd] in *.
  destruct (inserts_only acts Hins) as (Ho & Hc & Hnc & Hns).
  change (OpenCursor :: ?l) with ([OpenCursor] ++ l).
  assert (Hcount : forall tail,
             count is_open tail = 0%nat -> count is_close tail = 0%nat ->
             count is_open ([OpenCursor] ++ acts ++ tail ++ [CloseCursor])
             = count is_close ([OpenCursor] ++ acts ++ tail ++ [CloseCursor])).
  { intros tail H1 H2. rewrite !count_app, Ho, Hc, H1, H2. reflexivity. }
  destruct e as [n | errno |].
  - destruct He as [-> Hno].
    destruct (commit_failure env) as [errno |].
    + split; [apply Hcount; reflexivity |]. split.
      * intros Hin. exfalso. cbn [app] in Hin.
      destruct Hin as [H | Hin]; [discriminate H |].
        apply in_app_or in Hin as [Hin | Hin]; [now apply Hnc |].
        cbn in Hin. intuition discriminate.
      * intros u e Hin. exfalso. cbn [app] in Hin.
      destruct Hin as [H | Hin]; [discriminate H |].
        apply in_app_or in Hin as [Hin | Hin];
          [exact (no_refusal acts Hno u e Hin) |].
        cbn in Hin. intuition discriminate.
    + split; [apply Hcount; reflexivity |]. split.
      * intros _. split.
        -- rewrite !existsb_app, Hno. reflexivity.
        -- rewrite !taken_rows_app. cbn [taken_rows flat_map app].
           rewrite app_nil_r. cbn [plus].
           cbn [app]. right. apply in_or_app. right. right. now left.
      * intros u e Hin. exfalso. cbn [app] in Hin.
      destruct Hin as [H | Hin]; [discriminate H |].
        apply in_app_or in Hin as [Hin | Hin];
          [exact (no_refusal acts Hno u e Hin) |].
        cbn in Hin. intuition discriminate.
  - destruct He as (acts' & u0 & -> & Hno).
    split; [apply Hcount; reflexivity |]. split.
    + intros Hin. exfalso. cbn [app] in Hin.
      destruct Hin as [H | Hin]; [discriminate H |].
      apply in_app_or in Hin as [Hin | Hin]; [now apply Hnc |].
      cbn in Hin. intuition discriminate.
    + intros u e Hin.
      assert (Hue : u = u0 /\ e = errno).
      { cbn [app] in Hin.
      destruct Hin as [H | Hin]; [discriminate H |].
        apply in_app_or in Hin as [Hin | Hin];
          [| cbn in Hin; intuition discriminate].
        apply in_app_or in Hin as [Hin | Hin];
          [exfalso; exact (no_refusal acts' Hno u e Hin) |].
        destruct Hin as [H | []]. inversion H; auto. }
      destruct Hue as [-> ->]. split; [| split].
      * intros Hin'. cbn [app] in Hin'.
        destruct Hin' as [H | Hin']; [discriminate H |].
        apply in_app_or in Hin' as [Hin' | Hin']; [now apply Hnc |].
        cbn in Hin'. intuition discriminate.
      * cbn [app]. right. rewrite <- app_assoc. apply in_or_app. right.
        cbn. right. now left.
      * exists ([OpenCursor] ++ acts'). now rewrite <- !app_assoc.
  - split; [apply Hcount; reflexivity |]. split.
    + intros Hin. exfalso. cbn [app] in Hin.
      destruct Hin as [H | Hin]; [discriminate H |].
      apply in_app_or in Hin as [Hin | Hin]; [now apply Hnc |].
      cbn in Hin. intuition discriminate.
    + intros u e Hin. exfalso. cbn [app] in Hin.
      destruct Hin as [H | Hin]; [discriminate H |].
      apply in_app_or in Hin as [Hin | Hin];
        [exact (no_refusal acts He u e Hin) |].
      cbn in Hin. intuition discriminate.
Qed.

(** With a reader that does not break and a server that refuses only by
    [IntegrityError], the loop reads the whole file. *)
Lemma insert_rows_all_read (env : setting) (rows : list csv_row)
    (taken : list insertion) (drawn inserted : nat) :
  (forall t u errno, server env t u <> OtherError errno) ->
  exists n, snd (insert_rows env false rows taken drawn inserted) = AllRead n.
Proof.
  intros Hserver. revert taken drawn inserted.
  induction rows as [| row rows IH]; intros taken drawn inserted.
  - now exists inserted.
  - cbn [insert_rows].
    destruct (String.eqb (field (row_email row)) EmptyString); [apply IH |].
    destruct (server env taken _) as [| | errno] eqn:Hanswer.
    + specialize (IH (taken ++ [{| new_id := uuid4 env drawn;
                                   new_name := field (row_name row);
                                   new_email := field (row_email row);
                                   new_age := age_val (field (row_age row)) |}])
                     (S drawn) (S inserted)).
      destruct (insert_rows env false rows _ (S drawn) (S inserted)).
      exact IH.
    + specialize (IH taken (S drawn) inserted).
      destruct (insert_rows env false rows taken (S drawn) inserted).
      exact IH.
    + now apply Hserver in Hanswer.
Qed.

(** The run in which nothing fails, with the statements the loop sent. *)
Lemma insert_data_clean_run (env : setting) (f : csv_file) :
  path_exists env = true ->
  contents env = Some f ->
  has_required (fieldnames f) = true ->
  csv_broken f = false ->
  cursor_failure env = None ->
  commit_failure env = None ->
  (forall t u errno, server env t u <> OtherError errno) ->
  let acts := fst (insert_rows env false (csv_rows f) [] 0 0) in
  insert_data env
  = (OpenCursor :: acts
     ++ [Commit; Say (InsertedRows (length (taken_rows acts)));
         CloseCursor], Returns)
  /\ forallb is_insert acts = true
  /\ sent acts = numbered env 0 (candidates (csv_rows f)).
Proof.
  intros Hpath Hfile Hhead Hreader Hcursor Hcommit Hserver.
  unfold insert_data. rewrite Hpath, Hfile, Hhead, Hcursor, Hreader.
  cbn [negb].
  destruct (insert_rows_all_read env (csv_rows f) [] 0 0 Hserver) as (n & Hn).
  pose proof (insert_rows_shape env false (csv_rows f) [] 0 0) as (Hins & He).
  pose proof (insert_rows_sent env false (csv_rows f) [] 0 0) as (k & Hk & Hall).
  destruct (insert_rows env false (csv_rows f) [] 0 0) as [acts e].
  cbn [fst snd] in *. subst e. destruct He as [-> _].
  rewrite Hcommit. repeat split; auto.
Qed.

(** When nothing fails (the file is there and has the three headers, the
    reader does not break, the cursor opens, the server refuses a row
    only by [IntegrityError], the commit goes through), [insert_data]
    opens the cursor, sends one statement for every row of the file that
    has an email, commits, prints the number of rows taken and closes the
    cursor; it does nothing else and returns. *)
Theorem insert_data_commits (env : setting) (f : csv_file) :
  path_exists env = true ->
  contents env = Some f ->
  has_required (fieldnames f) = true ->
  csv_broken f = false ->
  cursor_failure env = None ->
  commit_failure env = None ->
  (forall t u errno, server env t u <> OtherError errno) ->
  exists acts,
    insert_data env
    = (OpenCursor :: acts
       ++ [Commit; Say (InsertedRows (length (taken_rows acts)));
           CloseCursor], Returns)
    /\ forallb is_insert acts = true
    /\ sent acts = numbered env 0 (candidates (csv_rows f)).
Proof.
  intros Hpath Hfile Hhead Hreader Hcursor Hcommit Hserver.
  eexists.
  exact (insert_data_clean_run env f Hpath Hfile Hhead Hreader Hcursor
           Hcommit Hserver).
Qed.

Section UniqueEmails.
Variable same : string -> string -> bool.
Variable before : list string.
Variable ids : nat -> string.
Variable f : csv_file.

(** Against the unique key, the loop takes a row only if its email
    matches no email of the table, and leaves every email of the file
    matched by one of the table. *)
Lemma insert_rows_unique (rows : list csv_row) (taken : list insertion)
    (drawn inserted : nat) :
  (forall e, same e e = true) ->
  let run :=
    insert_rows (unique_emails same before ids f) false rows taken drawn
      inserted in
  (forall u, In u (taken_rows (fst run)) ->
             existsb (same (new_email u)) (before ++ map new_email taken)
             = false)
  /\ (forall row, In row rows ->
        field (row_email row) <> EmptyString ->
        existsb (same (field (row_email row)))
                (before ++ map new_email (taken ++ taken_rows (fst run)))
        = true).
Proof.
  intros Hrefl. revert taken drawn inserted.
  induction rows as [| row rows IH]; intros taken drawn inserted.
  - cbn. split; [intros u [] | intros row []].
  - cbn [insert_rows].
    destruct (String.eqb (field (row_email row)) EmptyString) eqn:Hmail.
    + destruct (IH taken drawn inserted) as (Hnew & Hall).
      split; [exact Hnew |]. intros r [<- | Hr] Hne; [| now apply Hall].
      apply String.eqb_eq in Hmail. contradiction.
    + set (u := {| new_id := uuid4 (unique_emails same before ids f) drawn;
                   new_name := field (row_name row);
                   new_email := field (row_email row);
                   new_age := age_val (field (row_age row)) |}).
      cbn [server unique_emails].
      destruct (existsb (same (new_email u)) (before ++ map new_email taken))
        eqn:Hseen.
      * specialize (IH taken (S drawn) inserted).
        destruct (insert_rows _ false rows taken (S drawn) inserted)
          as [acts e].
        destruct IH as (Hnew & Hall). cbn [fst taken_rows flat_map app] in *.
        split; [exact Hnew |]. intros r [<- | Hr] Hne; [| now apply Hall].
        rewrite map_app, app_assoc, existsb_app.
        change (field (row_email row)) with (new_email u).
        now rewrite Hseen.
      * specialize (IH (taken ++ [u]) (S drawn) (S inserted)).
        destruct (insert_rows _ false rows (taken ++ [u]) (S drawn)
                    (S inserted)) as [acts e].
        destruct IH as (Hnew & Hall). cbn [fst taken_rows flat_map app] in *.
        split.
        -- intros v [<- | Hv]; [exact Hseen |].
           specialize (Hnew v Hv).
           rewrite map_app, app_assoc, existsb_app in Hnew.
           now apply orb_false_elim in Hnew as [Hnew _].
        -- intros r [<- | Hr] Hne.
           ++ rewrite existsb_app. apply orb_true_intro. right.
              apply existsb_exists. exists (new_email u).
              split; [| apply Hrefl].
              apply in_map, in_or_app. right. now left.
           ++ specialize (Hall r Hr Hne).
              now rewrite <- app_assoc in Hall.
Qed.
End UniqueEmails.

(** Against a table in which every email of the file is matched, the
    loop takes no row. *)
Lemma insert_rows_nothing_new (same : string -> string -> bool)
    (seen : list string) (ids : nat -> string) (f : csv_file)
    (rows : list csv_row) (taken : list insertion) (drawn inserted : nat) :
  (forall row, In row rows ->
     field (row_email row) <> EmptyString ->
     existsb (same (field (row_email row))) seen = true) ->
  let run :=
    insert_rows (unique_emails same seen ids f) false rows taken drawn
      inserted in
  taken_rows (fst run) = [] /\ snd run = AllRead inserted.
Proof.
  revert taken drawn inserted.
  induction rows as [| row rows IH]; intros taken drawn inserted Hseen.
  - split; reflexivity.
  - cbn [insert_rows].
    destruct (String.eqb (field (row_email row)) EmptyString) eqn:Hmail.
    + apply IH. intros r Hr. apply Hseen. now right.
    + cbn [server unique_emails new_email].
      rewrite existsb_app, Hseen; [cbn [orb] | now left |].
      * specialize (IH taken (S drawn) inserted).
        destruct (insert_rows _ false rows taken (S drawn) inserted)
          as [acts e].
        apply IH. intros r Hr. apply Hseen. now right.
      * intros Hnone. rewrite Hnone in Hmail. discriminate Hmail.
Qed.

(** Loading the same file twice.  The table has a unique key on the
    email, compared by [same] (any comparison under which an email equals
    itself), and holds the emails [before].  The first call of
    [insert_data] commits rows none of whose emails was in the table; the
    second call, made on the table the first one left, sends the same
    statements again, is refused every one of them, commits, and reports
    0 new rows. *)
Theorem insert_data_twice (same : string -> string -> bool)
    (before : list string) (ids ids' : nat -> string) (f : csv_file) :
  (forall e, same e e = true) ->
  has_required (fieldnames f) = true ->
  csv_broken f = false ->
  let first := fst (insert_data (unique_emails same before ids f)) in
  let table' := before ++ map new_email (taken_rows first) in
  let again := fst (insert_data (unique_emails same table' ids' f)) in
  In Commit first
  /\ (forall u, In u (taken_rows first) ->
                existsb (same (new_email u)) before = false)
  /\ In Commit again
  /\ taken_rows again = []
  /\ In (Say (InsertedRows 0)) again
  /\ map new_email (sent again) = map new_email (sent first).
Proof.
  intros Hrefl Hhead Hreader. cbv zeta.
  assert (Hserver : forall b i t u errno,
             server (unique_emails same b i f) t u <> OtherError errno).
  { intros b i t u errno. cbn [server unique_emails].
    destruct (existsb _ _); discriminate. }
  destruct (insert_data_clean_run (unique_emails same before ids f) f
              eq_refl eq_refl Hhead Hreader eq_refl eq_refl
              (Hserver before ids)) as (Hfirst & _ & Hsent).
  destruct (insert_rows_unique same before ids f (csv_rows f) [] 0 0 Hrefl)
    as (Hnew & Hall).
  cbn [map app] in Hnew, Hall. rewrite app_nil_r in Hnew.
  set (acts := fst (insert_rows (unique_emails same before ids f) false
                      (csv_rows f) [] 0 0)) in *.
  rewrite Hfirst. cbn [fst].
  assert (Htaken : forall l tail,
             taken_rows tail = [] ->
             taken_rows (OpenCursor :: l ++ tail) = taken_rows l).
  { intros l tail Ht. change (OpenCursor :: l ++ tail)
      with ([OpenCursor] ++ l ++ tail).
    rewrite !taken_rows_app, Ht. cbn. now rewrite app_nil_r. }
  assert (Hsends : forall l tail,
             sent tail = [] -> sent (OpenCursor :: l ++ tail) = sent l).
  { intros l tail Ht. change (OpenCursor :: l ++ tail)
      with ([OpenCursor] ++ l ++ tail).
    rewrite !sent_app, Ht. cbn. now rewrite app_nil_r. }
  assert (Hcommitted : forall l n,
             In Commit (OpenCursor :: l ++ [Commit; Say n; CloseCursor])).
  { intros l n. right. apply in_or_app. right. now left. }
  rewrite Htaken by reflexivity.
  set (table' := before ++ map new_email (taken_rows acts)).
  destruct (insert_data_clean_run (unique_emails same table' ids' f) f
              eq_refl eq_refl Hhead Hreader eq_refl eq_refl
              (Hserver table' ids')) as (Hagain & _ & Hsent').
  destruct (insert_rows_nothing_new same table' ids' f (csv_rows f) [] 0 0
              Hall) as (Hnone & _).
  set (acts' := fst (insert_rows (unique_emails same table' ids' f) false
                       (csv_rows f) [] 0 0)) in *.
  rewrite Hagain. cbn [fst]. rewrite Hnone. cbn [length].
  split; [apply Hcommitted |]. split; [exact Hnew |].
  split; [apply Hcommitted |].
  split; [rewrite Htaken by reflexivity; exact Hnone |].
  split; [right; apply in_or_app; right; right; now left |].
  rewrite !Hsends by reflexivity. rewrite Hsent, Hsent'.
  generalize (candidates (csv_rows f)) as l. generalize 0%nat as d.
  intros d l. revert d. induction l as [| [[n e] a] l IH]; intros d.
  - reflexivity.
  - cbn [numbered map new_email]. now rewrite IH.
Qed.

Lemma insert_data_commits_witness :
  let f := {| fieldnames := Some ["name"; "email"; "age"]%string;
              csv_rows := [{| row_name := Some "Ada"%string;
                              row_email := Some "ada@x.org"%string;
                              row_age := Some "36"%string |}];
              csv_broken := false |} in
  let env := welcoming (fun _ => "id"%string) f in
  exists acts,
    insert_data env
    = (OpenCursor :: acts
       ++ [Commit; Say (InsertedRows (length (taken_rows acts)));
           CloseCursor], Returns)
    /\ forallb is_insert acts = true
    /\ sent acts = numbered env 0 (candidates (csv_rows f)).
Proof.
  intros f env.
  apply (insert_data_commits env f); try reflexivity.
  intros t u errno. discriminate.
Defined.

Lemma insert_data_twice_witness :
  let f := {| fieldnames := Some ["name"; "email"; "age"]%string;
              csv_rows := [{| row_name := Some "Ada"%string;
                              row_email := Some "ada@x.org"%string;
                              row_age := Some "36"%string |};
                           {| row_name := Some "Ada L."%string;
                              row_email := Some " ada@x.org "%string;
                              row_age := Some "x"%string |}];
              csv_broken := false |} in
  let ids := fun _ : nat => "id"%string in
  let first := fst (insert_data (unique_emails String.eqb [] ids f)) in
  let table' := [] ++ map new_email (taken_rows first) in
  let again := fst (insert_data (unique_emails String.eqb table' ids f)) in
  In Commit first
  /\ (forall u, In u (taken_rows first) ->
                existsb (String.eqb (new_email u)) [] = false)
  /\ In Commit again
  /\ taken_rows again = []
  /\ In (Say (InsertedRows 0)) again
  /\ map new_email (sent again) = map new_email (sent first).
Proof.
  intros f ids.
  apply (insert_data_twice String.eqb [] ids ids f);
    [apply String.eqb_refl | reflexivity | reflexivity].
Defined.
End InsertData.
